(** * Cucumber Expression to regex compiler: a shallow embedding

    The development follows [src/CucumberExpression.cpp] and the exception
    hierarchy of [include/cucumber-cpp/internal/utils/CucumberExpression.hpp].

    - [std::string] is [string]; positions are [size_t] values, kept in [N]
      with the one wrapping subtraction of the source written out;
    - [int] depth counters are kept in [Z];
    - a C++ [throw] is the outcome [Throw]; undefined behaviour (a read
      outside a string, [back()] of an empty string, an [int] incremented
      past [INT_MAX]) is the outcome [UB];
    - [while] loops over positions take a fuel argument; the fuel the callers
      pass is shown to be enough. *)

From Stdlib Require Import Bool List Ascii String NArith ZArith Lia.
From Stdlib Require Import DecimalString.
Import ListNotations.

Local Open Scope string_scope.
Local Open Scope N_scope.

(** ** The exception hierarchy of CucumberExpression.hpp *)

Module Exn.

(** Every class of the header derives from
    [CucumberExpressionpressionException]; [StdOutOfRange] stands for the
    [std::out_of_range] of [std::string::substr]. *)
Inductive exn : Type :=
| CucumberExpressionpressionException (message : string)
| UnknownParameterTypeException (paramType : string)
| UnclosedParameterException (message : string)
| UnclosedOptionalException (message : string)
| UnmatchedClosingBraceException
| UnmatchedClosingParenthesisException
| EmptyOptionalException (column : Z)
| OptionalParameterTypeException (column : Z)
| AlternationInOptionalException
| EmptyAlternativeException (column : Z)
| NestedOptionalException
| EmptyExpressionException
| StdOutOfRange (message : string).

(** [std::to_string] on a non-negative number. *)
Definition to_string (n : N) : string :=
  NilEmpty.string_of_uint (N.to_uint n).

Definition column_message (column : Z) (text : string) : string :=
  if (0 <=? column)%Z
  then text ++ " (at column " ++ to_string (Z.to_N column) ++ ")"
  else text.

(** [e.what()]: the message each constructor hands to its base class. *)
Definition what (e : exn) : string :=
  match e with
  | CucumberExpressionpressionException m => m
  | UnknownParameterTypeException p => "Unknown parameter type: {" ++ p ++ "}"
  | UnclosedParameterException m => m
  | UnclosedOptionalException m => m
  | UnmatchedClosingBraceException =>
      "Unexpected closing brace '}' without matching opening brace"
  | UnmatchedClosingParenthesisException =>
      "Unexpected closing parenthesis ')' without matching opening parenthesis"
  | EmptyOptionalException c =>
      column_message c "An optional must contain some text"
  | OptionalParameterTypeException c =>
      column_message c "An optional may not contain a parameter type"
  | AlternationInOptionalException =>
      "Alternation is not allowed inside optional text"
  | EmptyAlternativeException c =>
      column_message c "Alternation may not have empty alternatives"
  | NestedOptionalException => "Nested optional text is not allowed"
  | EmptyExpressionException => "Cucumber expression cannot be empty"
  | StdOutOfRange m => m
  end.

(** The kinds a caller can tell apart with a typed [catch]. *)
Definition is_UnknownParameterType (e : exn) : bool :=
  match e with UnknownParameterTypeException _ => true | _ => false end.

Definition is_EmptyOptional (e : exn) : bool :=
  match e with EmptyOptionalException _ => true | _ => false end.

Definition is_generic (e : exn) : bool :=
  match e with CucumberExpressionpressionException _ => true | _ => false end.

End Exn.
Export Exn.

(** ** Outcomes of a computation *)

Inductive outcome (A : Type) : Type :=
| Ok (a : A)
| Throw (e : exn)
| UB
| OutOfFuel.

Arguments Ok {A} a.
Arguments Throw {A} e.
Arguments UB {A}.
Arguments OutOfFuel {A}.

Definition bind {A B : Type} (m : outcome A) (k : A -> outcome B) : outcome B :=
  match m with
  | Ok a => k a
  | Throw e => Throw e
  | UB => UB
  | OutOfFuel => OutOfFuel
  end.

Notation "x <- m ;; k" := (bind m (fun x => k))
  (at level 61, m at next level, right associativity).
Notation "' p <- m ;; k" := (bind m (fun x => let p := x in k))
  (at level 61, p pattern, m at next level, right associativity).

(** ** std::string primitives *)

Module Str.

Definition length (s : string) : N := N.of_nat (String.length s).

Definition empty (s : string) : bool :=
  match s with EmptyString => true | String _ _ => false end.

Definition singleton (c : ascii) : string := String c EmptyString.

(** [s[i]]: defined for [i <= s.length()] (the terminating NUL sits at
    [s.length()]), undefined behaviour beyond. *)
Definition at_ (s : string) (i : N) : outcome ascii :=
  if i <? length s then
    match String.get (N.to_nat i) s with
    | Some c => Ok c
    | None => UB
    end
  else if i =? length s then Ok Ascii.zero
  else UB.

Fixpoint last_char (s : string) : option ascii :=
  match s with
  | EmptyString => None
  | String c EmptyString => Some c
  | String _ s' => last_char s'
  end.

(** [s.back()]: undefined behaviour on the empty string. *)
Definition back (s : string) : outcome ascii :=
  match last_char s with
  | Some c => Ok c
  | None => UB
  end.

Fixpoint find_aux (c : ascii) (s : string) (idx pos : N) : option N :=
  match s with
  | EmptyString => None
  | String a s' =>
      if (pos <=? idx) && (a =? c)%char then Some idx
      else find_aux c s' (N.succ idx) pos
  end.

(** [s.find(c, pos)]; [None] is [npos]. *)
Definition find (c : ascii) (s : string) (pos : N) : option N :=
  find_aux c s 0 pos.

Fixpoint rfind_aux (c : ascii) (s : string) (idx : N) (acc : option N)
  : option N :=
  match s with
  | EmptyString => acc
  | String a s' =>
      rfind_aux c s' (N.succ idx) (if (a =? c)%char then Some idx else acc)
  end.

(** [s.rfind(c)]; [None] is [npos]. *)
Definition rfind (c : ascii) (s : string) : option N :=
  rfind_aux c s 0 None.

(** [s.substr(pos, n)]: throws [std::out_of_range] when [pos > s.length()],
    otherwise clamps [n] to what is left. *)
Definition substr (s : string) (pos n : N) : outcome string :=
  if pos <=? length s
  then Ok (String.substring (N.to_nat pos) (N.to_nat n) s)
  else Throw (StdOutOfRange "basic_string::substr").

(** [std::string(chars).find(c) != npos]. *)
Fixpoint contains (chars : string) (c : ascii) : bool :=
  match chars with
  | EmptyString => false
  | String a chars' => (a =? c)%char || contains chars' c
  end.

End Str.

(** ** size_t arithmetic *)

Definition SIZE_MAX : N := 2 ^ 64 - 1.

(** [a - b] on [size_t]: wraps around below zero. *)
Definition size_sub (a b : N) : N := (a + 2 ^ 64 - b) mod 2 ^ 64.

(** [a + b] on [size_t]. *)
Definition size_add (a b : N) : N := (a + b) mod 2 ^ 64.

(** ** The parameter type registry *)

Definition dquote : string := Str.singleton "034"%char.

Definition INT_REGEX : string := "-?\d+".
Definition FLOAT_REGEX : string :=
  "(?=.*\d.*)[-+]?\d*(?:\.(?=\d.*))?\d*(?:\d+[E][+-]?\d+)?".
Definition WORD_REGEX : string := "[^\s]+".
Definition STRING_REGEX : string :=
  dquote ++ "([^" ++ dquote ++ "\\]*(\\.[^" ++ dquote ++ "\\]*)*)" ++ dquote
  ++ "|'([^'\\]*(\\.[^'\\]*)*)'".

(** [getParameterTypes()]: the function-local static map, built-ins only. *)
Definition getParameterTypes : list (string * string) :=
  [ ("int", INT_REGEX);
    ("float", FLOAT_REGEX);
    ("word", WORD_REGEX);
    ("string", STRING_REGEX);
    ("bigdecimal", FLOAT_REGEX);
    ("double", FLOAT_REGEX);
    ("biginteger", INT_REGEX);
    ("byte", INT_REGEX);
    ("short", INT_REGEX);
    ("long", INT_REGEX);
    ("", ".*") ].

(** [m.find(key)] on a [std::map]: exact, case-sensitive key match. *)
Fixpoint map_find (key : string) (m : list (string * string)) : option string :=
  match m with
  | [] => None
  | (k, v) :: m' => if (k =? key)%string then Some v else map_find key m'
  end.

(** The largest [int]; incrementing an [int] that holds it is undefined. *)
Definition INT_MAX : Z := (2 ^ 31 - 1)%Z.

(** ** class CucumberExpressionpressionParser *)

Definition REGEX_SPECIAL : string := ".^$|()[]{}*+?\".

Definition is_regex_special (c : ascii) : bool := Str.contains REGEX_SPECIAL c.

(** The literal branch of [parse] and the body of [escapeRegexChars]: the
    character, behind a backslash when it is a regex metacharacter. *)
Definition escape_char (c : ascii) : string :=
  if is_regex_special c then String "\" (Str.singleton c) else Str.singleton c.

(** [escapeRegexChars(text)] *)
Fixpoint escapeRegexChars (text : string) : string :=
  match text with
  | EmptyString => EmptyString
  | String c text' => escape_char c ++ escapeRegexChars text'
  end.

(** The characters a backslash escapes: [\( \) \{ \} \/]. *)
Definition is_escapable (c : ascii) : bool :=
  (c =? "(")%char || (c =? ")")%char || (c =? "{")%char || (c =? "}")%char
  || (c =? "/")%char.

(** [parseAlternativeText(text)], the loop over [i] with [result]. *)
Fixpoint parseAlternativeText_loop (fuel : nat) (text : string) (i : N)
  (result : string) : outcome string :=
  if Str.length text <=? i then Ok result else
  match fuel with
  | O => OutOfFuel
  | S fuel' =>
      c <- Str.at_ text i ;;
      let literal :=
        parseAlternativeText_loop fuel' text (i + 1) (result ++ escape_char c) in
      if (c =? "(")%char then
        match Str.find ")" text i with
        | Some closePos =>
            optionalContent <- Str.substr text (i + 1) (closePos - i - 1) ;;
            if Str.empty optionalContent then
              Throw (CucumberExpressionpressionException
                       "Empty optional text is not allowed")
            else
              parseAlternativeText_loop fuel' text (closePos + 1)
                (result ++ "(?:" ++ escapeRegexChars optionalContent ++ ")?")
        | None => literal
        end
      else literal
  end.

Definition parseAlternativeText (text : string) : outcome string :=
  parseAlternativeText_loop (String.length text) text 0 "".

Section CucumberExpressionpressionParser.

(** The member [expression]; the member [pos] is threaded through. *)
Variable expression : string.

(** [parseEscaping(result)] *)
Definition parseEscaping (pos : N) (result : string) : outcome (N * string) :=
  next <- Str.at_ expression (pos + 1) ;;
  let result :=
    if (next =? "{")%char || (next =? "}")%char || (next =? "(")%char
       || (next =? ")")%char
    then result ++ "\" else result in
  Ok (pos + 2, result ++ Str.singleton next).

(** [parseOpenBrace(result)]. It runs with [expression[pos] == '{'], so
    [find] returns a position behind [pos] and [closePos - pos - 1] does not
    wrap; the same holds in [parseOpenParenthesis] and
    [parseAlternativeText]. *)
Definition parseOpenBrace (pos : N) (result : string) : outcome (N * string) :=
  match Str.find "}" expression pos with
  | None =>
      Throw (UnclosedParameterException
               ("Unclosed parameter type: missing '}' at position "
                ++ to_string pos))
  | Some closePos =>
      paramType <- Str.substr expression (pos + 1) (closePos - pos - 1) ;;
      match map_find paramType getParameterTypes with
      | None => Throw (UnknownParameterTypeException paramType)
      | Some fragment => Ok (closePos + 1, result ++ "(" ++ fragment ++ ")")
      end
  end.

(** [parseOpenParenthesis(result)] *)
Definition parseOpenParenthesis (pos : N) (result : string)
  : outcome (N * string) :=
  match Str.find ")" expression pos with
  | None =>
      Throw (UnclosedOptionalException
               ("Unclosed optional text: missing ')' at position "
                ++ to_string pos))
  | Some closePos =>
      optionalContent <- Str.substr expression (pos + 1) (closePos - pos - 1) ;;
      if Str.empty optionalContent then
        Throw (CucumberExpressionpressionException
                 ("Empty optional text is not allowed at position "
                  ++ to_string pos))
      else
        Ok (closePos + 1,
            result ++ "(?:" ++ escapeRegexChars optionalContent ++ ")?")
  end.

(** The inner [while (i >= 0 && depth > 0)] of the backtracking in
    [collectAlternativesFromHere]; [i >= 0] always holds for a [size_t].
    [depth] is an [int]: [depth++] at [INT_MAX] is undefined.
    Returns [i] and [current] as the loop leaves them. *)
Fixpoint backtrack_parenthesis (fuel : nat) (i : N) (depth : Z)
  (current : string) : outcome (N * string) :=
  if (depth <=? 0)%Z then Ok (i, current) else
  match fuel with
  | O => OutOfFuel
  | S fuel' =>
      pc <- Str.at_ expression i ;;
      let current := String pc current in
      if (pc =? ")")%char && (depth =? INT_MAX)%Z then UB else
      let depth := if (pc =? ")")%char then (depth + 1)%Z else depth in
      let depth := if (pc =? "(")%char then (depth - 1)%Z else depth in
      if i =? 0 then Ok (i, current)
      else backtrack_parenthesis fuel' (i - 1) depth current
  end.

(** The first [while] of [collectAlternativesFromHere]: walks left from
    [startPos], prepending to [current]. [inner] is the fuel handed to
    [backtrack_parenthesis]. *)
Fixpoint backtrack (fuel inner : nat) (i : N) (current : string)
  : outcome string :=
  match fuel with
  | O => OutOfFuel
  | S fuel' =>
      c <- Str.at_ expression i ;;
      if (c =? " ")%char || (c =? "{")%char then Ok current
      else if (c =? ")")%char then
        let current := String c current in
        if i =? 0 then Ok current
        else
          '(i', current') <- backtrack_parenthesis inner (i - 1) 1%Z current ;;
          backtrack fuel' inner i' current'
      else if (c =? "(")%char then Ok current
      else
        let current := String c current in
        if i =? 0 then Ok current
        else backtrack fuel' inner (i - 1) current
  end.

(** [if (!current.empty()) alternatives.push_back(current);] *)
Definition push_nonempty (alternatives : list string) (current : string)
  : list string :=
  if Str.empty current then alternatives else alternatives ++ [current].

(** The second [while] of [collectAlternativesFromHere]. The local
    [allWords] is only ever appended to and never read, so it is left out.
    The copy loop [while (fwdPos <= parenEnd)] appends
    [expression[fwdPos..parenEnd]], which lies inside the string because
    [find] returned [parenEnd]. Returns [fwdPos] and the alternatives. *)
Fixpoint collect_forward (fuel : nat) (fwdPos : N) (current : string)
  (alternatives : list string) : outcome (N * list string) :=
  if Str.length expression <=? fwdPos
  then Ok (fwdPos, push_nonempty alternatives current) else
  match fuel with
  | O => OutOfFuel
  | S fuel' =>
      c <- Str.at_ expression fwdPos ;;
      if (c =? " ")%char || (c =? "{")%char
      then Ok (fwdPos, push_nonempty alternatives current)
      else if (c =? "(")%char && Str.empty current
      then Ok (fwdPos, push_nonempty alternatives current)
      else if (c =? "(")%char then
        match Str.find ")" expression fwdPos with
        | Some parenEnd =>
            copied <- Str.substr expression fwdPos (parenEnd - fwdPos + 1) ;;
            collect_forward fuel' (parenEnd + 1) (current ++ copied)
              alternatives
        | None =>
            collect_forward fuel' (fwdPos + 1) (current ++ Str.singleton c)
              alternatives
        end
      else
        escaped_slash <-
          (if (c =? "\")%char && (fwdPos + 1 <? Str.length expression)
           then next <- Str.at_ expression (fwdPos + 1) ;;
                Ok (next =? "/")%char
           else Ok false) ;;
        if escaped_slash
        then collect_forward fuel' (fwdPos + 2) current alternatives
        else if (c =? "/")%char
        then collect_forward fuel' (fwdPos + 1) ""
               (push_nonempty alternatives current)
        else collect_forward fuel' (fwdPos + 1) (current ++ Str.singleton c)
               alternatives
  end.

(** [collectAlternativesFromHere(startPos)]: the alternatives and the new
    value of the member [pos]. *)
Definition collectAlternativesFromHere (startPos : N)
  : outcome (N * list string) :=
  let n := String.length expression in
  current <- backtrack (S (S n)) (S n) startPos "" ;;
  let alternatives := push_nonempty [] current in
  collect_forward n (size_add startPos 1) "" alternatives.

(** The [for] loop of [parseAlternatives] that joins the alternatives. *)
Fixpoint join_alternatives (first : bool) (alternatives : list string)
  (result : string) : outcome string :=
  match alternatives with
  | [] => Ok result
  | alternative :: rest =>
      let result := if first then result else result ++ "|" in
      text <- parseAlternativeText alternative ;;
      join_alternatives false rest (result ++ text)
  end.

(** The [while] that moves [wordEnd] in [parseAlternatives]. Its body only
    decrements [wordEnd], which nothing reads afterwards, and [result] does
    not change, so all that remains of the loop is that [result.back()] is
    evaluated when [pos > 0]. *)
Definition scan_wordEnd (pos : N) (result : string) : outcome N :=
  if 0 <? pos then
    b <- Str.back result ;;
    if negb (b =? " ")%char && negb (b =? ")")%char && negb (b =? ")")%char
    then Ok 0 else Ok pos
  else Ok pos.

(** [parseAlternatives(result)] *)
Definition parseAlternatives (pos : N) (result : string)
  : outcome (N * string) :=
  _ <- scan_wordEnd pos result ;;
  '(pos', alternatives) <- collectAlternativesFromHere (size_sub pos 1) ;;
  if (1 <? List.length alternatives)%nat then
    truncated <-
      match Str.rfind " " result with
      | Some lastSpace => Str.substr result 0 (lastSpace + 1)
      | None => Ok ""
      end ;;
    joined <- join_alternatives true alternatives (truncated ++ "(?:") ;;
    Ok (pos', joined ++ ")")
  else Ok (pos', result).

(** The test that opens the loop body of [parse]: is [current] a backslash
    with one of [( ) { } /] behind it? *)
Definition escape_test (pos : N) (current : ascii) : outcome bool :=
  if (current =? "\")%char && (pos + 1 <? Str.length expression)
  then next <- Str.at_ expression (pos + 1) ;; Ok (is_escapable next)
  else Ok false.

(** One turn of the [while] of [parse], entered with
    [pos < expression.length()]. *)
Definition parse_step (pos : N) (result : string) : outcome (N * string) :=
  current <- Str.at_ expression pos ;;
  escaping <- escape_test pos current ;;
  if escaping then parseEscaping pos result
  else if (current =? "{")%char then parseOpenBrace pos result
  else if (current =? "(")%char then parseOpenParenthesis pos result
  else if (current =? "/")%char then parseAlternatives pos result
  else Ok (pos + 1, result ++ escape_char current).

Fixpoint parse_loop (fuel : nat) (pos : N) (result : string)
  : outcome string :=
  if Str.length expression <=? pos then Ok result else
  match fuel with
  | O => OutOfFuel
  | S fuel' =>
      '(pos', result') <- parse_step pos result ;;
      parse_loop fuel' pos' result'
  end.

(** [parse()] *)
Definition parse : outcome string :=
  parse_loop (String.length expression) 0 "".

End CucumberExpressionpressionParser.

(** ** cukex::transform *)

(** [i > 0 && expression[i - 1] == '\\'], with [prev] for
    [expression[i - 1]]. *)
Definition is_backslash (prev : option ascii) : bool :=
  match prev with
  | Some p => (p =? "\")%char
  | None => false
  end.

(** The validation [for] loop of [transform]. [prev] is [expression[i - 1]],
    absent when [i = 0]; the depths are the [int] counters, whose increment
    past [INT_MAX] is undefined. Returns the depths at the end of the scan. *)
Fixpoint validate_scan (rest : string) (prev : option ascii)
  (braceDepth parenDepth : Z) : outcome (Z * Z) :=
  match rest with
  | EmptyString => Ok (braceDepth, parenDepth)
  | String c rest' =>
      if is_backslash prev then
        validate_scan rest' (Some c) braceDepth parenDepth
      else if (c =? "{")%char then
        let braceDepth := (braceDepth + 1)%Z in
        if (1 <? braceDepth)%Z then
          Throw (CucumberExpressionpressionException
                   "Nested parameter types are not allowed")
        else validate_scan rest' (Some c) braceDepth parenDepth
      else if (c =? "}")%char then
        let braceDepth := (braceDepth - 1)%Z in
        if (braceDepth <? 0)%Z then Throw UnmatchedClosingBraceException
        else validate_scan rest' (Some c) braceDepth parenDepth
      else if (c =? "(")%char then
        if (parenDepth =? INT_MAX)%Z then UB
        else validate_scan rest' (Some c) braceDepth (parenDepth + 1)%Z
      else if (c =? ")")%char then
        let parenDepth := (parenDepth - 1)%Z in
        if (parenDepth <? 0)%Z then Throw UnmatchedClosingParenthesisException
        else validate_scan rest' (Some c) braceDepth parenDepth
      else validate_scan rest' (Some c) braceDepth parenDepth
  end.

(** The validator: the scan and the two checks that follow it. *)
Definition validate (expression : string) : outcome unit :=
  '(braceDepth, parenDepth) <- validate_scan expression None 0%Z 0%Z ;;
  if negb (braceDepth =? 0)%Z then
    Throw (UnclosedParameterException
             "Unclosed parameter type: unmatched braces")
  else if negb (parenDepth =? 0)%Z then
    Throw (UnclosedOptionalException
             "Unclosed optional text: unmatched parentheses")
  else Ok tt.

(** [try { body } catch (const std::exception& e) { handler }]: every
    exception of the model derives from [std::exception]. *)
Definition try_catch {A : Type} (body : outcome A) (handler : exn -> outcome A)
  : outcome A :=
  match body with
  | Throw e => handler e
  | other => other
  end.

(** ["^" + regex + "$"] *)
Definition anchor (regex : string) : string := "^" ++ regex ++ "$".

Section cukex.

(** The constructor of [std::regex] belongs to the C++ standard library:
    [regex_error regex] is [None] when [std::regex testRegex(regex)]
    succeeds and [Some w] when it throws a [std::regex_error] whose
    [what()] is [w]. *)
Variable regex_error : string -> option string.

(** [validateRegex(regex)] *)
Definition validateRegex (regex : string) : outcome unit :=
  match regex_error regex with
  | None => Ok tt
  | Some w =>
      Throw (CucumberExpressionpressionException
               ("Failed to create valid regex: " ++ w))
  end.

(** [cukex::transform(expression)] *)
Definition transform (expression : string) : outcome string :=
  if Str.empty expression then Throw EmptyExpressionException else
  _ <- validate expression ;;
  try_catch
    (regex <- parse expression ;;
     let regex := anchor regex in
     _ <- validateRegex regex ;;
     Ok regex)
    (fun e =>
       Throw (CucumberExpressionpressionException
                ("Invalid Cucumber expression: " ++ what e))).

End cukex.

(** A regex engine that accepts every pattern, to run [transform] on
    concrete expressions. *)
Definition accept_all : string -> option string := fun _ => None.


(** ** Vocabulary of the properties *)

(** [free_of chars s]: no character of [chars] occurs in [s]. *)
Fixpoint free_of (chars s : string) : bool :=
  match s with
  | EmptyString => true
  | String c s' => negb (Str.contains chars c) && free_of chars s'
  end.

(** [escape_text metachars text]: [text] with a backslash in front of each
    character that belongs to [metachars]. *)
Fixpoint escape_text (metachars text : string) : string :=
  match text with
  | EmptyString => EmptyString
  | String c text' =>
      (if Str.contains metachars c then String "\" (Str.singleton c)
       else Str.singleton c) ++ escape_text metachars text'
  end.

(** [drop n s]: [s] without its first [n] characters. *)
Fixpoint drop (n : nat) (s : string) : string :=
  match n, s with
  | O, _ => s
  | S n', String _ s' => drop n' s'
  | S _, EmptyString => EmptyString
  end.

Definition head_char (s : string) : option ascii :=
  match s with
  | EmptyString => None
  | String c _ => Some c
  end.

(** [s] ends with [suffix]. *)
Definition ends_with (suffix s : string) : Prop :=
  exists front, s = front ++ suffix.

(** Is the character at index [i] of [e] directly behind a backslash? *)
Definition preceded_by_backslash (e : string) (i : nat) : bool :=
  match i with
  | O => false
  | S j =>
      match String.get j e with
      | Some c => (c =? "\")%char
      | None => false
      end
  end.

(** The characters of [rest], which starts at index [i] of [e], that are
    not directly behind a backslash. *)
Fixpoint tracked_from (e : string) (i : nat) (rest : string) : list ascii :=
  match rest with
  | EmptyString => []
  | String c rest' =>
      (if preceded_by_backslash e i then [] else [c])
      ++ tracked_from e (S i) rest'
  end.

Definition tracked (e : string) : list ascii := tracked_from e 0 e.

(** Depth counting over a list of characters, with no notion of escape:
    what the validator does to a character it does not skip. *)
Fixpoint count_depths (cs : list ascii) (braceDepth parenDepth : Z)
  : outcome (Z * Z) :=
  match cs with
  | [] => Ok (braceDepth, parenDepth)
  | c :: cs' =>
      if (c =? "{")%char then
        if (1 <? braceDepth + 1)%Z then
          Throw (CucumberExpressionpressionException
                   "Nested parameter types are not allowed")
        else count_depths cs' (braceDepth + 1)%Z parenDepth
      else if (c =? "}")%char then
        if (braceDepth - 1 <? 0)%Z then Throw UnmatchedClosingBraceException
        else count_depths cs' (braceDepth - 1)%Z parenDepth
      else if (c =? "(")%char then
        if (parenDepth =? INT_MAX)%Z then UB
        else count_depths cs' braceDepth (parenDepth + 1)%Z
      else if (c =? ")")%char then
        if (parenDepth - 1 <? 0)%Z
        then Throw UnmatchedClosingParenthesisException
        else count_depths cs' braceDepth (parenDepth - 1)%Z
      else count_depths cs' braceDepth parenDepth
  end.

(** The exception kinds that [transform] lets out: the empty-expression
    check, the validator's throws, and the generic exception of the
    [catch] clause. *)
Definition surfaces (x : exn) : bool :=
  match x with
  | EmptyExpressionException
  | CucumberExpressionpressionException _
  | UnclosedParameterException _
  | UnclosedOptionalException _
  | UnmatchedClosingBraceException
  | UnmatchedClosingParenthesisException => true
  | _ => false
  end.

(** The character in front of what follows [pre], when [prev] is in front
    of [pre]. *)
Definition last_or (prev : option ascii) (pre : string) : option ascii :=
  match Str.last_char pre with
  | Some c => Some c
  | None => prev
  end.

(** [well_ended s]: when [s] ends with a dollar sign, a backslash stands in
    front of it. *)
Definition well_ended (s : string) : Prop :=
  Str.last_char s = Some "$"%char -> ends_with "\$" s.

(** What every turn of [parse] keeps true of [result]. *)
Definition unanchored (result : string) : Prop :=
  head_char result <> Some "^"%char /\ well_ended result.

(** A piece of output: not empty, not opening with a caret, well ended. *)
Definition piece (x : string) : Prop :=
  head_char x <> None /\ head_char x <> Some "^"%char /\ well_ended x.

(** How a regex engine reads the next character of a pattern: as it
    stands ([Plain]), as the character a backslash escapes ([Escaped]),
    inside a character class [[...]] ([InClass]), or behind a backslash
    inside one ([EscapedInClass]). *)
Inductive lexer_state : Type :=
| Plain
| Escaped
| InClass
| EscapedInClass.

Definition is_plain (st : lexer_state) : bool :=
  match st with Plain => true | _ => false end.

Definition lex_step (st : lexer_state) (c : ascii) : lexer_state :=
  match st with
  | Plain =>
      if (c =? "\")%char then Escaped
      else if (c =? "[")%char then InClass
      else Plain
  | Escaped => Plain
  | InClass =>
      if (c =? "\")%char then EscapedInClass
      else if (c =? "]")%char then Plain
      else InClass
  | EscapedInClass => InClass
  end.

(** The state in which what follows [s] is read. *)
Fixpoint lex_end (st : lexer_state) (s : string) : lexer_state :=
  match s with
  | EmptyString => st
  | String c s' => lex_end (lex_step st c) s'
  end.

Definition is_anchor (c : ascii) : bool := (c =? "^")%char || (c =? "$")%char.

(** The anchors of a pattern: each [^] and [$] that is read as it stands,
    neither escaped by a backslash nor inside a character class, with its
    index. [i] is the index of the first character of [s]. *)
Fixpoint anchors_from (st : lexer_state) (i : nat) (s : string)
  : list (nat * ascii) :=
  match s with
  | EmptyString => []
  | String c s' =>
      (if is_plain st && is_anchor c then [(i, c)] else [])
      ++ anchors_from (lex_step st c) (S i) s'
  end.

Definition anchors (s : string) : list (nat * ascii) := anchors_from Plain 0 s.

(** [anchor_free_from st s]: read from state [st], [s] holds no anchor,
    every space of [s] is read as it stands, and what follows [s] is read
    as it stands. *)
Fixpoint anchor_free_from (st : lexer_state) (s : string) : bool :=
  match s with
  | EmptyString => is_plain st
  | String c s' =>
      (if is_plain st then negb (is_anchor c) else negb (c =? " ")%char)
      && anchor_free_from (lex_step st c) s'
  end.

(** What every turn of [parse] keeps true of [result], and what holds of
    every piece it appends. *)
Definition anchor_free (s : string) : Prop := anchor_free_from Plain s = true.



(** A computation that did not stop for lack of fuel. *)
Definition terminates {A : Type} (m : outcome A) : Prop := m <> OutOfFuel.

(** The exception kinds the validator throws. *)
Definition validator_kind (x : exn) : bool :=
  match x with
  | CucumberExpressionpressionException _
  | UnclosedParameterException _
  | UnclosedOptionalException _
  | UnmatchedClosingBraceException
  | UnmatchedClosingParenthesisException => true
  | _ => false
  end.

(** The exception kinds the parser throws. *)
Definition parser_kind (x : exn) : bool :=
  match x with
  | CucumberExpressionpressionException _
  | UnknownParameterTypeException _
  | UnclosedParameterException _
  | UnclosedOptionalException _ => true
  | _ => false
  end.

(** Reading an escaped pattern back: a backslash stands for the character
    behind it. *)
Fixpoint unescape (s : string) : string :=
  match s with
  | EmptyString => EmptyString
  | String c s' =>
      if (c =? "\")%char then
        match s' with
        | EmptyString => Str.singleton c
        | String d s'' => String d (unescape s'')
        end
      else String c (unescape s')
  end.

(** [runs_to e pos r o]: from cursor [pos] and output [r], the loop of
    [parse] on [e] ends with [o], whatever fuel it has above what is left
    of [e]. *)
Definition runs_to (e : string) (pos : N) (r : string) (o : outcome string)
  : Prop :=
  forall fuel, Str.length e <= pos + N.of_nat fuel -> parse_loop e fuel pos r = o.

(** The same for the forward scan of [collectAlternativesFromHere]. *)
Definition scans_to (e : string) (fwdPos : N) (current : string)
  (alternatives : list string) (o : outcome (N * list string)) : Prop :=
  forall fuel, Str.length e <= fwdPos + N.of_nat fuel ->
               collect_forward e fuel fwdPos current alternatives = o.

(** The pieces of an expression without alternation. *)
Inductive segment : Type :=
| SegLiteral (text : string)
| SegEscaped (c : ascii)
| SegParameter (name : string)
| SegOptional (text : string).

(** How a segment is written in an expression. *)
Definition print_segment (s : segment) : string :=
  match s with
  | SegLiteral text => text
  | SegEscaped c => String "\" (Str.singleton c)
  | SegParameter name => "{" ++ name ++ "}"
  | SegOptional text => "(" ++ text ++ ")"
  end.

(** The pattern a segment stands for. *)
Definition render_segment (s : segment) : string :=
  match s with
  | SegLiteral text => escapeRegexChars text
  | SegEscaped c =>
      if (c =? "{")%char || (c =? "}")%char || (c =? "(")%char
         || (c =? ")")%char
      then String "\" (Str.singleton c) else Str.singleton c
  | SegParameter name =>
      match map_find name getParameterTypes with
      | Some fragment => "(" ++ fragment ++ ")"
      | None => ""
      end
  | SegOptional text => "(?:" ++ escapeRegexChars text ++ ")?"
  end.

(** A literal holds none of [{ } ( ) / \]; an escape is one of
    [( ) { } /]; a parameter names a registered type; an optional is not
    empty and holds none of [{ } ( ) \]. *)
Definition segment_ok (s : segment) : bool :=
  match s with
  | SegLiteral text => free_of "{}()/\" text
  | SegEscaped c => is_escapable c
  | SegParameter name =>
      match map_find name getParameterTypes with
      | Some _ => true
      | None => false
      end
  | SegOptional text => negb (Str.empty text) && free_of "{}()\" text
  end.

Fixpoint print_segments (segments : list segment) : string :=
  match segments with
  | [] => ""
  | s :: rest => print_segment s ++ print_segments rest
  end.

Fixpoint render_segments (segments : list segment) : string :=
  match segments with
  | [] => ""
  | s :: rest => render_segment s ++ render_segments rest
  end.

(** [slashed ws]: each word of [ws] behind a [/]. *)
Fixpoint slashed (ws : list string) : string :=
  match ws with
  | [] => ""
  | w :: rest => String "/" (w ++ slashed rest)
  end.

(** [joined sep ws]: the words of [ws] with [sep] between them. *)
Fixpoint joined (sep : string) (ws : list string) : string :=
  match ws with
  | [] => ""
  | [w] => w
  | w :: rest => w ++ sep ++ joined sep rest
  end.

(** A run of words joined by [/]: the first word and the others. *)
Definition word_group : Type := (string * list string)%type.

Definition print_group (g : word_group) : string := fst g ++ slashed (snd g).

Definition nonempty (w : string) : bool := negb (Str.empty w).

(** The alternatives of a group: its first word and the other words that
    are not empty. *)
Definition effective (g : word_group) : list string :=
  fst g :: filter nonempty (snd g).

(** One alternative is plain text, more are a non-capturing choice. *)
Definition render_group (g : word_group) : string :=
  if (1 <? List.length (effective g))%nat
  then "(?:" ++ joined "|" (map escapeRegexChars (effective g)) ++ ")"
  else escapeRegexChars (fst g).

(** A word holds none of [space { } ( ) / \]; the first word of a group
    is not empty. *)
Definition word_ok (w : string) : bool := free_of " {}()/\" w.

Definition group_ok (g : word_group) : bool :=
  negb (Str.empty (fst g)) && word_ok (fst g) && forallb word_ok (snd g).

(** Where the forward scan of alternatives stops: the end of the
    expression, a space or an opening brace. *)
Definition stops_scan (tail : string) : bool :=
  match tail with
  | EmptyString => true
  | String c _ => (c =? " ")%char || (c =? "{")%char
  end.

(** A word starts here: nothing or a space is in front. *)
Definition at_word_start (done : string) : bool :=
  match Str.last_char done with
  | None => true
  | Some c => (c =? " ")%char
  end.

(** [renders_to text i r o]: from index [i] and output [r], the loop of
    [parseAlternativeText] on [text] ends with [o], whatever fuel it has
    above what is left of [text]. *)
Definition renders_to (text : string) (i : N) (r : string)
  (o : outcome string) : Prop :=
  forall fuel, Str.length text <= i + N.of_nat fuel ->
               parseAlternativeText_loop fuel text i r = o.

(** The pieces of one alternative: text without [(], and non-empty
    optionals without [)]. *)
Definition alternative_piece_ok (s : segment) : bool :=
  match s with
  | SegLiteral text => free_of "(" text
  | SegOptional text => negb (Str.empty text) && free_of ")" text
  | _ => false
  end.

(** A stretch of an expression: pieces without alternation, then runs of
    words separated by single spaces. *)
Definition chunk : Type := (list segment * list word_group)%type.

Definition print_words (gs : list word_group) : string :=
  joined " " (map print_group gs).

Definition render_words (gs : list word_group) : string :=
  joined " " (map render_group gs).

Definition print_chunk (c : chunk) : string :=
  print_segments (fst c) ++ print_words (snd c).

Definition render_chunk (c : chunk) : string :=
  render_segments (fst c) ++ render_words (snd c).

Fixpoint print_chunks (cs : list chunk) : string :=
  match cs with
  | [] => ""
  | c :: rest => print_chunk c ++ print_chunks rest
  end.

Fixpoint render_chunks (cs : list chunk) : string :=
  match cs with
  | [] => ""
  | c :: rest => render_chunk c ++ render_chunks rest
  end.

(** Is a word start reached after [s], when [start] tells whether one was
    reached before [s]? *)
Definition starts_word (start : bool) (s : string) : bool :=
  at_word_start ((if start then "" else "x") ++ s).

(** Runs of words must begin at a word start, of the expression and of the
    output, and be followed by the end, a space or an opening brace. *)
Fixpoint chunks_ok (start : bool) (cs : list chunk) : bool :=
  match cs with
  | [] => true
  | (segments, gs) :: rest =>
      forallb segment_ok segments && forallb group_ok gs
      && match gs with
         | [] =>
             chunks_ok (starts_word start (print_segments segments)
                        && starts_word start (render_segments segments)) rest
         | _ :: _ =>
             starts_word start (print_segments segments)
             && starts_word start (render_segments segments)
             && stops_scan (print_chunks rest)
             && chunks_ok false rest
         end
  end.

(** ** Facts about strings *)

Lemma append_nil_r (s : string) : s ++ "" = s.
Proof. induction s as [|c s IH]; simpl; [reflexivity | now rewrite IH]. Qed.

Lemma append_assoc (a b c : string) : (a ++ b) ++ c = a ++ (b ++ c).
Proof. induction a as [|x a IH]; simpl; [reflexivity | now rewrite IH]. Qed.

Lemma length_append (a b : string) :
  String.length (a ++ b) = (String.length a + String.length b)%nat.
Proof. induction a as [|x a IH]; simpl; [reflexivity | now rewrite IH]. Qed.

Lemma get_Some_lt (s : string) (i : nat) (c : ascii) :
  String.get i s = Some c -> (i < String.length s)%nat.
Proof.
  revert i; induction s as [|x s IH]; intros [|i] H; simpl in *;
    try discriminate; try lia.
  apply IH in H. lia.
Qed.

Lemma get_lt_Some (s : string) (i : nat) :
  (i < String.length s)%nat -> exists c, String.get i s = Some c.
Proof.
  revert i; induction s as [|x s IH]; intros [|i] H; simpl in *; try lia.
  - now exists x.
  - apply IH. lia.
Qed.

Lemma at_get (s : string) (i : nat) (c : ascii) :
  String.get i s = Some c -> Str.at_ s (N.of_nat i) = Ok c.
Proof.
  intros H. pose proof (get_Some_lt _ _ _ H) as Hlt.
  unfold Str.at_, Str.length.
  replace (N.of_nat i <? N.of_nat (String.length s)) with true
    by (symmetry; apply N.ltb_lt; lia).
  now rewrite Nat2N.id, H.
Qed.

Lemma at_end (s : string) : Str.at_ s (Str.length s) = Ok Ascii.zero.
Proof.
  unfold Str.at_. now rewrite N.ltb_irrefl, N.eqb_refl.
Qed.

Lemma drop_get (s : string) (i : nat) (c : ascii) :
  String.get i s = Some c -> drop i s = String c (drop (S i) s).
Proof.
  revert i; induction s as [|x s IH]; intros [|i] H; simpl in *;
    try discriminate.
  - now inversion H.
  - now apply IH.
Qed.

Lemma drop_all (s : string) (i : nat) :
  (String.length s <= i)%nat -> drop i s = "".
Proof.
  revert i; induction s as [|x s IH]; intros [|i] H; simpl in *;
    try reflexivity; try lia.
  apply IH. lia.
Qed.

Lemma free_of_get (chars s : string) (i : nat) (c : ascii) :
  free_of chars s = true -> String.get i s = Some c ->
  Str.contains chars c = false.
Proof.
  revert i; induction s as [|x s IH]; intros [|i] Hf H; simpl in *;
    try discriminate; apply andb_true_iff in Hf as [Hx Hs].
  - inversion H; subst. now apply negb_true_iff.
  - eauto.
Qed.

Lemma contains_weaken (small big : string) (c : ascii) :
  (forall x, Str.contains small x = true -> Str.contains big x = true) ->
  Str.contains big c = false -> Str.contains small c = false.
Proof.
  intros Hsub Hbig. destruct (Str.contains small c) eqn:E; [|reflexivity].
  apply Hsub in E. congruence.
Qed.

Lemma free_of_weaken (small big s : string) :
  (forall x, Str.contains small x = true -> Str.contains big x = true) ->
  free_of big s = true -> free_of small s = true.
Proof.
  intros Hsub. induction s as [|c s IH]; simpl; [reflexivity|].
  intros H. apply andb_true_iff in H as [Hc Hs].
  apply andb_true_iff; split; [|auto].
  apply negb_true_iff. apply negb_true_iff in Hc.
  eauto using contains_weaken.
Qed.

Lemma contains_cons_false (a : ascii) (chars : string) (c : ascii) :
  Str.contains (String a chars) c = false <->
  a <> c /\ Str.contains chars c = false.
Proof.
  simpl. rewrite orb_false_iff, Ascii.eqb_neq. tauto.
Qed.

(** ** The literal branch of the parser *)

Lemma N_of_nat_succ (i : nat) : N.of_nat i + 1 = N.of_nat (S i).
Proof. lia. Qed.

Lemma is_escapable_contains (c : ascii) :
  Str.contains "{}()/" c = false -> is_escapable c = false.
Proof.
  intros H. unfold is_escapable.
  repeat (apply contains_cons_false in H as [? H]).
  repeat (apply orb_false_iff; split); apply Ascii.eqb_neq; congruence.
Qed.

Lemma escape_test_false (e : string) (i : nat) (c : ascii) :
  (c = "\"%char -> forall n, String.get (S i) e = Some n ->
                    is_escapable n = false) ->
  escape_test e (N.of_nat i) c = Ok false.
Proof.
  intros Hnext. unfold escape_test.
  destruct ((c =? "\")%char && (N.of_nat i + 1 <? Str.length e)) eqn:E;
    [|reflexivity].
  apply andb_true_iff in E as [Hc Hlt].
  apply Ascii.eqb_eq in Hc. apply N.ltb_lt in Hlt. unfold Str.length in Hlt.
  destruct (get_lt_Some e (S i)) as [n Hn]; [lia|].
  rewrite N_of_nat_succ, (at_get _ _ _ Hn). simpl.
  now rewrite (Hnext Hc n Hn).
Qed.

Lemma parse_step_literal (e : string) (i : nat) (r : string) (c : ascii) :
  String.get i e = Some c ->
  c <> "{"%char -> c <> "("%char -> c <> "/"%char ->
  (c = "\"%char -> forall n, String.get (S i) e = Some n ->
                    is_escapable n = false) ->
  parse_step e (N.of_nat i) r = Ok (N.of_nat i + 1, r ++ escape_char c).
Proof.
  intros Hget Hb Hp Hs Hnext. unfold parse_step.
  rewrite (at_get _ _ _ Hget). cbn [bind].
  rewrite (escape_test_false _ _ _ Hnext). cbn [bind].
  apply Ascii.eqb_neq in Hb, Hp, Hs. now rewrite Hb, Hp, Hs.
Qed.

(** On text without [{ } ( ) /] every turn of the loop is the literal turn. *)
Lemma parse_loop_literal (e : string) :
  free_of "{}()/" e = true ->
  forall (fuel i : nat) (r : string),
    (String.length e <= fuel + i)%nat ->
    parse_loop e fuel (N.of_nat i) r = Ok (r ++ escapeRegexChars (drop i e)).
Proof.
  intros Hfree. induction fuel as [|fuel IH]; intros i r Hfuel.
  - rewrite drop_all by lia. rewrite append_nil_r. simpl.
    replace (Str.length e <=? N.of_nat i) with true; [reflexivity|].
    symmetry. apply N.leb_le. unfold Str.length. lia.
  - cbn [parse_loop].
    destruct (Str.length e <=? N.of_nat i) eqn:Hend.
    + apply N.leb_le in Hend. unfold Str.length in Hend.
      rewrite drop_all by lia. now rewrite append_nil_r.
    + apply N.leb_gt in Hend. unfold Str.length in Hend.
      destruct (get_lt_Some e i) as [c Hc]; [lia|].
      pose proof (free_of_get _ _ _ _ Hfree Hc) as Hcc.
      rewrite (parse_step_literal e i r c Hc).
      * cbn [bind]. rewrite N_of_nat_succ, IH by lia.
        rewrite (drop_get _ _ _ Hc). simpl. now rewrite append_assoc.
      * intros ->. discriminate Hcc.
      * intros ->. discriminate Hcc.
      * intros ->. discriminate Hcc.
      * intros _ n Hn. apply is_escapable_contains.
        exact (free_of_get _ _ _ _ Hfree Hn).
Qed.

Lemma parse_literal (e : string) :
  free_of "{}()/" e = true -> parse e = Ok (escapeRegexChars e).
Proof.
  intros Hfree. unfold parse.
  change 0 with (N.of_nat 0). rewrite (parse_loop_literal e Hfree) by lia.
  reflexivity.
Qed.

(** ** The validator on text without braces and parentheses *)

Lemma validate_scan_plain (rest : string) :
  free_of "{}()" rest = true ->
  forall prev b p, validate_scan rest prev b p = Ok (b, p).
Proof.
  induction rest as [|c rest IH]; intros Hfree prev b p; [reflexivity|].
  cbn [free_of] in Hfree. apply andb_true_iff in Hfree as [Hc Hrest].
  apply negb_true_iff in Hc.
  repeat (apply contains_cons_false in Hc as [? Hc]).
  cbn [validate_scan].
  repeat match goal with
         | H : ?x <> c |- _ =>
             apply not_eq_sym in H; apply Ascii.eqb_neq in H; rewrite H
         end.
  destruct (is_backslash prev); auto.
Qed.

Lemma validate_plain (e : string) :
  free_of "{}()" e = true -> validate e = Ok tt.
Proof.
  intros H. unfold validate. now rewrite validate_scan_plain.
Qed.

Lemma contains_sub_4_5 (x : ascii) :
  Str.contains "{}()" x = true -> Str.contains "{}()/" x = true.
Proof.
  simpl. repeat rewrite orb_true_iff. tauto.
Qed.

(** Text without [{ } ( ) /] goes through [transform] as a literal. *)
Lemma transform_literal (regex_error : string -> option string) (e : string) :
  Str.empty e = false ->
  free_of "{}()/" e = true ->
  regex_error (anchor (escapeRegexChars e)) = None ->
  transform regex_error e = Ok (anchor (escapeRegexChars e)).
Proof.
  intros Hne Hfree Hre. unfold transform. rewrite Hne.
  rewrite validate_plain by (eapply free_of_weaken;
                             [exact contains_sub_4_5 | exact Hfree]).
  cbn [bind]. rewrite (parse_literal e Hfree). cbn [bind].
  unfold validateRegex. now rewrite Hre.
Qed.

Lemma escape_char_restricted (c : ascii) :
  Str.contains "()\" c = false ->
  escape_char c
  = if Str.contains ".^$|[]{}*+?" c then String "\" (Str.singleton c)
    else Str.singleton c.
Proof.
  intros H. repeat (apply contains_cons_false in H as [? H]).
  unfold escape_char, is_regex_special, REGEX_SPECIAL.
  cbn [Str.contains].
  repeat match goal with
         | H : ?x <> c |- _ => apply Ascii.eqb_neq in H; rewrite H
         end.
  cbn [orb]. reflexivity.
Qed.

Lemma escapeRegexChars_restricted (e : string) :
  free_of "()\" e = true ->
  escapeRegexChars e = escape_text ".^$|[]{}*+?" e.
Proof.
  induction e as [|c e IH]; intros H; [reflexivity|].
  cbn [free_of] in H. apply andb_true_iff in H as [Hc He].
  apply negb_true_iff in Hc.
  cbn [escapeRegexChars escape_text].
  now rewrite IH, escape_char_restricted.
Qed.

Lemma contains_sub_3_6 (x : ascii) :
  Str.contains "()\" x = true -> Str.contains "{}()/\" x = true.
Proof.
  cbn [Str.contains]. repeat rewrite orb_true_iff. tauto.
Qed.

Lemma contains_sub_5_6 (x : ascii) :
  Str.contains "{}()/" x = true -> Str.contains "{}()/\" x = true.
Proof.
  cbn [Str.contains]. repeat rewrite orb_true_iff. tauto.
Qed.

Lemma at_inv (s : string) (pos : N) (c : ascii) :
  pos < Str.length s -> Str.at_ s pos = Ok c ->
  String.get (N.to_nat pos) s = Some c.
Proof.
  intros Hlt. unfold Str.at_. apply N.ltb_lt in Hlt. rewrite Hlt.
  destruct (String.get (N.to_nat pos) s); congruence.
Qed.

(** ** Properties: literal text and backslashes *)

(** C5 (as amended). For every non-empty expression that contains none of
    the characters [{ } ( ) / \], and whose anchored output the regex
    engine accepts, [transform] returns [^], then the expression with a
    backslash in front of each of [. ^ $ | [ ] { } * + ?], then [$]. *)
Theorem literal_round_trip (regex_error : string -> option string)
  (e : string) :
  Str.empty e = false ->
  free_of "{}()/\" e = true ->
  regex_error (anchor (escape_text ".^$|[]{}*+?" e)) = None ->
  transform regex_error e = Ok ("^" ++ escape_text ".^$|[]{}*+?" e ++ "$").
Proof.
  intros Hne Hfree Hre.
  assert (Hesc : escapeRegexChars e = escape_text ".^$|[]{}*+?" e).
  { apply escapeRegexChars_restricted.
    eapply free_of_weaken; [exact contains_sub_3_6 | exact Hfree]. }
  rewrite <- Hesc in *.
  apply transform_literal; auto.
  eapply free_of_weaken; [exact contains_sub_5_6 | exact Hfree].
Qed.

Lemma literal_round_trip_witness :
  transform accept_all "array [0]" = Ok "^array \[0\]$".
Proof.
  exact (literal_round_trip accept_all "array [0]"
           eq_refl eq_refl eq_refl).
Defined.

(** C5 as stated fails: ["}"] and [""] contain none of [{ ( ) / \], yet
    [transform] throws on both. *)
Lemma literal_round_trip_needs_more :
  free_of "{()/\" "}" = true
  /\ transform accept_all "}" = Throw UnmatchedClosingBraceException
  /\ free_of "{()/\" "" = true
  /\ transform accept_all "" = Throw EmptyExpressionException.
Proof. repeat split. Qed.

(** C10. When the loop of [parse] stands on a backslash that is the last
    character or has a character other than [( ) { } /] behind it, the turn
    throws nothing, appends the two characters [\\] and advances by one,
    so that the next turn dispatches on the following character; the
    validator never changes a depth nor throws at a backslash; and a
    non-empty expression without [{ } ( ) /], whatever backslashes it
    holds, is transformed into its anchored escaped text. Inside an optional
    and inside an alternative the backslash comes out as [\\] as well. *)
Theorem lone_backslash_is_literal (regex_error : string -> option string)
  (e : string) (pos : N) (result : string) :
  (pos < Str.length e ->
   Str.at_ e pos = Ok "\"%char ->
   (forall next, pos + 1 < Str.length e -> Str.at_ e (pos + 1) = Ok next ->
                 is_escapable next = false) ->
   parse_step e pos result = Ok (pos + 1, result ++ "\\")
   /\ forall fuel, parse_loop e (S fuel) pos result
                   = parse_loop e fuel (pos + 1) (result ++ "\\"))
  /\ (forall rest prev b p,
        validate_scan (String "\" rest) prev b p
        = validate_scan rest (Some "\"%char) b p)
  /\ (Str.empty e = false ->
      free_of "{}()/" e = true ->
      regex_error (anchor (escapeRegexChars e)) = None ->
      transform regex_error e = Ok (anchor (escapeRegexChars e)))
  /\ parse "(a\b)" = Ok "(?:a\\b)?"
  /\ parse "a/b\c" = Ok "(?:a|b\\c)"
  /\ parse "x/\" = Ok "(?:x|\\)".
Proof.
  split; [|split; [|split; [|repeat split]]].
  - intros Hlt Hat Hnext.
    assert (Hstep : parse_step e pos result = Ok (pos + 1, result ++ "\\")).
    { pose proof (at_inv _ _ _ Hlt Hat) as Hget.
      rewrite <- (N2Nat.id pos).
      rewrite (parse_step_literal e (N.to_nat pos) result "\"%char Hget);
        try discriminate; [reflexivity|].
      intros _ n Hn. apply (Hnext n).
      + pose proof (get_Some_lt _ _ _ Hn). unfold Str.length. lia.
      + replace (pos + 1) with (N.of_nat (S (N.to_nat pos))) by lia.
        now apply at_get. }
    split; [exact Hstep|].
    intros fuel. cbn [parse_loop].
    replace (Str.length e <=? pos) with false
      by (symmetry; apply N.leb_gt; exact Hlt).
    now rewrite Hstep.
  - intros rest prev b p. cbn [validate_scan].
    destruct (is_backslash prev); reflexivity.
  - apply transform_literal.
Qed.

Lemma lone_backslash_is_literal_witness :
  parse_step "a\" 1 "a" = Ok (2, "a\\")
  /\ transform accept_all "a\" = Ok "^a\\$"
  /\ transform accept_all "\a" = Ok "^\\a$".
Proof.
  split; [|split].
  - apply (proj1 (lone_backslash_is_literal accept_all "a\" 1 "a")).
    + reflexivity.
    + reflexivity.
    + intros next H. exfalso. revert H. vm_compute. discriminate.
  - apply (proj1 (proj2 (proj2
             (lone_backslash_is_literal accept_all "a\" 0 ""))));
      reflexivity.
  - apply (proj1 (proj2 (proj2
             (lone_backslash_is_literal accept_all "\a" 0 ""))));
      reflexivity.
Defined.

(** ** What leaves [transform] *)

Lemma validate_scan_throws (rest : string) :
  forall prev b p x,
    validate_scan rest prev b p = Throw x -> surfaces x = true.
Proof.
  induction rest as [|c rest IH]; intros prev b p x; cbn [validate_scan];
    [discriminate|].
  repeat match goal with
         | |- context [if ?t then _ else _] => destruct t
         end;
    try (intros H; inversion H; reflexivity);
    try discriminate;
    apply IH.
Qed.

Lemma validate_throws (e : string) (x : exn) :
  validate e = Throw x -> surfaces x = true.
Proof.
  unfold validate.
  destruct (validate_scan e None 0%Z 0%Z) as [[b p]| y | |] eqn:E;
    cbn [bind]; try discriminate.
  - destruct (negb (b =? 0)%Z); [intros H; inversion H; reflexivity|].
    destruct (negb (p =? 0)%Z); [intros H; inversion H; reflexivity|].
    discriminate.
  - intros H; inversion H; subst. eapply validate_scan_throws; eauto.
Qed.

(** Whatever [transform] throws is the empty-expression exception, one of
    the validator's, or the generic exception of its [catch] clause. *)
Lemma transform_throws (regex_error : string -> option string) (e : string)
  (x : exn) :
  transform regex_error e = Throw x -> surfaces x = true.
Proof.
  unfold transform.
  destruct (Str.empty e); [intros H; inversion H; reflexivity|].
  destruct (validate e) as [[]| y | |] eqn:E; cbn [bind]; try discriminate.
  - unfold try_catch.
    destruct (parse e) as [r| y | |]; cbn [bind]; try discriminate.
    + unfold validateRegex. destruct (regex_error (anchor r)); cbn [bind].
      * intros H; inversion H; reflexivity.
      * discriminate.
    + intros H; inversion H; reflexivity.
  - intros H; inversion H; subst. eapply validate_throws; eauto.
Qed.

Lemma surfaces_not_unknown (x : exn) :
  surfaces x = true -> is_UnknownParameterType x = false.
Proof. destruct x; simpl; congruence. Qed.

Lemma surfaces_not_empty_optional (x : exn) :
  surfaces x = true -> is_EmptyOptional x = false.
Proof. destruct x; simpl; congruence. Qed.

(** ** Properties: error kinds *)

(** C1. On ["{unknown}"] the parser throws
    [UnknownParameterTypeException("unknown")], but the [catch] clause of
    [transform] rethrows it as the generic base exception, which keeps the
    name only inside its message; no call of [transform] ever lets an
    [UnknownParameterTypeException] out. *)
Theorem unknown_parameter_type_is_rewrapped
  (regex_error : string -> option string) :
  validate "{unknown}" = Ok tt
  /\ parse "{unknown}" = Throw (UnknownParameterTypeException "unknown")
  /\ transform regex_error "{unknown}"
     = Throw (CucumberExpressionpressionException
                "Invalid Cucumber expression: Unknown parameter type: {unknown}")
  /\ forall e, match transform regex_error e with
               | Throw x => is_UnknownParameterType x = false
               | _ => True
               end.
Proof.
  repeat split.
  intros e. destruct (transform regex_error e) eqn:E; try exact I.
  apply surfaces_not_unknown. eapply transform_throws; eauto.
Qed.

(** C6. On ["()"] the parser throws the generic base exception, with the
    position in its message only, and [transform] rethrows it as the
    generic base exception again; no call of [transform] ever lets an
    [EmptyOptionalException] out. *)
Theorem empty_optional_is_generic_error
  (regex_error : string -> option string) :
  validate "()" = Ok tt
  /\ parse "()"
     = Throw (CucumberExpressionpressionException
                "Empty optional text is not allowed at position 0")
  /\ transform regex_error "()"
     = Throw (CucumberExpressionpressionException
                "Invalid Cucumber expression: Empty optional text is not allowed at position 0")
  /\ transform regex_error "three () mice"
     = Throw (CucumberExpressionpressionException
                "Invalid Cucumber expression: Empty optional text is not allowed at position 6")
  /\ forall e, match transform regex_error e with
               | Throw x => is_EmptyOptional x = false
               | _ => True
               end.
Proof.
  repeat split.
  intros e. destruct (transform regex_error e) eqn:E; try exact I.
  apply surfaces_not_empty_optional. eapply transform_throws; eauto.
Qed.

(** ** Properties: the registry *)

(** C2 (the code departs from it). Nothing reads custom definitions:
    [getParameterTypes] is the table of the eleven built-ins whatever
    configuration is supplied. So the lookup of ["color"] finds nothing,
    [parse] throws [UnknownParameterTypeException] on [{color}], and
    [transform] throws the generic exception on [{color}] and on
    [I have a {color} ball], the expression of the integration test
    [CustomColorType], where the claim has the fragment [red|blue] come
    back in a capturing group. *)
Theorem custom_color_is_not_found :
  map_find "color" getParameterTypes = None
  /\ parse "{color}" = Throw (UnknownParameterTypeException "color")
  /\ (forall regex_error,
        transform regex_error "{color}"
        = Throw (CucumberExpressionpressionException
                   "Invalid Cucumber expression: Unknown parameter type: {color}"))
  /\ (forall regex_error,
        transform regex_error "I have a {color} ball"
        = Throw (CucumberExpressionpressionException
                   "Invalid Cucumber expression: Unknown parameter type: {color}")).
Proof. repeat split. Qed.

(** ** Properties: alternation *)

(** C4. [transform("a/b c/d/e")] returns [^(?:a|b) (?:c|d|e)$]. At the
    first [/] the output holds [a]; the turn replaces it by [(?:a|b)]. At
    the second [/] the output holds [(?:a|b) c]; the turn cuts it back to
    [(?:a|b) ] and appends [(?:c|d|e)]. *)
Theorem transform_alternation_example
  (regex_error : string -> option string) :
  regex_error "^(?:a|b) (?:c|d|e)$" = None ->
  transform regex_error "a/b c/d/e" = Ok "^(?:a|b) (?:c|d|e)$"
  /\ collectAlternativesFromHere "a/b c/d/e" 0 = Ok (3, ["a"; "b"])
  /\ parse_step "a/b c/d/e" 1 "a" = Ok (3, "(?:a|b)")
  /\ collectAlternativesFromHere "a/b c/d/e" 4 = Ok (9, ["c"; "d"; "e"])
  /\ parse_step "a/b c/d/e" 5 "(?:a|b) c" = Ok (9, "(?:a|b) (?:c|d|e)")
  /\ parse "a/b c/d/e" = Ok "(?:a|b) (?:c|d|e)".
Proof.
  intros Hre. repeat split.
  unfold transform. cbn [Str.empty].
  replace (validate "a/b c/d/e") with (Ok tt) by reflexivity.
  replace (parse "a/b c/d/e") with (Ok "(?:a|b) (?:c|d|e)") by reflexivity.
  cbn [bind try_catch]. unfold validateRegex.
  replace (anchor "(?:a|b) (?:c|d|e)") with "^(?:a|b) (?:c|d|e)$"
    by reflexivity.
  now rewrite Hre.
Qed.

Lemma transform_alternation_example_witness :
  transform accept_all "a/b c/d/e" = Ok "^(?:a|b) (?:c|d|e)$".
Proof.
  exact (proj1 (transform_alternation_example accept_all eq_refl)).
Defined.

(** ** The validator, compositionally *)

Lemma last_char_cons (c : ascii) (s : string) :
  Str.last_char (String c s)
  = match Str.last_char s with Some d => Some d | None => Some c end.
Proof.
  destruct s as [|d s]; [reflexivity|].
  cbn [Str.last_char].
  revert d. induction s as [|x s IH]; intros d; [reflexivity|].
  cbn [Str.last_char] in *. now rewrite <- IH.
Qed.

Lemma last_or_cons (prev : option ascii) (c : ascii) (s : string) :
  last_or prev (String c s) = last_or (Some c) s.
Proof.
  unfold last_or. rewrite last_char_cons.
  now destruct (Str.last_char s).
Qed.

(** Scanning [pre ++ rest] is scanning [pre], then [rest] from the depths
    and the last character [pre] leaves behind. *)
Lemma validate_scan_app (pre rest : string) :
  forall prev b p,
    validate_scan (pre ++ rest) prev b p
    = ('(b', p') <- validate_scan pre prev b p ;;
       validate_scan rest (last_or prev pre) b' p').
Proof.
  induction pre as [|c pre IH]; intros prev b p; [reflexivity|].
  cbn [append validate_scan].
  repeat match goal with
         | |- context [if ?t then _ else _] => destruct t
         end;
    try reflexivity; rewrite IH, last_or_cons; reflexivity.
Qed.

Lemma transform_validate_throw (regex_error : string -> option string)
  (e : string) (x : exn) :
  Str.empty e = false -> validate e = Throw x ->
  transform regex_error e = Throw x.
Proof.
  intros Hne Hv. unfold transform. now rewrite Hne, Hv.
Qed.

Lemma empty_app_cons (pre : string) (c : ascii) (rest : string) :
  Str.empty (pre ++ String c rest) = false.
Proof. now destruct pre. Qed.

(** ** Properties: the validator's errors *)

(** C7. [transform] throws [UnclosedOptionalException] on ["test ("],
    [UnclosedParameterException] on ["{int"],
    [UnmatchedClosingBraceException] on ["}"] and
    [UnmatchedClosingParenthesisException] on [")"]. In general: a scan
    that ends with [braceDepth <> 0] throws [UnclosedParameterException];
    one that ends with [braceDepth = 0] and [parenDepth <> 0] throws
    [UnclosedOptionalException]; a counted [}] met at brace depth 0 throws
    [UnmatchedClosingBraceException] and a counted [)] met at parenthesis
    depth 0 throws [UnmatchedClosingParenthesisException]. *)
Theorem validator_error_mapping (regex_error : string -> option string) :
  transform regex_error "test ("
  = Throw (UnclosedOptionalException
             "Unclosed optional text: unmatched parentheses")
  /\ transform regex_error "{int"
     = Throw (UnclosedParameterException
                "Unclosed parameter type: unmatched braces")
  /\ transform regex_error "}" = Throw UnmatchedClosingBraceException
  /\ transform regex_error ")" = Throw UnmatchedClosingParenthesisException
  /\ (forall e b p,
        Str.empty e = false ->
        validate_scan e None 0%Z 0%Z = Ok (b, p) ->
        b <> 0%Z ->
        transform regex_error e
        = Throw (UnclosedParameterException
                   "Unclosed parameter type: unmatched braces"))
  /\ (forall e p,
        Str.empty e = false ->
        validate_scan e None 0%Z 0%Z = Ok (0%Z, p) ->
        p <> 0%Z ->
        transform regex_error e
        = Throw (UnclosedOptionalException
                   "Unclosed optional text: unmatched parentheses"))
  /\ (forall pre rest p,
        validate_scan pre None 0%Z 0%Z = Ok (0%Z, p) ->
        is_backslash (Str.last_char pre) = false ->
        transform regex_error (pre ++ String "}" rest)
        = Throw UnmatchedClosingBraceException)
  /\ (forall pre rest b,
        validate_scan pre None 0%Z 0%Z = Ok (b, 0%Z) ->
        is_backslash (Str.last_char pre) = false ->
        transform regex_error (pre ++ String ")" rest)
        = Throw UnmatchedClosingParenthesisException).
Proof.
  repeat split.
  - intros e b p Hne Hscan Hb. apply transform_validate_throw; [exact Hne|].
    unfold validate. rewrite Hscan. cbn [bind].
    apply Z.eqb_neq in Hb. now rewrite Hb.
  - intros e p Hne Hscan Hp. apply transform_validate_throw; [exact Hne|].
    unfold validate. rewrite Hscan. cbn [bind].
    apply Z.eqb_neq in Hp. now rewrite Hp.
  - intros pre rest p Hscan Hprev.
    apply transform_validate_throw; [apply empty_app_cons|].
    unfold validate. rewrite validate_scan_app, Hscan. cbn [bind].
    cbn [validate_scan].
    replace (is_backslash (last_or None pre)) with false; [reflexivity|].
    unfold last_or. now destruct (Str.last_char pre).
  - intros pre rest b Hscan Hprev.
    apply transform_validate_throw; [apply empty_app_cons|].
    unfold validate. rewrite validate_scan_app, Hscan. cbn [bind].
    cbn [validate_scan].
    replace (is_backslash (last_or None pre)) with false; [reflexivity|].
    unfold last_or. now destruct (Str.last_char pre).
Qed.

Lemma validator_error_mapping_witness :
  transform accept_all "a{b"
  = Throw (UnclosedParameterException
             "Unclosed parameter type: unmatched braces")
  /\ transform accept_all "a(b"
     = Throw (UnclosedOptionalException
                "Unclosed optional text: unmatched parentheses")
  /\ transform accept_all "(a}b" = Throw UnmatchedClosingBraceException
  /\ transform accept_all "{a)b" = Throw UnmatchedClosingParenthesisException.
Proof.
  pose proof (validator_error_mapping accept_all)
    as (_ & _ & _ & _ & Hbrace & Hparen & Hclose_brace & Hclose_paren).
  split; [|split; [|split]].
  - apply (Hbrace "a{b" 1%Z 0%Z); [reflexivity | reflexivity | discriminate].
  - apply (Hparen "a(b" 1%Z); [reflexivity | reflexivity | discriminate].
  - apply (Hclose_brace "(a" "b" 1%Z); reflexivity.
  - apply (Hclose_paren "{a" "b" 1%Z); reflexivity.
Defined.

(** ** Properties: reads of the expression *)

Lemma at_out_of_bounds (s : string) (i : N) :
  Str.length s < i -> Str.at_ s i = UB.
Proof.
  intros H. unfold Str.at_.
  replace (i <? Str.length s) with false by (symmetry; apply N.ltb_ge; lia).
  replace (i =? Str.length s) with false by (symmetry; apply N.eqb_neq; lia).
  reflexivity.
Qed.

(** C9. An expression that starts with [/] and passes the validator makes
    [parseAlternatives] run with [pos = 0]; [pos - 1] wraps to [SIZE_MAX]
    and [collectAlternativesFromHere] reads [expression[SIZE_MAX]], far
    outside the string. *)
Theorem leading_slash_reads_out_of_bounds
  (regex_error : string -> option string) (rest : string) :
  Str.length (String "/" rest) < SIZE_MAX ->
  validate (String "/" rest) = Ok tt ->
  size_sub 0 1 = SIZE_MAX
  /\ Str.at_ (String "/" rest) (size_sub 0 1) = UB
  /\ collectAlternativesFromHere (String "/" rest) (size_sub 0 1) = UB
  /\ parseAlternatives (String "/" rest) 0 "" = UB
  /\ parse_step (String "/" rest) 0 "" = UB
  /\ parse (String "/" rest) = UB
  /\ transform regex_error (String "/" rest) = UB.
Proof.
  intros Hlen Hval.
  assert (Hsub : size_sub 0 1 = SIZE_MAX) by reflexivity.
  assert (Hat : Str.at_ (String "/" rest) (size_sub 0 1) = UB).
  { rewrite Hsub. now apply at_out_of_bounds. }
  assert (Hcollect :
            collectAlternativesFromHere (String "/" rest) (size_sub 0 1) = UB).
  { unfold collectAlternativesFromHere. cbn [backtrack]. now rewrite Hat. }
  assert (Halt : parseAlternatives (String "/" rest) 0 "" = UB).
  { unfold parseAlternatives. cbn [scan_wordEnd N.ltb N.compare bind].
    now rewrite Hcollect. }
  assert (Hstep : parse_step (String "/" rest) 0 "" = UB).
  { unfold parse_step.
    replace (Str.at_ (String "/" rest) 0) with (Ok (A := ascii) "/"%char).
    - cbn [bind]. unfold escape_test.
      replace (("/" =? "\")%char) with false by reflexivity.
      cbn [andb bind].
      replace (("/" =? "{")%char) with false by reflexivity.
      replace (("/" =? "(")%char) with false by reflexivity.
      replace (("/" =? "/")%char) with true by reflexivity.
      exact Halt.
    - unfold Str.at_, Str.length. cbn [String.length].
      replace (0 <? N.of_nat (S (String.length rest))) with true
        by (symmetry; apply N.ltb_lt; lia).
      reflexivity. }
  assert (Hparse : parse (String "/" rest) = UB).
  { unfold parse. cbn [String.length parse_loop].
    replace (Str.length (String "/" rest) <=? 0) with false.
    - now rewrite Hstep.
    - symmetry. apply N.leb_gt. unfold Str.length. cbn [String.length]. lia. }
  repeat split; auto.
  unfold transform. cbn [Str.empty]. rewrite Hval. cbn [bind].
  now rewrite Hparse.
Qed.

Lemma leading_slash_reads_out_of_bounds_witness :
  Str.at_ "/a" (size_sub 0 1) = UB
  /\ parse "/a" = UB
  /\ transform accept_all "/a" = UB.
Proof.
  pose proof (leading_slash_reads_out_of_bounds accept_all "a"
                eq_refl eq_refl) as (_ & Hat & _ & _ & _ & Hparse & Htr).
  exact (conj Hat (conj Hparse Htr)).
Defined.

(** ** Which characters the validator counts *)

Lemma get_length_app (pre : string) :
  forall c rest,
    String.get (String.length pre) (String c (pre ++ rest))
    = Str.last_char (String c pre).
Proof.
  induction pre as [|d pre IH]; intros c rest; [reflexivity|].
  change (String.get (String.length pre) (String d (pre ++ rest))
          = Str.last_char (String d pre)).
  apply IH.
Qed.

Lemma preceded_by_backslash_app (pre rest : string) :
  preceded_by_backslash (pre ++ rest) (String.length pre)
  = is_backslash (Str.last_char pre).
Proof.
  destruct pre as [|c pre]; [reflexivity|].
  cbn [String.length append preceded_by_backslash].
  rewrite get_length_app. unfold is_backslash.
  now destruct (Str.last_char (String c pre)).
Qed.

Lemma last_or_None (pre : string) : last_or None pre = Str.last_char pre.
Proof. unfold last_or. now destruct (Str.last_char pre). Qed.

Lemma last_char_snoc (pre : string) (c : ascii) :
  Str.last_char (pre ++ Str.singleton c) = Some c.
Proof.
  induction pre as [|d pre IH]; [reflexivity|].
  cbn [append]. rewrite last_char_cons, IH. reflexivity.
Qed.

Lemma append_snoc (pre : string) (c : ascii) (rest : string) :
  (pre ++ Str.singleton c) ++ rest = pre ++ String c rest.
Proof. now rewrite append_assoc. Qed.

Lemma length_snoc (pre : string) (c : ascii) :
  String.length (pre ++ Str.singleton c) = S (String.length pre).
Proof. rewrite length_append. simpl. lia. Qed.

(** The scan of the validator is plain depth counting over the characters
    that are not directly behind a backslash. *)
Lemma validate_scan_tracked (rest : string) :
  forall pre b p,
    validate_scan rest (Str.last_char pre) b p
    = count_depths (tracked_from (pre ++ rest) (String.length pre) rest) b p.
Proof.
  induction rest as [|c rest IH]; intros pre b p; [reflexivity|].
  cbn [validate_scan tracked_from].
  rewrite preceded_by_backslash_app.
  specialize (IH (pre ++ Str.singleton c)).
  rewrite last_char_snoc, append_snoc, length_snoc in IH.
  destruct (is_backslash (Str.last_char pre)); cbn [app]; [apply IH|].
  cbn [count_depths].
  repeat match goal with
         | |- context [if ?t then _ else _] => destruct t
         end;
    try reflexivity; apply IH.
Qed.

(** C8 (as amended). The validator leaves a character out of the depth
    tracking exactly when the character directly in front of it is a
    backslash, whether or not that backslash is itself behind a backslash:
    its scan is plain depth counting over the characters that are not
    directly behind a backslash. In [a\\(] the parenthesis is therefore
    not counted, the validator accepts the expression and the parser
    emits [a\\\(]. *)
Theorem validator_skips_after_any_backslash (e : string) :
  validate_scan e None 0%Z 0%Z = count_depths (tracked e) 0%Z 0%Z
  /\ tracked "a\\(" = ["a"%char; "\"%char]
  /\ validate "a\\(" = Ok tt
  /\ parse "a\\(" = Ok "a\\\(".
Proof.
  split; [|repeat split].
  exact (validate_scan_tracked e "" 0%Z 0%Z).
Qed.

(** C8 as stated fails: in [a\\(] the parenthesis sits behind an escaped
    backslash, yet the scan ends with both depths at 0, the validator
    accepts and [transform] returns a pattern. *)
Lemma escaped_backslash_still_hides_parenthesis :
  validate_scan "a\\(" None 0%Z 0%Z = Ok (0%Z, 0%Z)
  /\ validate "a\\(" = Ok tt
  /\ transform accept_all "a\\(" = Ok "^a\\\($".
Proof. repeat split. Qed.

(** ** The shape of what the parser emits *)

Lemma head_char_app (a b : string) :
  head_char (a ++ b)
  = match head_char a with Some c => Some c | None => head_char b end.
Proof. now destruct a. Qed.

Lemma last_char_app (a b : string) :
  Str.last_char (a ++ b)
  = match Str.last_char b with
    | Some c => Some c
    | None => Str.last_char a
    end.
Proof.
  induction a as [|x a IH].
  - cbn [append]. now destruct (Str.last_char b).
  - cbn [append]. rewrite !last_char_cons, IH.
    now destruct (Str.last_char b), (Str.last_char a).
Qed.

Lemma last_char_None (s : string) : Str.last_char s = None -> s = "".
Proof.
  destruct s as [|c s]; [reflexivity|].
  rewrite last_char_cons. now destruct (Str.last_char s).
Qed.

Lemma ends_with_app (suffix a b : string) :
  ends_with suffix b -> ends_with suffix (a ++ b).
Proof.
  intros [front ->]. exists (a ++ front). now rewrite append_assoc.
Qed.

Lemma well_ended_app (a b : string) :
  head_char b <> None -> well_ended b -> well_ended (a ++ b).
Proof.
  intros Hb Hwell Hlast. rewrite last_char_app in Hlast.
  destruct (Str.last_char b) as [c|] eqn:E.
  - apply ends_with_app. apply Hwell. congruence.
  - apply last_char_None in E. subst b. now elim Hb.
Qed.

Lemma unanchored_app (r x : string) :
  unanchored r -> piece x -> unanchored (r ++ x).
Proof.
  intros [Hhead _] (Hne & Hx & Hwell). split.
  - rewrite head_char_app. destruct (head_char r); congruence.
  - now apply well_ended_app.
Qed.

Lemma well_ended_other (s : string) (c : ascii) :
  Str.last_char s = Some c -> c <> "$"%char -> well_ended s.
Proof. intros H Hc Hlast. congruence. Qed.

Lemma piece_escape_char (c : ascii) : piece (escape_char c).
Proof.
  unfold escape_char, is_regex_special, REGEX_SPECIAL.
  destruct (Str.contains ".^$|()[]{}*+?\" c) eqn:E.
  - repeat split; try discriminate.
    intros Hlast. cbn in Hlast. inversion Hlast; subst.
    now exists "".
  - repeat (apply contains_cons_false in E as [? E]).
    repeat split; cbn; try congruence.
    intros Hlast. cbn in Hlast. congruence.
Qed.

Lemma piece_group (opening body closing : string) (o c : ascii) :
  head_char opening = Some o -> o <> "^"%char ->
  Str.last_char closing = Some c -> c <> "$"%char ->
  piece (opening ++ body ++ closing).
Proof.
  intros Ho Hno Hc Hnc. repeat split.
  - rewrite head_char_app, Ho. discriminate.
  - rewrite head_char_app, Ho. congruence.
  - apply (well_ended_other _ c); [|exact Hnc].
    now rewrite !last_char_app, Hc.
Qed.

Lemma is_escapable_cases (c : ascii) :
  is_escapable c = true ->
  c = "("%char \/ c = ")"%char \/ c = "{"%char \/ c = "}"%char \/ c = "/"%char.
Proof.
  unfold is_escapable. rewrite !orb_true_iff, !Ascii.eqb_eq. tauto.
Qed.

Lemma escape_test_true (e : string) (pos : N) (current : ascii) :
  escape_test e pos current = Ok true ->
  exists next, Str.at_ e (pos + 1) = Ok next /\ is_escapable next = true.
Proof.
  unfold escape_test.
  destruct ((current =? "\")%char && (pos + 1 <? Str.length e));
    [|discriminate].
  destruct (Str.at_ e (pos + 1)) as [next| | |]; cbn [bind]; try discriminate.
  intros H. exists next. split; [reflexivity | congruence].
Qed.

Lemma parseEscaping_piece (e : string) (pos : N) (r : string) (next : ascii) :
  Str.at_ e (pos + 1) = Ok next -> is_escapable next = true ->
  exists x, parseEscaping e pos r = Ok (pos + 2, r ++ x) /\ piece x.
Proof.
  intros Hat Hesc. unfold parseEscaping. rewrite Hat. cbn [bind].
  assert (Hconcrete : forall x : string,
             (exists h, head_char x = Some h /\ h <> "^"%char) ->
             (exists l, Str.last_char x = Some l /\ l <> "$"%char) ->
             piece x).
  { intros x (h & Hh & Hhn) (l & Hl & Hln). repeat split.
    - rewrite Hh. discriminate.
    - rewrite Hh. congruence.
    - now apply (well_ended_other _ l). }
  destruct (is_escapable_cases _ Hesc) as [->|[->|[->|[->| ->]]]]; cbn.
  - exists "\(". rewrite append_assoc. split; [reflexivity|].
    apply Hconcrete; eexists; (split; [reflexivity | discriminate]).
  - exists "\)". rewrite append_assoc. split; [reflexivity|].
    apply Hconcrete; eexists; (split; [reflexivity | discriminate]).
  - exists "\{". rewrite append_assoc. split; [reflexivity|].
    apply Hconcrete; eexists; (split; [reflexivity | discriminate]).
  - exists "\}". rewrite append_assoc. split; [reflexivity|].
    apply Hconcrete; eexists; (split; [reflexivity | discriminate]).
  - exists "/". split; [reflexivity|].
    apply Hconcrete; eexists; (split; [reflexivity | discriminate]).
Qed.

Lemma parseOpenBrace_piece (e : string) (pos : N) (r : string)
  (pos' : N) (r' : string) :
  parseOpenBrace e pos r = Ok (pos', r') -> exists x, r' = r ++ x /\ piece x.
Proof.
  unfold parseOpenBrace.
  destruct (Str.find "}" e pos) as [closePos|]; [|discriminate].
  destruct (Str.substr e (pos + 1) (closePos - pos - 1)) as [name| | |];
    cbn [bind]; try discriminate.
  destruct (map_find name getParameterTypes) as [fragment|]; [|discriminate].
  intros H. inversion H; subst.
  exists ("(" ++ fragment ++ ")"). split; [reflexivity|].
  apply (piece_group "(" fragment ")" "("%char ")"%char);
    reflexivity || discriminate.
Qed.

Lemma parseOpenParenthesis_piece (e : string) (pos : N) (r : string)
  (pos' : N) (r' : string) :
  parseOpenParenthesis e pos r = Ok (pos', r') ->
  exists x, r' = r ++ x /\ piece x.
Proof.
  unfold parseOpenParenthesis.
  destruct (Str.find ")" e pos) as [closePos|]; [|discriminate].
  destruct (Str.substr e (pos + 1) (closePos - pos - 1)) as [content| | |];
    cbn [bind]; try discriminate.
  destruct (Str.empty content); [discriminate|].
  intros H. inversion H; subst.
  exists ("(?:" ++ escapeRegexChars content ++ ")?"). split; [reflexivity|].
  apply (piece_group "(?:" (escapeRegexChars content) ")?"
           "("%char "?"%char); reflexivity || discriminate.
Qed.

Lemma join_alternatives_extends (alternatives : list string) :
  forall first r joined,
    join_alternatives first alternatives r = Ok joined ->
    exists y, joined = r ++ y.
Proof.
  induction alternatives as [|a rest IH]; intros first r joined;
    cbn [join_alternatives].
  - intros H. inversion H. exists "". now rewrite append_nil_r.
  - destruct (parseAlternativeText a) as [text| | |]; cbn [bind];
      try discriminate.
    intros H. apply IH in H as [y ->].
    destruct first.
    + exists (text ++ y). now rewrite append_assoc.
    + exists ("|" ++ text ++ y). now rewrite !append_assoc.
Qed.

Lemma head_char_substring (n : nat) (r : string) :
  head_char (String.substring 0 n r) = None
  \/ head_char (String.substring 0 n r) = head_char r.
Proof. destruct n, r; cbn; auto. Qed.

Lemma group_unanchored (r truncated : string) (alternatives : list string)
  (joined : string) :
  unanchored r ->
  head_char truncated = None \/ head_char truncated = head_char r ->
  join_alternatives true alternatives (truncated ++ "(?:") = Ok joined ->
  unanchored (joined ++ ")").
Proof.
  intros [Hr _] Hhead Hjoin.
  apply join_alternatives_extends in Hjoin as [y ->]. split.
  - rewrite !head_char_app.
    destruct Hhead as [-> | ->]; [discriminate|].
    destruct (head_char r); [exact Hr | discriminate].
  - apply (well_ended_other _ ")"%char); [|discriminate].
    now rewrite last_char_app.
Qed.

Lemma parseAlternatives_unanchored (e : string) (pos : N) (r : string)
  (pos' : N) (r' : string) :
  parseAlternatives e pos r = Ok (pos', r') -> unanchored r -> unanchored r'.
Proof.
  unfold parseAlternatives. intros H Hr.
  destruct (scan_wordEnd pos r); cbn [bind] in H; try discriminate.
  destruct (collectAlternativesFromHere e (size_sub pos 1))
    as [[fwd alternatives]| | |]; cbn [bind] in H; try discriminate.
  destruct (1 <? List.length alternatives)%nat;
    [|inversion H; subst; exact Hr].
  destruct (Str.rfind " " r) as [lastSpace|].
  - unfold Str.substr in H. destruct (0 <=? Str.length r); [|discriminate].
    cbn [bind] in H.
    destruct (join_alternatives true alternatives _) as [joined| | |] eqn:E;
      cbn [bind] in H; try discriminate.
    inversion H; subst.
    eapply group_unanchored; [exact Hr | | exact E].
    apply head_char_substring.
  - cbn [bind] in H.
    destruct (join_alternatives true alternatives _) as [joined| | |] eqn:E;
      cbn [bind] in H; try discriminate.
    inversion H; subst.
    eapply group_unanchored; [exact Hr | | exact E].
    now left.
Qed.

Lemma parse_step_unanchored (e : string) (pos : N) (r : string)
  (pos' : N) (r' : string) :
  parse_step e pos r = Ok (pos', r') -> unanchored r -> unanchored r'.
Proof.
  unfold parse_step. intros H Hr.
  destruct (Str.at_ e pos) as [current| | |]; cbn [bind] in H;
    try discriminate.
  destruct (escape_test e pos current) as [[|]| | |] eqn:Etest;
    cbn [bind] in H; try discriminate.
  - apply escape_test_true in Etest as (next & Hat & Hesc).
    destruct (parseEscaping_piece e pos r next Hat Hesc) as (x & Hx & Hpiece).
    rewrite Hx in H. inversion H; subst. now apply unanchored_app.
  - destruct (current =? "{")%char.
    { apply parseOpenBrace_piece in H as (x & -> & Hpiece).
      now apply unanchored_app. }
    destruct (current =? "(")%char.
    { apply parseOpenParenthesis_piece in H as (x & -> & Hpiece).
      now apply unanchored_app. }
    destruct (current =? "/")%char.
    { eapply parseAlternatives_unanchored; eauto. }
    inversion H; subst. apply unanchored_app; [exact Hr|].
    apply piece_escape_char.
Qed.

Lemma parse_loop_unanchored (e : string) (fuel : nat) :
  forall pos r regex,
    parse_loop e fuel pos r = Ok regex -> unanchored r -> unanchored regex.
Proof.
  induction fuel as [|fuel IH]; intros pos r regex; cbn [parse_loop];
    destruct (Str.length e <=? pos).
  - intros H Hr. now inversion H; subst.
  - discriminate.
  - intros H Hr. now inversion H; subst.
  - destruct (parse_step e pos r) as [[pos' r']| | |] eqn:Estep;
      cbn [bind]; try discriminate.
    intros H Hr. eapply IH; [exact H|].
    eapply parse_step_unanchored; eauto.
Qed.

(** What [parse] returns neither opens with a caret nor ends with a
    dollar sign that has no backslash in front of it. *)
Lemma parse_unanchored (e regex : string) :
  parse e = Ok regex -> unanchored regex.
Proof.
  intros H. eapply parse_loop_unanchored; [exact H|].
  split; [discriminate|]. intros Hlast. discriminate Hlast.
Qed.

(** ** Properties: anchoring *)

Lemma anchor_free_from_app (x y : string) :
  forall st,
    anchor_free_from st x = true -> anchor_free y ->
    anchor_free_from st (x ++ y) = true.
Proof.
  induction x as [|c x IH]; intros st Hx Hy;
    cbn [append anchor_free_from] in *.
  - destruct st; try discriminate. exact Hy.
  - apply andb_true_iff in Hx as [Hc Hx]. rewrite Hc. cbn [andb].
    now apply IH.
Qed.

Lemma anchor_free_app (x y : string) :
  anchor_free x -> anchor_free y -> anchor_free (x ++ y).
Proof. intros Hx Hy. now apply anchor_free_from_app. Qed.

Lemma anchor_free_from_sound (s : string) :
  forall st i,
    anchor_free_from st s = true ->
    anchors_from st i s = [] /\ lex_end st s = Plain.
Proof.
  induction s as [|c s IH]; intros st i H;
    cbn [anchor_free_from anchors_from lex_end] in *.
  - destruct st; try discriminate. now split.
  - apply andb_true_iff in H as [Hc Hs].
    destruct (IH _ (S i) Hs) as [-> ->]. split; [|reflexivity].
    destruct st; cbn [is_plain andb] in *; try reflexivity.
    apply negb_true_iff in Hc. now rewrite Hc.
Qed.

Lemma anchors_from_app (x y : string) :
  forall st i,
    anchors_from st i (x ++ y)
    = (anchors_from st i x
       ++ anchors_from (lex_end st x) (i + String.length x) y)%list.
Proof.
  induction x as [|c x IH]; intros st i;
    cbn [append anchors_from lex_end String.length].
  - now rewrite Nat.add_0_r.
  - rewrite IH, <- app_assoc, Nat.add_succ_r. reflexivity.
Qed.

Lemma anchor_free_escape_char (c : ascii) : anchor_free (escape_char c).
Proof.
  unfold anchor_free, escape_char, is_regex_special, Str.singleton.
  destruct (Str.contains REGEX_SPECIAL c) eqn:E;
    cbn [anchor_free_from is_plain lex_step].
  - destruct (Ascii.eqb_spec c " ") as [->|_]; [discriminate E|].
    reflexivity.
  - unfold is_anchor.
    destruct (Ascii.eqb_spec c "^") as [->|_]; [discriminate E|].
    destruct (Ascii.eqb_spec c "$") as [->|_]; [discriminate E|].
    destruct (Ascii.eqb_spec c "\") as [->|_]; [discriminate E|].
    destruct (Ascii.eqb_spec c "[") as [->|_]; [discriminate E|].
    reflexivity.
Qed.

Lemma anchor_free_escapeRegexChars (text : string) :
  anchor_free (escapeRegexChars text).
Proof.
  induction text as [|c text IH]; cbn [escapeRegexChars]; [reflexivity|].
  apply anchor_free_app; [apply anchor_free_escape_char | exact IH].
Qed.

Lemma anchor_free_optional (content : string) :
  anchor_free ("(?:" ++ escapeRegexChars content ++ ")?").
Proof.
  apply (anchor_free_app "(?:"); [reflexivity|].
  apply anchor_free_app; [apply anchor_free_escapeRegexChars | reflexivity].
Qed.

(** Cutting behind a space keeps the invariant: a space is never the
    second half of an escape, nor inside a character class. *)
Lemma anchor_free_from_prefix (s : string) :
  forall st n,
    String.get n s = Some " "%char ->
    anchor_free_from st s = true ->
    anchor_free_from st (String.substring 0 (S n) s) = true.
Proof.
  induction s as [|c s IH]; intros st n Hget H; [discriminate Hget|].
  cbn [anchor_free_from] in H. apply andb_true_iff in H as [Hc Hs].
  destruct n as [|n].
  - cbn [String.get] in Hget. inversion Hget; subst c.
    cbn [String.substring].
    replace (String.substring 0 0 s) with EmptyString by now destruct s.
    destruct st; cbn in Hc; try discriminate. reflexivity.
  - cbn [String.get] in Hget.
    change (String.substring 0 (S (S n)) (String c s))
      with (String c (String.substring 0 (S n) s)).
    cbn [anchor_free_from]. rewrite Hc. cbn [andb]. now apply IH.
Qed.

Lemma rfind_aux_get (c : ascii) (s : string) :
  forall idx acc i,
    Str.rfind_aux c s idx acc = Some i ->
    acc = Some i
    \/ (idx <= i /\ String.get (N.to_nat (i - idx)) s = Some c).
Proof.
  induction s as [|a s IH]; intros idx acc i; cbn [Str.rfind_aux].
  - now left.
  - intros H. apply IH in H as [H | [Hle Hget]].
    + destruct (Ascii.eqb_spec a c) as [->|_]; [|now left].
      inversion H; subst. right. split; [lia|].
      now rewrite N.sub_diag.
    + right. split; [lia|].
      replace (N.to_nat (i - idx)) with (S (N.to_nat (i - N.succ idx)))
        by lia.
      exact Hget.
Qed.

Lemma rfind_get (c : ascii) (s : string) (i : N) :
  Str.rfind c s = Some i -> String.get (N.to_nat i) s = Some c.
Proof.
  unfold Str.rfind. intros H.
  apply rfind_aux_get in H as [H | [_ H]]; [discriminate H|].
  now rewrite N.sub_0_r in H.
Qed.

(** Every fragment of the registry, in its capturing group, reads as a
    closed piece without anchors. *)
Lemma registry_fragment_anchor_free (name fragment : string) :
  map_find name getParameterTypes = Some fragment ->
  anchor_free ("(" ++ fragment ++ ")").
Proof.
  unfold getParameterTypes. cbn [map_find].
  repeat (destruct (String.eqb _ name);
          [intros H; inversion H; reflexivity|]).
  discriminate.
Qed.

Lemma parseEscaping_anchor_free (e : string) (pos : N) (r : string)
  (next : ascii) :
  Str.at_ e (pos + 1) = Ok next -> is_escapable next = true ->
  exists x, parseEscaping e pos r = Ok (pos + 2, r ++ x) /\ anchor_free x.
Proof.
  intros Hat Hesc. unfold parseEscaping. rewrite Hat. cbn [bind].
  destruct (is_escapable_cases _ Hesc) as [->|[->|[->|[->| ->]]]]; cbn.
  - exists "\(". rewrite append_assoc. now split.
  - exists "\)". rewrite append_assoc. now split.
  - exists "\{". rewrite append_assoc. now split.
  - exists "\}". rewrite append_assoc. now split.
  - exists "/". now split.
Qed.

Lemma parseOpenBrace_anchor_free (e : string) (pos : N) (r : string)
  (pos' : N) (r' : string) :
  parseOpenBrace e pos r = Ok (pos', r') -> anchor_free r -> anchor_free r'.
Proof.
  unfold parseOpenBrace.
  destruct (Str.find "}" e pos) as [closePos|]; [|discriminate].
  destruct (Str.substr e (pos + 1) (closePos - pos - 1)) as [name| | |];
    cbn [bind]; try discriminate.
  destruct (map_find name getParameterTypes) as [fragment|] eqn:E;
    [|discriminate].
  intros H Hr. inversion H; subst.
  apply anchor_free_app; [exact Hr|].
  now apply (registry_fragment_anchor_free name).
Qed.

Lemma parseOpenParenthesis_anchor_free (e : string) (pos : N) (r : string)
  (pos' : N) (r' : string) :
  parseOpenParenthesis e pos r = Ok (pos', r') ->
  anchor_free r -> anchor_free r'.
Proof.
  unfold parseOpenParenthesis.
  destruct (Str.find ")" e pos) as [closePos|]; [|discriminate].
  destruct (Str.substr e (pos + 1) (closePos - pos - 1)) as [content| | |];
    cbn [bind]; try discriminate.
  destruct (Str.empty content); [discriminate|].
  intros H Hr. inversion H; subst.
  apply anchor_free_app; [exact Hr | apply anchor_free_optional].
Qed.

Lemma parseAlternativeText_loop_anchor_free (text : string) (fuel : nat) :
  forall i result out,
    parseAlternativeText_loop fuel text i result = Ok out ->
    anchor_free result -> anchor_free out.
Proof.
  induction fuel as [|fuel IH]; intros i result out;
    cbn [parseAlternativeText_loop]; destruct (Str.length text <=? i);
    try discriminate; try (intros H Hr; inversion H; subst; exact Hr).
  destruct (Str.at_ text i) as [c| | |]; cbn [bind]; try discriminate.
  assert (Hliteral :
    parseAlternativeText_loop fuel text (i + 1) (result ++ escape_char c)
    = Ok out -> anchor_free result -> anchor_free out).
  { intros H Hr. apply (IH _ _ _ H).
    apply anchor_free_app; [exact Hr | apply anchor_free_escape_char]. }
  destruct (c =? "(")%char; [|exact Hliteral].
  destruct (Str.find ")" text i) as [closePos|]; [|exact Hliteral].
  destruct (Str.substr text (i + 1) (closePos - i - 1)) as [content| | |];
    cbn [bind]; try discriminate.
  destruct (Str.empty content); [discriminate|].
  intros H Hr. apply (IH _ _ _ H).
  apply anchor_free_app; [exact Hr | apply anchor_free_optional].
Qed.

Lemma join_alternatives_anchor_free (alternatives : list string) :
  forall first r joined,
    join_alternatives first alternatives r = Ok joined ->
    anchor_free r -> anchor_free joined.
Proof.
  induction alternatives as [|a rest IH]; intros first r joined;
    cbn [join_alternatives].
  - intros H Hr. now inversion H; subst.
  - destruct (parseAlternativeText a) as [text| | |] eqn:E; cbn [bind];
      try discriminate.
    intros H Hr. apply (IH _ _ _ H).
    apply anchor_free_app.
    + destruct first; [exact Hr|]. now apply anchor_free_app.
    + eapply parseAlternativeText_loop_anchor_free; [exact E | reflexivity].
Qed.

Lemma parseAlternatives_anchor_free (e : string) (pos : N) (r : string)
  (pos' : N) (r' : string) :
  parseAlternatives e pos r = Ok (pos', r') ->
  anchor_free r -> anchor_free r'.
Proof.
  unfold parseAlternatives. intros H Hr.
  destruct (scan_wordEnd pos r); cbn [bind] in H; try discriminate.
  destruct (collectAlternativesFromHere e (size_sub pos 1))
    as [[fwd alternatives]| | |]; cbn [bind] in H; try discriminate.
  destruct (1 <? List.length alternatives)%nat;
    [|inversion H; subst; exact Hr].
  assert (Hgroup : forall truncated joined,
    anchor_free truncated ->
    join_alternatives true alternatives (truncated ++ "(?:") = Ok joined ->
    anchor_free (joined ++ ")")).
  { intros truncated joined Ht Hj.
    apply anchor_free_app; [|reflexivity].
    apply (join_alternatives_anchor_free _ _ _ _ Hj).
    now apply anchor_free_app. }
  destruct (Str.rfind " " r) as [lastSpace|] eqn:Efind.
  - unfold Str.substr in H. destruct (0 <=? Str.length r); [|discriminate].
    cbn [bind] in H.
    destruct (join_alternatives true alternatives _) as [joined| | |] eqn:E;
      cbn [bind] in H; try discriminate.
    inversion H; subst.
    refine (Hgroup _ _ _ E).
    apply rfind_get in Efind.
    replace (N.to_nat (lastSpace + 1)) with (S (N.to_nat lastSpace)) by lia.
    now apply anchor_free_from_prefix.
  - cbn [bind] in H.
    destruct (join_alternatives true alternatives _) as [joined| | |] eqn:E;
      cbn [bind] in H; try discriminate.
    inversion H; subst.
    exact (Hgroup "" _ eq_refl E).
Qed.

Lemma parse_step_anchor_free (e : string) (pos : N) (r : string)
  (pos' : N) (r' : string) :
  parse_step e pos r = Ok (pos', r') -> anchor_free r -> anchor_free r'.
Proof.
  unfold parse_step. intros H Hr.
  destruct (Str.at_ e pos) as [current| | |]; cbn [bind] in H;
    try discriminate.
  destruct (escape_test e pos current) as [[|]| | |] eqn:Etest;
    cbn [bind] in H; try discriminate.
  - apply escape_test_true in Etest as (next & Hat & Hesc).
    destruct (parseEscaping_anchor_free e pos r next Hat Hesc)
      as (x & Hx & Hfree).
    rewrite Hx in H. inversion H; subst. now apply anchor_free_app.
  - destruct (current =? "{")%char.
    { eapply parseOpenBrace_anchor_free; eauto. }
    destruct (current =? "(")%char.
    { eapply parseOpenParenthesis_anchor_free; eauto. }
    destruct (current =? "/")%char.
    { eapply parseAlternatives_anchor_free; eauto. }
    inversion H; subst.
    apply anchor_free_app; [exact Hr | apply anchor_free_escape_char].
Qed.

Lemma parse_loop_anchor_free (e : string) (fuel : nat) :
  forall pos r regex,
    parse_loop e fuel pos r = Ok regex -> anchor_free r -> anchor_free regex.
Proof.
  induction fuel as [|fuel IH]; intros pos r regex; cbn [parse_loop];
    destruct (Str.length e <=? pos).
  - intros H Hr. now inversion H; subst.
  - discriminate.
  - intros H Hr. now inversion H; subst.
  - destruct (parse_step e pos r) as [[pos' r']| | |] eqn:Estep;
      cbn [bind]; try discriminate.
    intros H Hr. eapply IH; [exact H|].
    eapply parse_step_anchor_free; eauto.
Qed.

(** What [parse] returns holds no anchor: every [^] and [$] in it is
    escaped or inside a character class of a registry fragment. *)
Lemma parse_anchor_free (e regex : string) :
  parse e = Ok regex -> anchor_free regex.
Proof.
  intros H. eapply parse_loop_anchor_free; [exact H | reflexivity].
Qed.

Lemma anchors_anchor (regex : string) :
  anchor_free regex ->
  anchors (anchor regex)
  = [(0%nat, "^"%char); (S (String.length regex), "$"%char)].
Proof.
  intros H. unfold anchors, anchor.
  change ("^" ++ regex ++ "$") with (String "^" (regex ++ "$")).
  cbn [anchors_from is_plain is_anchor lex_step Ascii.eqb Bool.eqb andb orb app].
  rewrite anchors_from_app.
  destruct (anchor_free_from_sound regex Plain 1 H) as [-> ->].
  reflexivity.
Qed.

(** C3. When the validator accepts an expression and [transform] returns a
    string, that string is [^], then what the parser produced, then [$]:
    it starts with [^] and ends with [$]. Each anchor is there exactly
    once: read the way a regex engine reads a pattern, the [^] and [$] of
    the string that stand as anchors are its first and its last character
    and no other; every [^] or [$] of the parser's output is escaped by a
    backslash or inside a character class of a registry fragment. *)
Theorem transform_anchors_once (regex_error : string -> option string)
  (e s : string) :
  validate e = Ok tt ->
  transform regex_error e = Ok s ->
  exists regex,
    parse e = Ok regex
    /\ s = "^" ++ regex ++ "$"
    /\ head_char s = Some "^"%char
    /\ Str.last_char s = Some "$"%char
    /\ head_char regex <> Some "^"%char
    /\ (Str.last_char regex = Some "$"%char -> ends_with "\$" regex)
    /\ anchors regex = []
    /\ anchors s
       = [(0%nat, "^"%char); ((String.length s - 1)%nat, "$"%char)].
Proof.
  intros Hval Htr. unfold transform in Htr.
  destruct (Str.empty e); [discriminate|].
  rewrite Hval in Htr. cbn [bind] in Htr. unfold try_catch in Htr.
  destruct (parse e) as [regex| | |] eqn:Eparse; cbn [bind] in Htr;
    try discriminate.
  unfold validateRegex in Htr.
  destruct (regex_error (anchor regex)); cbn [bind] in Htr;
    try discriminate.
  inversion Htr; subst s. exists regex.
  destruct (parse_unanchored _ _ Eparse) as [Hhead Hwell].
  pose proof (parse_anchor_free _ _ Eparse) as Hfree.
  repeat split; auto.
  - unfold anchor.
    change ("^" ++ regex ++ "$") with (String "^" (regex ++ "$")).
    rewrite last_char_cons, last_char_app. reflexivity.
  - now destruct (anchor_free_from_sound regex Plain 0 Hfree).
  - rewrite (anchors_anchor regex Hfree). unfold anchor.
    change ("^" ++ regex ++ "$") with (String "^" (regex ++ "$")).
    cbn [String.length]. rewrite length_append. cbn [String.length].
    repeat f_equal. lia.
Qed.

Lemma transform_anchors_once_witness :
  exists regex,
    parse "{word} costs 5$" = Ok regex
    /\ "^([^\s]+) costs 5\$$" = "^" ++ regex ++ "$"
    /\ head_char "^([^\s]+) costs 5\$$" = Some "^"%char
    /\ Str.last_char "^([^\s]+) costs 5\$$" = Some "$"%char
    /\ head_char regex <> Some "^"%char
    /\ (Str.last_char regex = Some "$"%char -> ends_with "\$" regex)
    /\ anchors regex = []
    /\ anchors "^([^\s]+) costs 5\$$"
       = [(0%nat, "^"%char); (19%nat, "$"%char)].
Proof.
  exact (transform_anchors_once accept_all "{word} costs 5$"
           "^([^\s]+) costs 5\$$" eq_refl eq_refl).
Defined.

(** ** The fuel is enough *)

Lemma terminates_bind {A B : Type} (m : outcome A) (k : A -> outcome B) :
  terminates m -> (forall a, m = Ok a -> terminates (k a)) ->
  terminates (bind m k).
Proof.
  unfold terminates. destruct m; cbn [bind]; intros Hm Hk;
    try discriminate; auto.
Qed.

Lemma at_terminates (s : string) (i : N) : terminates (Str.at_ s i).
Proof.
  unfold terminates, Str.at_.
  destruct (i <? Str.length s);
    [destruct (String.get (N.to_nat i) s) | destruct (i =? Str.length s)];
    discriminate.
Qed.

Lemma substr_terminates (s : string) (pos n : N) :
  terminates (Str.substr s pos n).
Proof.
  unfold terminates, Str.substr. destruct (pos <=? Str.length s); discriminate.
Qed.

Lemma at_Ok_le (s : string) (i : N) (c : ascii) :
  Str.at_ s i = Ok c -> i <= Str.length s.
Proof.
  unfold Str.at_. destruct (i <? Str.length s) eqn:E.
  - apply N.ltb_lt in E. lia.
  - destruct (i =? Str.length s) eqn:E'; [|discriminate].
    apply N.eqb_eq in E'. lia.
Qed.

Lemma find_aux_bounds (c : ascii) (s : string) :
  forall idx pos k,
    Str.find_aux c s idx pos = Some k ->
    pos <= k /\ idx <= k /\ k < idx + Str.length s.
Proof.
  unfold Str.length.
  induction s as [|a s IH]; intros idx pos k; cbn [Str.find_aux String.length];
    [discriminate|].
  destruct ((pos <=? idx) && (a =? c)%char) eqn:E.
  - intros H. inversion H; subst. apply andb_true_iff in E as [E _].
    apply N.leb_le in E. lia.
  - intros H. apply IH in H. lia.
Qed.

Lemma find_bounds (c : ascii) (s : string) (pos k : N) :
  Str.find c s pos = Some k -> pos <= k /\ k < Str.length s.
Proof.
  intros H. apply find_aux_bounds in H. lia.
Qed.

Lemma parseAlternativeText_loop_terminates (text : string) (fuel : nat) :
  forall i r,
    Str.length text <= i + N.of_nat fuel ->
    terminates (parseAlternativeText_loop fuel text i r).
Proof.
  induction fuel as [|fuel IH]; intros i r Hfuel;
    cbn [parseAlternativeText_loop];
    destruct (Str.length text <=? i) eqn:Hend; try discriminate.
  - apply N.leb_gt in Hend. lia.
  - apply N.leb_gt in Hend.
    apply terminates_bind; [apply at_terminates|]. intros c _.
    assert (Hlit : forall r', terminates
                     (parseAlternativeText_loop fuel text (i + 1) r'))
      by (intros r'; apply IH; lia).
    destruct (c =? "(")%char; [|apply Hlit].
    destruct (Str.find ")" text i) as [closePos|] eqn:Efind; [|apply Hlit].
    apply find_bounds in Efind.
    apply terminates_bind; [apply substr_terminates|]. intros content _.
    destruct (Str.empty content); [discriminate|].
    apply IH. lia.
Qed.

Lemma parseAlternativeText_terminates (text : string) :
  terminates (parseAlternativeText text).
Proof.
  apply parseAlternativeText_loop_terminates. unfold Str.length. lia.
Qed.

Lemma join_alternatives_terminates (alternatives : list string) :
  forall first r, terminates (join_alternatives first alternatives r).
Proof.
  induction alternatives as [|a rest IH]; intros first r;
    cbn [join_alternatives]; [discriminate|].
  apply terminates_bind; [apply parseAlternativeText_terminates|].
  intros text _. apply IH.
Qed.

Lemma backtrack_parenthesis_le (e : string) (fuel : nat) :
  forall i depth current i' current',
    backtrack_parenthesis e fuel i depth current = Ok (i', current') ->
    i' <= i.
Proof.
  induction fuel as [|fuel IH]; intros i depth current i' current';
    cbn [backtrack_parenthesis]; destruct (depth <=? 0)%Z;
    try discriminate; try (intros H; inversion H; lia).
  destruct (Str.at_ e i) as [pc| | |]; cbn [bind]; try discriminate.
  destruct ((pc =? ")")%char && (depth =? INT_MAX)%Z); [discriminate|].
  destruct (i =? 0) eqn:E; [intros H; inversion H; lia|].
  intros H. apply IH in H. lia.
Qed.

Lemma backtrack_parenthesis_terminates (e : string) (fuel : nat) :
  forall i depth current,
    i < N.of_nat fuel ->
    terminates (backtrack_parenthesis e fuel i depth current).
Proof.
  induction fuel as [|fuel IH]; intros i depth current Hfuel; [lia|].
  cbn [backtrack_parenthesis]. destruct (depth <=? 0)%Z; [discriminate|].
  apply terminates_bind; [apply at_terminates|]. intros pc _.
  destruct ((pc =? ")")%char && (depth =? INT_MAX)%Z); [discriminate|].
  destruct (i =? 0) eqn:E; [discriminate|].
  apply N.eqb_neq in E. apply IH. lia.
Qed.

Lemma backtrack_terminates (e : string) (inner : nat) (fuel : nat) :
  forall i current,
    i < N.of_nat fuel -> i <= N.of_nat inner ->
    terminates (backtrack e fuel inner i current).
Proof.
  induction fuel as [|fuel IH]; intros i current Hfuel Hinner; [lia|].
  cbn [backtrack].
  apply terminates_bind; [apply at_terminates|]. intros c _.
  destruct ((c =? " ")%char || (c =? "{")%char); [discriminate|].
  destruct (c =? ")")%char.
  - destruct (i =? 0) eqn:E; [discriminate|]. apply N.eqb_neq in E.
    apply terminates_bind.
    + apply backtrack_parenthesis_terminates. lia.
    + intros [i' current'] H. apply backtrack_parenthesis_le in H.
      apply IH; lia.
  - destruct (c =? "(")%char; [discriminate|].
    destruct (i =? 0) eqn:E; [discriminate|]. apply N.eqb_neq in E.
    apply IH; lia.
Qed.

Lemma backtrack_from_anywhere (e : string) (i : N) (current : string) :
  terminates
    (backtrack e (S (S (String.length e))) (S (String.length e)) i current).
Proof.
  destruct (Str.at_ e i) as [c| | |] eqn:E.
  - apply at_Ok_le in E. unfold Str.length in E.
    apply backtrack_terminates; lia.
  - pose proof (at_terminates e i) as H. rewrite E in H.
    cbn [backtrack]. now rewrite E.
  - cbn [backtrack]. rewrite E. discriminate.
  - now pose proof (at_terminates e i E).
Qed.

Lemma collect_forward_terminates (e : string) (fuel : nat) :
  forall fwdPos current alternatives,
    Str.length e <= fwdPos + N.of_nat fuel ->
    terminates (collect_forward e fuel fwdPos current alternatives).
Proof.
  induction fuel as [|fuel IH]; intros fwdPos current alternatives Hfuel;
    cbn [collect_forward];
    destruct (Str.length e <=? fwdPos) eqn:Hend; try discriminate.
  - apply N.leb_gt in Hend. lia.
  - apply N.leb_gt in Hend.
    apply terminates_bind; [apply at_terminates|]. intros c _.
    destruct ((c =? " ")%char || (c =? "{")%char); [discriminate|].
    destruct ((c =? "(")%char && Str.empty current); [discriminate|].
    destruct (c =? "(")%char.
    + destruct (Str.find ")" e fwdPos) as [parenEnd|] eqn:Efind.
      * apply find_bounds in Efind.
        apply terminates_bind; [apply substr_terminates|]. intros copied _.
        apply IH. lia.
      * apply IH. lia.
    + apply terminates_bind.
      * destruct ((c =? "\")%char && (fwdPos + 1 <? Str.length e));
          [|discriminate].
        apply terminates_bind; [apply at_terminates|]. discriminate.
      * intros [|] _; [apply IH; lia|].
        destruct (c =? "/")%char; apply IH; lia.
Qed.

Lemma collect_forward_le (e : string) (fuel : nat) :
  forall fwdPos current alternatives fwdPos' alternatives',
    collect_forward e fuel fwdPos current alternatives
    = Ok (fwdPos', alternatives') ->
    fwdPos <= fwdPos'.
Proof.
  induction fuel as [|fuel IH];
    intros fwdPos current alternatives fwdPos' alternatives';
    cbn [collect_forward];
    destruct (Str.length e <=? fwdPos) eqn:Hend;
    try discriminate; try (intros H; inversion H; lia).
  destruct (Str.at_ e fwdPos) as [c| | |]; cbn [bind]; try discriminate.
  destruct ((c =? " ")%char || (c =? "{")%char);
    [intros H; inversion H; lia|].
  destruct ((c =? "(")%char && Str.empty current);
    [intros H; inversion H; lia|].
  destruct (c =? "(")%char.
  - destruct (Str.find ")" e fwdPos) as [parenEnd|] eqn:Efind.
    + apply find_bounds in Efind.
      destruct (Str.substr e fwdPos (parenEnd - fwdPos + 1));
        cbn [bind]; try discriminate.
      intros H. apply IH in H. lia.
    + intros H. apply IH in H. lia.
  - destruct ((c =? "\")%char && (fwdPos + 1 <? Str.length e)).
    + destruct (Str.at_ e (fwdPos + 1)) as [next| | |]; cbn [bind];
        try discriminate.
      destruct (next =? "/")%char.
      * intros H. apply IH in H. lia.
      * destruct (c =? "/")%char; intros H; apply IH in H; lia.
    + cbn [bind]. destruct (c =? "/")%char; intros H; apply IH in H; lia.
Qed.

(** The forward scan that [parseAlternatives] starts on a [/] moves past
    that [/]. *)
Lemma collect_forward_slash (e : string) (fuel : nat) (pos : N)
  (alternatives : list string) (fwdPos' : N) (alternatives' : list string) :
  pos < Str.length e ->
  Str.at_ e pos = Ok "/"%char ->
  collect_forward e fuel pos "" alternatives = Ok (fwdPos', alternatives') ->
  pos < fwdPos'.
Proof.
  intros Hlt Hat. destruct fuel as [|fuel]; cbn [collect_forward];
    replace (Str.length e <=? pos) with false
      by (symmetry; apply N.leb_gt; exact Hlt);
    [discriminate|].
  rewrite Hat. cbn [bind].
  replace (("/" =? " ")%char || ("/" =? "{")%char) with false by reflexivity.
  replace (("/" =? "(")%char) with false by reflexivity.
  replace (("/" =? "\")%char) with false by reflexivity.
  replace (("/" =? "/")%char) with true by reflexivity.
  cbn [andb bind]. intros H. apply collect_forward_le in H. lia.
Qed.

Lemma size_round_trip (pos : N) :
  pos < 2 ^ 64 -> size_add (size_sub pos 1) 1 = pos.
Proof.
  intros H. unfold size_add, size_sub.
  destruct (N.eq_dec pos 0) as [->|Hpos]; [reflexivity|].
  replace (pos + 2 ^ 64 - 1) with ((pos - 1) + 1 * 2 ^ 64) by lia.
  rewrite N.Div0.mod_add, (N.mod_small (pos - 1)) by lia.
  rewrite N.mod_small; lia.
Qed.

Lemma collectAlternativesFromHere_terminates (e : string) (startPos : N) :
  terminates (collectAlternativesFromHere e startPos).
Proof.
  unfold collectAlternativesFromHere.
  apply terminates_bind; [apply backtrack_from_anywhere|]. intros current _.
  apply collect_forward_terminates. unfold Str.length. lia.
Qed.

Lemma parseAlternatives_terminates (e : string) (pos : N) (r : string) :
  terminates (parseAlternatives e pos r).
Proof.
  unfold parseAlternatives.
  apply terminates_bind.
  { unfold scan_wordEnd, Str.back. destruct (0 <? pos); [|discriminate].
    destruct (Str.last_char r); cbn [bind]; [|discriminate].
    match goal with |- terminates (if ?t then _ else _) => destruct t end;
      discriminate. }
  intros _ _.
  apply terminates_bind; [apply collectAlternativesFromHere_terminates|].
  intros [pos' alternatives] _.
  destruct (1 <? List.length alternatives)%nat; [|discriminate].
  apply terminates_bind.
  { destruct (Str.rfind " " r); [apply substr_terminates | discriminate]. }
  intros truncated _.
  apply terminates_bind; [apply join_alternatives_terminates|]. discriminate.
Qed.

Lemma parseAlternatives_advances (e : string) (pos : N) (r : string)
  (pos' : N) (r' : string) :
  Str.length e < 2 ^ 64 -> pos < Str.length e ->
  Str.at_ e pos = Ok "/"%char ->
  parseAlternatives e pos r = Ok (pos', r') -> pos < pos'.
Proof.
  intros Hsize Hlt Hat. unfold parseAlternatives, collectAlternativesFromHere.
  destruct (scan_wordEnd pos r); cbn [bind]; try discriminate.
  destruct (backtrack e _ _ (size_sub pos 1) ""); cbn [bind];
    try discriminate.
  rewrite size_round_trip by lia.
  destruct (collect_forward e _ pos "" _) as [[fwd alternatives]| | |] eqn:E;
    cbn [bind]; try discriminate.
  apply (collect_forward_slash _ _ _ _ _ _ Hlt Hat) in E.
  destruct (1 <? List.length alternatives)%nat.
  - destruct (match Str.rfind " " r with
              | Some lastSpace => Str.substr r 0 (lastSpace + 1)
              | None => Ok ""
              end); cbn [bind]; try discriminate.
    destruct (join_alternatives true alternatives _); cbn [bind];
      try discriminate.
    intros H. inversion H; subst. exact E.
  - intros H. inversion H; subst. exact E.
Qed.

Lemma parse_step_terminates (e : string) (pos : N) (r : string) :
  terminates (parse_step e pos r).
Proof.
  unfold parse_step.
  apply terminates_bind; [apply at_terminates|]. intros current _.
  apply terminates_bind.
  { unfold escape_test.
    destruct ((current =? "\")%char && (pos + 1 <? Str.length e));
      [|discriminate].
    apply terminates_bind; [apply at_terminates|]. discriminate. }
  intros [|] _.
  - unfold parseEscaping.
    apply terminates_bind; [apply at_terminates|]. discriminate.
  - destruct (current =? "{")%char.
    { unfold parseOpenBrace. destruct (Str.find "}" e pos); [|discriminate].
      apply terminates_bind; [apply substr_terminates|]. intros name _.
      destruct (map_find name getParameterTypes); discriminate. }
    destruct (current =? "(")%char.
    { unfold parseOpenParenthesis.
      destruct (Str.find ")" e pos); [|discriminate].
      apply terminates_bind; [apply substr_terminates|]. intros content _.
      destruct (Str.empty content); discriminate. }
    destruct (current =? "/")%char; [|discriminate].
    apply parseAlternatives_terminates.
Qed.

Lemma parse_step_advances (e : string) (pos : N) (r : string)
  (pos' : N) (r' : string) :
  Str.length e < 2 ^ 64 -> pos < Str.length e ->
  parse_step e pos r = Ok (pos', r') -> pos < pos'.
Proof.
  intros Hsize Hlt. unfold parse_step.
  destruct (Str.at_ e pos) as [current| | |] eqn:Hat; cbn [bind];
    try discriminate.
  destruct (escape_test e pos current) as [[|]| | |]; cbn [bind];
    try discriminate.
  - unfold parseEscaping.
    destruct (Str.at_ e (pos + 1)); cbn [bind]; try discriminate.
    intros H. inversion H. lia.
  - destruct (current =? "{")%char.
    { unfold parseOpenBrace.
      destruct (Str.find "}" e pos) as [closePos|] eqn:Efind; [|discriminate].
      apply find_bounds in Efind.
      destruct (Str.substr e (pos + 1) (closePos - pos - 1)) as [name| | |];
        cbn [bind]; try discriminate.
      destruct (map_find name getParameterTypes); [|discriminate].
      intros H. inversion H. lia. }
    destruct (current =? "(")%char.
    { unfold parseOpenParenthesis.
      destruct (Str.find ")" e pos) as [closePos|] eqn:Efind; [|discriminate].
      apply find_bounds in Efind.
      destruct (Str.substr e (pos + 1) (closePos - pos - 1)) as [content| | |];
        cbn [bind]; try discriminate.
      destruct (Str.empty content); [discriminate|].
      intros H. inversion H. lia. }
    destruct (current =? "/")%char eqn:Eslash.
    { apply Ascii.eqb_eq in Eslash. subst current.
      now apply parseAlternatives_advances. }
    intros H. inversion H. lia.
Qed.

Lemma parse_loop_terminates (e : string) (fuel : nat) :
  Str.length e < 2 ^ 64 ->
  forall pos r,
    Str.length e <= pos + N.of_nat fuel ->
    terminates (parse_loop e fuel pos r).
Proof.
  intros Hsize. induction fuel as [|fuel IH]; intros pos r Hfuel;
    cbn [parse_loop];
    destruct (Str.length e <=? pos) eqn:Hend; try discriminate.
  - apply N.leb_gt in Hend. lia.
  - apply N.leb_gt in Hend.
    apply terminates_bind; [apply parse_step_terminates|].
    intros [pos' r'] Hstep.
    apply parse_step_advances in Hstep; [|assumption|assumption].
    apply IH. lia.
Qed.

Lemma validate_scan_terminates (rest : string) :
  forall prev b p, terminates (validate_scan rest prev b p).
Proof.
  induction rest as [|c rest IH]; intros prev b p; cbn [validate_scan];
    [discriminate|].
  repeat match goal with
         | |- context [if ?t then _ else _] => destruct t
         end;
    try discriminate; apply IH.
Qed.

(** On every string a [std::string] can hold, the fuel that [parse] and
    the loops under it are given never runs out. *)
Lemma transform_terminates (regex_error : string -> option string)
  (e : string) :
  Str.length e < 2 ^ 64 -> terminates (transform regex_error e).
Proof.
  intros Hsize. unfold transform. destruct (Str.empty e); [discriminate|].
  apply terminates_bind.
  { unfold validate. apply terminates_bind; [apply validate_scan_terminates|].
    intros [b p] _. destruct (negb (b =? 0)%Z); [discriminate|].
    destruct (negb (p =? 0)%Z); discriminate. }
  intros _ _. unfold try_catch.
  assert (Hparse : terminates (parse e)).
  { apply parse_loop_terminates; [exact Hsize|]. unfold Str.length. lia. }
  destruct (parse e) as [regex| | |]; cbn [bind]; try discriminate.
  - unfold validateRegex. destruct (regex_error (anchor regex)); discriminate.
  - now elim Hparse.
Qed.

(** ** More on [transform]: termination, the empty expression, the depths *)

(** X1. On every expression shorter than [2^64] characters all the loops
    under [transform] come to an end: the outcome is a pattern, an
    exception or undefined behaviour, never a loop that goes on. *)
Theorem transform_loops_end (regex_error : string -> option string)
  (e : string) :
  Str.length e < 2 ^ 64 ->
  transform regex_error e <> OutOfFuel /\ parse e <> OutOfFuel.
Proof.
  intros Hsize. split.
  - now apply transform_terminates.
  - apply parse_loop_terminates; [exact Hsize|]. unfold Str.length. lia.
Qed.

Lemma transform_loops_end_witness :
  transform accept_all "a/b(c) {int} \(x/" <> OutOfFuel
  /\ parse "a/b(c) {int} \(x/" <> OutOfFuel.
Proof.
  exact (transform_loops_end accept_all "a/b(c) {int} \(x/" eq_refl).
Defined.

Lemma validate_scan_kind (rest : string) :
  forall prev b p x,
    validate_scan rest prev b p = Throw x -> validator_kind x = true.
Proof.
  induction rest as [|c rest IH]; intros prev b p x; cbn [validate_scan];
    [discriminate|].
  repeat match goal with
         | |- context [if ?t then _ else _] => destruct t
         end;
    try (intros H; inversion H; reflexivity);
    try discriminate;
    apply IH.
Qed.

Lemma validate_kind (e : string) (x : exn) :
  validate e = Throw x -> validator_kind x = true.
Proof.
  unfold validate.
  destruct (validate_scan e None 0%Z 0%Z) as [[b p]| y | |] eqn:E;
    cbn [bind]; try discriminate.
  - destruct (negb (b =? 0)%Z); [intros H; inversion H; reflexivity|].
    destruct (negb (p =? 0)%Z); [intros H; inversion H; reflexivity|].
    discriminate.
  - intros H; inversion H; subst. eapply validate_scan_kind; eauto.
Qed.

(** X2. [transform] throws [EmptyExpressionException] exactly on the empty
    expression. *)
Theorem empty_expression_exactly (regex_error : string -> option string)
  (e : string) :
  transform regex_error e = Throw EmptyExpressionException <-> e = "".
Proof.
  split; [|intros ->; reflexivity].
  destruct e as [|c e]; [reflexivity|].
  unfold transform. cbn [Str.empty].
  destruct (validate (String c e)) as [[]| y | |] eqn:E; cbn [bind];
    try discriminate.
  - unfold try_catch.
    destruct (parse (String c e)) as [r| z | |]; cbn [bind];
      try discriminate.
    unfold validateRegex. destruct (regex_error (anchor r)); discriminate.
  - intros H. inversion H; subst. apply validate_kind in E. discriminate.
Qed.

(** ** More on the validator *)

Lemma validate_scan_depths (rest : string) :
  forall prev b p b' p',
    (0 <= b <= 1)%Z -> (0 <= p)%Z ->
    validate_scan rest prev b p = Ok (b', p') ->
    (0 <= b' <= 1)%Z /\ (0 <= p')%Z.
Proof.
  induction rest as [|c rest IH]; intros prev b p b' p' Hb Hp;
    cbn [validate_scan].
  - intros H. inversion H; subst. auto.
  - repeat match goal with
           | |- context [if ?t then _ else _] => destruct t eqn:?
           end;
      try discriminate; apply IH; try lia.
Qed.

(** X4. While the validator scans an expression it ends up accepting, or
    any expression whose scan goes through, the brace depth is 0 or 1 and
    the parenthesis depth is not negative after every prefix; at the end
    of an accepted expression both are 0. *)
Theorem validator_depths_in_range (pre rest : string) (final : Z * Z) :
  validate_scan (pre ++ rest) None 0%Z 0%Z = Ok final ->
  exists b p,
    validate_scan pre None 0%Z 0%Z = Ok (b, p)
    /\ (b = 0 \/ b = 1)%Z /\ (0 <= p)%Z
    /\ (validate (pre ++ rest) = Ok tt -> final = (0%Z, 0%Z)).
Proof.
  intros Hscan. pose proof Hscan as Hall. rewrite validate_scan_app in Hscan.
  destruct (validate_scan pre None 0%Z 0%Z) as [[b p]| | |] eqn:E;
    cbn [bind] in Hscan; try discriminate.
  exists b, p. split; [reflexivity|].
  apply validate_scan_depths in E; [|lia|lia].
  split; [lia|]. split; [lia|].
  unfold validate. rewrite Hall. cbn [bind]. destruct final as [fb fp].
  destruct (fb =? 0)%Z eqn:Eb; cbn [negb]; [|discriminate].
  destruct (fp =? 0)%Z eqn:Ep; cbn [negb]; [|discriminate].
  apply Z.eqb_eq in Eb, Ep. now subst.
Qed.

Lemma validator_depths_in_range_witness :
  exists b p,
    validate_scan "a (b {c" None 0%Z 0%Z = Ok (b, p)
    /\ (b = 0 \/ b = 1)%Z /\ (0 <= p)%Z
    /\ (validate ("a (b {c" ++ "}) d") = Ok tt -> (0%Z, 0%Z) = (0%Z, 0%Z)).
Proof.
  exact (validator_depths_in_range "a (b {c" "}) d" (0%Z, 0%Z) eq_refl).
Defined.

(** X5. A counted [{] met while a parameter is open makes [transform]
    throw the generic exception "Nested parameter types are not allowed",
    whatever follows. *)
Theorem nested_parameter_is_rejected (regex_error : string -> option string)
  (pre rest : string) (p : Z) :
  validate_scan pre None 0%Z 0%Z = Ok (1%Z, p) ->
  is_backslash (Str.last_char pre) = false ->
  transform regex_error (pre ++ String "{" rest)
  = Throw (CucumberExpressionpressionException
             "Nested parameter types are not allowed").
Proof.
  intros Hscan Hprev.
  apply transform_validate_throw; [apply empty_app_cons|].
  unfold validate. rewrite validate_scan_app, Hscan. cbn [bind].
  cbn [validate_scan]. rewrite last_or_None, Hprev. reflexivity.
Qed.

Lemma nested_parameter_is_rejected_witness :
  transform accept_all "I have {{int}} cucumbers"
  = Throw (CucumberExpressionpressionException
             "Nested parameter types are not allowed").
Proof.
  exact (nested_parameter_is_rejected accept_all "I have {" "int}} cucumbers"
           0%Z eq_refl eq_refl).
Defined.

(** ** More on the parser: the cursor and the exceptions *)

Lemma collect_forward_upper (e : string) (fuel : nat) :
  forall fwdPos current alternatives fwdPos' alternatives',
    fwdPos <= Str.length e ->
    collect_forward e fuel fwdPos current alternatives
    = Ok (fwdPos', alternatives') ->
    fwdPos' <= Str.length e.
Proof.
  induction fuel as [|fuel IH];
    intros fwdPos current alternatives fwdPos' alternatives' Hle;
    cbn [collect_forward];
    destruct (Str.length e <=? fwdPos) eqn:Hend;
    try discriminate; try (intros H; inversion H; subst; exact Hle).
  apply N.leb_gt in Hend.
  destruct (Str.at_ e fwdPos) as [c| | |]; cbn [bind]; try discriminate.
  destruct ((c =? " ")%char || (c =? "{")%char);
    [intros H; inversion H; subst; exact Hle|].
  destruct ((c =? "(")%char && Str.empty current);
    [intros H; inversion H; subst; exact Hle|].
  destruct (c =? "(")%char.
  - destruct (Str.find ")" e fwdPos) as [parenEnd|] eqn:Efind.
    + apply find_bounds in Efind.
      destruct (Str.substr e fwdPos (parenEnd - fwdPos + 1));
        cbn [bind]; try discriminate.
      apply IH. lia.
    + apply IH. lia.
  - destruct ((c =? "\")%char && (fwdPos + 1 <? Str.length e)) eqn:Eguard.
    + apply andb_true_iff in Eguard as [_ Hnext]. apply N.ltb_lt in Hnext.
      destruct (Str.at_ e (fwdPos + 1)) as [next| | |]; cbn [bind];
        try discriminate.
      destruct (next =? "/")%char.
      * apply IH. lia.
      * destruct (c =? "/")%char; apply IH; lia.
    + cbn [bind]. destruct (c =? "/")%char; apply IH; lia.
Qed.

Lemma parse_step_upper (e : string) (pos : N) (r : string)
  (pos' : N) (r' : string) :
  Str.length e < 2 ^ 64 -> pos < Str.length e ->
  parse_step e pos r = Ok (pos', r') -> pos' <= Str.length e.
Proof.
  intros Hsize Hlt. unfold parse_step.
  destruct (Str.at_ e pos) as [current| | |] eqn:Hat; cbn [bind];
    try discriminate.
  assert (Hrest :
            (if (current =? "{")%char then parseOpenBrace e pos r
             else if (current =? "(")%char then parseOpenParenthesis e pos r
             else if (current =? "/")%char then parseAlternatives e pos r
             else Ok (pos + 1, r ++ escape_char current)) = Ok (pos', r') ->
            pos' <= Str.length e).
  { destruct (current =? "{")%char.
    { unfold parseOpenBrace.
      destruct (Str.find "}" e pos) as [closePos|] eqn:Efind; [|discriminate].
      apply find_bounds in Efind.
      destruct (Str.substr e (pos + 1) (closePos - pos - 1)) as [name| | |];
        cbn [bind]; try discriminate.
      destruct (map_find name getParameterTypes); [|discriminate].
      intros H. inversion H. lia. }
    destruct (current =? "(")%char.
    { unfold parseOpenParenthesis.
      destruct (Str.find ")" e pos) as [closePos|] eqn:Efind; [|discriminate].
      apply find_bounds in Efind.
      destruct (Str.substr e (pos + 1) (closePos - pos - 1))
        as [content| | |]; cbn [bind]; try discriminate.
      destruct (Str.empty content); [discriminate|].
      intros H. inversion H. lia. }
    destruct (current =? "/")%char; [|intros H; inversion H; lia].
    unfold parseAlternatives, collectAlternativesFromHere.
    destruct (scan_wordEnd pos r); cbn [bind]; try discriminate.
    destruct (backtrack e _ _ (size_sub pos 1) ""); cbn [bind];
      try discriminate.
    rewrite size_round_trip by lia.
    destruct (collect_forward e _ pos "" _) as [[fwd alternatives]| | |] eqn:E;
      cbn [bind]; try discriminate.
    apply collect_forward_upper in E; [|lia].
    destruct (1 <? List.length alternatives)%nat.
    + destruct (match Str.rfind " " r with
                | Some lastSpace => Str.substr r 0 (lastSpace + 1)
                | None => Ok ""
                end); cbn [bind]; try discriminate.
      destruct (join_alternatives true alternatives _); cbn [bind];
        try discriminate.
      intros H. inversion H; subst. exact E.
    + intros H. inversion H; subst. exact E. }
  unfold escape_test.
  destruct ((current =? "\")%char && (pos + 1 <? Str.length e)) eqn:Eguard;
    [|exact Hrest].
  apply andb_true_iff in Eguard as [_ Hnext]. apply N.ltb_lt in Hnext.
  destruct (Str.at_ e (pos + 1)) as [next| | |] eqn:Hnextc; cbn [bind];
    try discriminate.
  destruct (is_escapable next); [|exact Hrest].
  unfold parseEscaping. rewrite Hnextc. cbn [bind].
  intros H. inversion H. lia.
Qed.

(** X6. A turn of the loop of [parse] that ends well moves the cursor
    forward and leaves it inside the expression. *)
Theorem cursor_moves_forward_in_bounds (e : string) (pos : N) (r : string)
  (pos' : N) (r' : string) :
  Str.length e < 2 ^ 64 ->
  pos < Str.length e ->
  parse_step e pos r = Ok (pos', r') ->
  pos < pos' /\ pos' <= Str.length e.
Proof.
  intros Hsize Hlt Hstep. split.
  - eapply parse_step_advances; eauto.
  - eapply parse_step_upper; eauto.
Qed.

Lemma cursor_moves_forward_in_bounds_witness :
  5 < 9 /\ 9 <= Str.length "a/b c/d/e".
Proof.
  exact (cursor_moves_forward_in_bounds "a/b c/d/e" 5 "(?:a|b) c"
           9 "(?:a|b) (?:c|d|e)" eq_refl eq_refl eq_refl).
Defined.

Lemma substr_in_range (s : string) (pos n : N) :
  pos <= Str.length s ->
  Str.substr s pos n = Ok (String.substring (N.to_nat pos) (N.to_nat n) s).
Proof.
  intros H. unfold Str.substr. apply N.leb_le in H. now rewrite H.
Qed.

Lemma at_never_throws (s : string) (i : N) (x : exn) :
  Str.at_ s i <> Throw x.
Proof.
  unfold Str.at_.
  destruct (i <? Str.length s);
    [destruct (String.get (N.to_nat i) s) | destruct (i =? Str.length s)];
    discriminate.
Qed.

Lemma parseAlternativeText_loop_kind (text : string) (fuel : nat) :
  forall i r x,
    parseAlternativeText_loop fuel text i r = Throw x -> parser_kind x = true.
Proof.
  induction fuel as [|fuel IH]; intros i r x; cbn [parseAlternativeText_loop];
    destruct (Str.length text <=? i) eqn:Hend; try discriminate.
  apply N.leb_gt in Hend.
  destruct (Str.at_ text i) as [c| y | |] eqn:Hat; cbn [bind];
    try discriminate.
  - destruct (c =? "(")%char; [|apply IH].
    destruct (Str.find ")" text i) as [closePos|]; [|apply IH].
    rewrite substr_in_range by lia. cbn [bind].
    destruct (Str.empty _); [|apply IH].
    intros H. inversion H. reflexivity.
  - now elim (at_never_throws text i y).
Qed.

Lemma join_alternatives_kind (alternatives : list string) :
  forall first r x,
    join_alternatives first alternatives r = Throw x -> parser_kind x = true.
Proof.
  induction alternatives as [|a rest IH]; intros first r x;
    cbn [join_alternatives]; [discriminate|].
  destruct (parseAlternativeText a) as [text| y | |] eqn:E; cbn [bind];
    try discriminate.
  - apply IH.
  - intros H. inversion H; subst.
    eapply parseAlternativeText_loop_kind. exact E.
Qed.

Lemma backtrack_parenthesis_never_throws (e : string) (fuel : nat) :
  forall i depth current x,
    backtrack_parenthesis e fuel i depth current <> Throw x.
Proof.
  induction fuel as [|fuel IH]; intros i depth current x;
    cbn [backtrack_parenthesis]; destruct (depth <=? 0)%Z; try discriminate.
  destruct (Str.at_ e i) as [pc| y | |] eqn:Hat; cbn [bind];
    try discriminate.
  - destruct ((pc =? ")")%char && (depth =? INT_MAX)%Z); [discriminate|].
    destruct (i =? 0); [discriminate | apply IH].
  - now elim (at_never_throws e i y).
Qed.

Lemma backtrack_never_throws (e : string) (inner fuel : nat) :
  forall i current x, backtrack e fuel inner i current <> Throw x.
Proof.
  induction fuel as [|fuel IH]; intros i current x; cbn [backtrack];
    [discriminate|].
  destruct (Str.at_ e i) as [c| y | |] eqn:Hat; cbn [bind]; try discriminate.
  - destruct ((c =? " ")%char || (c =? "{")%char); [discriminate|].
    destruct (c =? ")")%char.
    + destruct (i =? 0); [discriminate|].
      destruct (backtrack_parenthesis e inner (i - 1) 1%Z (String c current))
        as [[i' current']| y | |] eqn:E; cbn [bind]; try discriminate.
      * apply IH.
      * now elim (backtrack_parenthesis_never_throws _ _ _ _ _ _ E).
    + destruct (c =? "(")%char; [discriminate|].
      destruct (i =? 0); [discriminate | apply IH].
  - now elim (at_never_throws e i y).
Qed.

Lemma collect_forward_never_throws (e : string) (fuel : nat) :
  forall fwdPos current alternatives x,
    collect_forward e fuel fwdPos current alternatives <> Throw x.
Proof.
  induction fuel as [|fuel IH]; intros fwdPos current alternatives x;
    cbn [collect_forward];
    destruct (Str.length e <=? fwdPos) eqn:Hend; try discriminate.
  apply N.leb_gt in Hend.
  destruct (Str.at_ e fwdPos) as [c| y | |] eqn:Hat; cbn [bind];
    try discriminate; [|now elim (at_never_throws e fwdPos y)].
  destruct ((c =? " ")%char || (c =? "{")%char); [discriminate|].
  destruct ((c =? "(")%char && Str.empty current); [discriminate|].
  destruct (c =? "(")%char.
  - destruct (Str.find ")" e fwdPos) as [parenEnd|]; [|apply IH].
    rewrite substr_in_range by lia. cbn [bind]. apply IH.
  - destruct ((c =? "\")%char && (fwdPos + 1 <? Str.length e)).
    + destruct (Str.at_ e (fwdPos + 1)) as [next| y | |] eqn:Hnext;
        cbn [bind]; try discriminate.
      * destruct (next =? "/")%char; [apply IH|].
        destruct (c =? "/")%char; apply IH.
      * now elim (at_never_throws e (fwdPos + 1) y).
    + cbn [bind]. destruct (c =? "/")%char; apply IH.
Qed.

Lemma parseAlternatives_kind (e : string) (pos : N) (r : string) (x : exn) :
  parseAlternatives e pos r = Throw x -> parser_kind x = true.
Proof.
  unfold parseAlternatives, collectAlternativesFromHere.
  destruct (scan_wordEnd pos r) as [n| y | |] eqn:Escan; cbn [bind];
    try discriminate.
  - destruct (backtrack e _ _ (size_sub pos 1) "") as [current| y | |] eqn:Eb;
      cbn [bind]; try discriminate.
    + destruct (collect_forward e _ _ "" _) as [[fwd alternatives]| y | |]
        eqn:Ec; cbn [bind]; try discriminate.
      * destruct (1 <? List.length alternatives)%nat; [|discriminate].
        assert (Htrunc : exists t,
                   match Str.rfind " " r with
                   | Some lastSpace => Str.substr r 0 (lastSpace + 1)
                   | None => Ok ""
                   end = Ok t).
        { destruct (Str.rfind " " r); [|now exists ""].
          rewrite substr_in_range by lia. eauto. }
        destruct Htrunc as [t ->]. cbn [bind].
        destruct (join_alternatives true alternatives (t ++ "(?:"))
          as [j| y | |] eqn:Ej; cbn [bind]; try discriminate.
        intros H. inversion H; subst. eapply join_alternatives_kind; eauto.
      * now elim (collect_forward_never_throws _ _ _ _ _ _ Ec).
    + now elim (backtrack_never_throws _ _ _ _ _ _ Eb).
  - unfold scan_wordEnd, Str.back in Escan.
    destruct (0 <? pos); [|discriminate].
    destruct (Str.last_char r); cbn [bind] in Escan; [|discriminate].
    match type of Escan with
    | (if ?t then _ else _) = _ => destruct t
    end; discriminate.
Qed.

Lemma parse_step_kind (e : string) (pos : N) (r : string) (x : exn) :
  pos < Str.length e ->
  parse_step e pos r = Throw x -> parser_kind x = true.
Proof.
  intros Hlt. unfold parse_step.
  destruct (Str.at_ e pos) as [current| y | |] eqn:Hat; cbn [bind];
    try discriminate; [|now elim (at_never_throws e pos y)].
  assert (Hrest :
            (if (current =? "{")%char then parseOpenBrace e pos r
             else if (current =? "(")%char then parseOpenParenthesis e pos r
             else if (current =? "/")%char then parseAlternatives e pos r
             else Ok (pos + 1, r ++ escape_char current)) = Throw x ->
            parser_kind x = true).
  { destruct (current =? "{")%char.
    { unfold parseOpenBrace.
      destruct (Str.find "}" e pos) as [closePos|] eqn:Efind;
        [|intros H; inversion H; reflexivity].
      apply find_bounds in Efind.
      rewrite substr_in_range by lia. cbn [bind].
      destruct (map_find _ getParameterTypes); [discriminate|].
      intros H. inversion H. reflexivity. }
    destruct (current =? "(")%char.
    { unfold parseOpenParenthesis.
      destruct (Str.find ")" e pos) as [closePos|] eqn:Efind;
        [|intros H; inversion H; reflexivity].
      apply find_bounds in Efind.
      rewrite substr_in_range by lia. cbn [bind].
      destruct (Str.empty _); [|discriminate].
      intros H. inversion H. reflexivity. }
    destruct (current =? "/")%char; [|discriminate].
    apply parseAlternatives_kind. }
  unfold escape_test.
  destruct ((current =? "\")%char && (pos + 1 <? Str.length e)) eqn:Eguard;
    [|exact Hrest].
  destruct (Str.at_ e (pos + 1)) as [next| y | |] eqn:Hnext; cbn [bind];
    try discriminate; [|now elim (at_never_throws e (pos + 1) y)].
  destruct (is_escapable next); [|exact Hrest].
  unfold parseEscaping. rewrite Hnext. discriminate.
Qed.

Lemma parse_loop_kind (e : string) (fuel : nat) :
  forall pos r x, parse_loop e fuel pos r = Throw x -> parser_kind x = true.
Proof.
  induction fuel as [|fuel IH]; intros pos r x; cbn [parse_loop];
    destruct (Str.length e <=? pos) eqn:Hend; try discriminate.
  apply N.leb_gt in Hend.
  destruct (parse_step e pos r) as [[pos' r']| y | |] eqn:Estep; cbn [bind];
    try discriminate.
  - apply IH.
  - intros H. inversion H; subst. eapply parse_step_kind; eauto.
Qed.

(** X7. [parse] throws nothing but [UnclosedParameterException],
    [UnclosedOptionalException], [UnknownParameterTypeException] and the
    generic exception; every [substr] it makes starts inside its string,
    so no [std::out_of_range] comes out of it. *)
Theorem parser_throws_only (e : string) (x : exn) :
  parse e = Throw x ->
  parser_kind x = true /\ (forall m, x <> StdOutOfRange m).
Proof.
  intros H. apply parse_loop_kind in H. split; [exact H|].
  intros m ->. discriminate.
Qed.

Lemma parser_throws_only_witness :
  parser_kind (UnknownParameterTypeException "int-extra") = true
  /\ (forall m, UnknownParameterTypeException "int-extra" <> StdOutOfRange m).
Proof.
  exact (parser_throws_only "{int-extra}"
           (UnknownParameterTypeException "int-extra") eq_refl).
Defined.











(** ** More on escaping *)

Lemma escapeRegexChars_app (a b : string) :
  escapeRegexChars (a ++ b) = escapeRegexChars a ++ escapeRegexChars b.
Proof.
  induction a as [|c a IH]; [reflexivity|].
  cbn [append escapeRegexChars]. now rewrite IH, append_assoc.
Qed.

Lemma unescape_escape_char (c : ascii) (s : string) :
  unescape (escape_char c ++ s) = String c (unescape s).
Proof.
  unfold escape_char, is_regex_special, REGEX_SPECIAL.
  destruct (Str.contains ".^$|()[]{}*+?\" c) eqn:E.
  - reflexivity.
  - repeat (apply contains_cons_false in E as [? E]).
    cbn [append Str.singleton unescape].
    replace ((c =? "\")%char) with false; [reflexivity|].
    symmetry. apply Ascii.eqb_neq. congruence.
Qed.

Lemma unescape_escapeRegexChars (text : string) :
  unescape (escapeRegexChars text) = text.
Proof.
  induction text as [|c text IH]; [reflexivity|].
  cbn [escapeRegexChars]. now rewrite unescape_escape_char, IH.
Qed.

(** X8. [escapeRegexChars] loses nothing: reading every backslash of its
    output as "the next character, literally" gives the text back, so two
    texts with the same escaped form are equal; and escaping a
    concatenation is concatenating the escaped parts. *)
Theorem escapeRegexChars_round_trip (a b : string) :
  unescape (escapeRegexChars a) = a
  /\ (escapeRegexChars a = escapeRegexChars b -> a = b)
  /\ escapeRegexChars (a ++ b) = escapeRegexChars a ++ escapeRegexChars b.
Proof.
  split; [apply unescape_escapeRegexChars|]. split.
  - intros H. rewrite <- (unescape_escapeRegexChars a), H.
    apply unescape_escapeRegexChars.
  - apply escapeRegexChars_app.
Qed.

Lemma escapeRegexChars_round_trip_witness :
  unescape "a\.b\\" = "a.b\" /\ "a.b\" = "a.b\".
Proof.
  pose proof (escapeRegexChars_round_trip "a.b\" "a.b\") as (H1 & H2 & _).
  exact (conj H1 (H2 eq_refl)).
Defined.

Lemma parseAlternativeText_loop_plain (text : string) :
  free_of "(" text = true ->
  forall (fuel i : nat) (r : string),
    (String.length text <= fuel + i)%nat ->
    parseAlternativeText_loop fuel text (N.of_nat i) r
    = Ok (r ++ escapeRegexChars (drop i text)).
Proof.
  intros Hfree. induction fuel as [|fuel IH]; intros i r Hfuel.
  - rewrite drop_all by lia. rewrite append_nil_r. cbn [parseAlternativeText_loop].
    replace (Str.length text <=? N.of_nat i) with true; [reflexivity|].
    symmetry. apply N.leb_le. unfold Str.length. lia.
  - cbn [parseAlternativeText_loop].
    destruct (Str.length text <=? N.of_nat i) eqn:Hend.
    + apply N.leb_le in Hend. unfold Str.length in Hend.
      rewrite drop_all by lia. now rewrite append_nil_r.
    + apply N.leb_gt in Hend. unfold Str.length in Hend.
      destruct (get_lt_Some text i) as [c Hc]; [lia|].
      pose proof (free_of_get _ _ _ _ Hfree Hc) as Hcc.
      rewrite (at_get _ _ _ Hc). cbn [bind].
      apply contains_cons_false in Hcc as [Hne _].
      apply Ascii.eqb_neq in Hne. rewrite Ascii.eqb_sym in Hne. rewrite Hne.
      rewrite N_of_nat_succ, IH by lia.
      rewrite (drop_get _ _ _ Hc). cbn [escapeRegexChars].
      now rewrite append_assoc.
Qed.

Lemma parseAlternativeText_plain (text : string) :
  free_of "(" text = true ->
  parseAlternativeText text = Ok (escapeRegexChars text).
Proof.
  intros H. unfold parseAlternativeText. change 0 with (N.of_nat 0).
  rewrite (parseAlternativeText_loop_plain text H) by lia. reflexivity.
Qed.

(** ** Positions in a concatenation *)

Lemma get_app_right (a b : string) (k : nat) :
  String.get (String.length a + k) (a ++ b) = String.get k b.
Proof. induction a as [|x a IH]; [reflexivity | exact IH]. Qed.

Lemma get_app_left (a b : string) (k : nat) :
  (k < String.length a)%nat -> String.get k (a ++ b) = String.get k a.
Proof.
  revert k. induction a as [|x a IH]; intros [|k] H; cbn in *;
    try lia; try reflexivity.
  apply IH. lia.
Qed.

Lemma get_app_head (a : string) (c : ascii) (b : string) :
  String.get (String.length a) (a ++ String c b) = Some c.
Proof.
  rewrite <- (Nat.add_0_r (String.length a)). now rewrite get_app_right.
Qed.

Lemma find_aux_skip (c : ascii) (a b : string) :
  forall idx pos,
    idx + Str.length a <= pos ->
    Str.find_aux c (a ++ b) idx pos = Str.find_aux c b (idx + Str.length a) pos.
Proof.
  unfold Str.length.
  induction a as [|x a IH]; intros idx pos H;
    cbn [append String.length] in *.
  - f_equal. lia.
  - cbn [Str.find_aux].
    replace (pos <=? idx) with false by (symmetry; apply N.leb_gt; lia).
    cbn [andb]. rewrite IH by lia. f_equal. lia.
Qed.

Lemma find_aux_first (c : ascii) (body rest : string) :
  forall idx pos,
    pos <= idx ->
    free_of (Str.singleton c) body = true ->
    Str.find_aux c (body ++ String c rest) idx pos
    = Some (idx + Str.length body).
Proof.
  unfold Str.length.
  induction body as [|x body IH]; intros idx pos Hpos Hfree;
    cbn [append String.length Str.find_aux].
  - replace (pos <=? idx) with true by (symmetry; apply N.leb_le; lia).
    rewrite Ascii.eqb_refl. cbn [andb]. f_equal. lia.
  - cbn [free_of] in Hfree. apply andb_true_iff in Hfree as [Hx Hbody].
    apply negb_true_iff in Hx. apply contains_cons_false in Hx as [Hx _].
    apply Ascii.eqb_neq in Hx. rewrite Ascii.eqb_sym in Hx. rewrite Hx.
    rewrite andb_false_r. rewrite IH by (lia || assumption). f_equal. lia.
Qed.

(** [find] from the opening character of [open body close] lands on
    [close] when [body] does not hold it. *)
Lemma find_closing (c o : ascii) (done body rest : string) :
  o <> c ->
  free_of (Str.singleton c) body = true ->
  Str.find c (done ++ String o (body ++ String c rest)) (Str.length done)
  = Some (Str.length done + 1 + Str.length body).
Proof.
  intros Hoc Hfree. unfold Str.find.
  rewrite find_aux_skip by lia.
  change (String o (body ++ String c rest))
    with (String o body ++ String c rest).
  rewrite find_aux_first.
  - f_equal. unfold Str.length. cbn [String.length]. lia.
  - lia.
  - cbn [free_of Str.contains Str.singleton]. rewrite Hfree.
    apply Ascii.eqb_neq in Hoc. rewrite Ascii.eqb_sym in Hoc.
    now rewrite Hoc.
Qed.

Lemma substring_skip (a b : string) (n m : nat) :
  String.substring (String.length a + n) m (a ++ b) = String.substring n m b.
Proof. induction a as [|x a IH]; [reflexivity | exact IH]. Qed.

Lemma substring_prefix (a b : string) :
  String.substring 0 (String.length a) (a ++ b) = a.
Proof.
  induction a as [|x a IH]; cbn [append String.length String.substring].
  - now destruct b.
  - now rewrite IH.
Qed.

(** The [substr] between the opening character and [close]. *)
Lemma substr_body (o : ascii) (done body rest : string) :
  Str.substr (done ++ String o (body ++ rest)) (Str.length done + 1)
    (Str.length done + 1 + Str.length body - Str.length done - 1)
  = Ok body.
Proof.
  rewrite substr_in_range.
  - f_equal. unfold Str.length.
    replace (N.to_nat (N.of_nat (String.length done) + 1))
      with (String.length done + 1)%nat by lia.
    replace (N.to_nat (N.of_nat (String.length done) + 1
                       + N.of_nat (String.length body)
                       - N.of_nat (String.length done) - 1))
      with (String.length body) by lia.
    rewrite substring_skip. cbn [String.substring].
    apply substring_prefix.
  - unfold Str.length. rewrite length_append. cbn [String.length]. lia.
Qed.

Lemma length_app_N (a b : string) :
  Str.length (a ++ b) = Str.length a + Str.length b.
Proof. unfold Str.length. rewrite length_append. lia. Qed.

Lemma length_cons_N (c : ascii) (s : string) :
  Str.length (String c s) = 1 + Str.length s.
Proof. unfold Str.length. cbn [String.length]. lia. Qed.

Lemma at_app_head (a : string) (c : ascii) (b : string) :
  Str.at_ (a ++ String c b) (Str.length a) = Ok c.
Proof. apply at_get, get_app_head. Qed.

Lemma at_app_second (a : string) (c d : ascii) (b : string) :
  Str.at_ (a ++ String c (String d b)) (Str.length a + 1) = Ok d.
Proof.
  unfold Str.length. rewrite N_of_nat_succ. apply at_get.
  replace (S (String.length a)) with (String.length a + 1)%nat by lia.
  now rewrite get_app_right.
Qed.

(** ** Running the loop of [parse] turn by turn *)

Lemma runs_to_end (e : string) (pos : N) (r : string) :
  Str.length e <= pos -> runs_to e pos r (Ok r).
Proof.
  intros H fuel _. apply N.leb_le in H.
  destruct fuel; cbn [parse_loop]; now rewrite H.
Qed.

Lemma runs_to_step (e : string) (pos : N) (r : string) (pos' : N)
  (r' : string) (o : outcome string) :
  pos < Str.length e ->
  parse_step e pos r = Ok (pos', r') ->
  pos < pos' ->
  runs_to e pos' r' o -> runs_to e pos r o.
Proof.
  intros Hlt Hstep Hadv Hrest fuel Hfuel.
  destruct fuel as [|fuel]; [lia|]. cbn [parse_loop].
  replace (Str.length e <=? pos) with false
    by (symmetry; apply N.leb_gt; exact Hlt).
  rewrite Hstep. cbn [bind]. apply Hrest. lia.
Qed.

Lemma runs_to_throw (e : string) (pos : N) (r : string) (x : exn) :
  pos < Str.length e ->
  parse_step e pos r = Throw x -> runs_to e pos r (Throw x).
Proof.
  intros Hlt Hstep fuel Hfuel.
  destruct fuel as [|fuel]; [lia|]. cbn [parse_loop].
  replace (Str.length e <=? pos) with false
    by (symmetry; apply N.leb_gt; exact Hlt).
  now rewrite Hstep.
Qed.

Lemma runs_to_parse (e : string) (o : outcome string) :
  runs_to e 0 "" o -> parse e = o.
Proof. intros H. apply H. unfold Str.length. lia. Qed.

Lemma contains_sub_6_lit (c : ascii) :
  Str.contains "{}()/\" c = false ->
  c <> "{"%char /\ c <> "("%char /\ c <> "/"%char /\ c <> "\"%char.
Proof.
  intros H. repeat (apply contains_cons_false in H as [? H]).
  repeat split; congruence.
Qed.

(** A run of literal text. *)
Lemma runs_literal (text : string) :
  forall done rest r o,
    free_of "{}()/\" text = true ->
    runs_to (done ++ text ++ rest) (Str.length done + Str.length text)
      (r ++ escapeRegexChars text) o ->
    runs_to (done ++ text ++ rest) (Str.length done) r o.
Proof.
  induction text as [|c text IH]; intros done rest r o Hfree Hrun.
  - cbn [escapeRegexChars] in Hrun. rewrite append_nil_r in Hrun.
    replace (Str.length done + Str.length "") with (Str.length done) in Hrun
      by (unfold Str.length; cbn; lia).
    exact Hrun.
  - cbn [free_of] in Hfree. apply andb_true_iff in Hfree as [Hc Htext].
    apply negb_true_iff in Hc.
    apply contains_sub_6_lit in Hc as (Hb & Hp & Hs & Hbs).
    cbn [append].
    apply (runs_to_step _ _ _ (Str.length done + 1) (r ++ escape_char c)).
    + rewrite length_app_N, length_cons_N. lia.
    + unfold Str.length at 1 2.
      apply parse_step_literal; auto using get_app_head.
      intros Habs. contradiction.
    + lia.
    + specialize (IH (done ++ Str.singleton c) rest (r ++ escape_char c) o
                    Htext).
      rewrite append_snoc in IH.
      replace (Str.length (done ++ Str.singleton c))
        with (Str.length done + 1) in IH
        by (rewrite length_app_N; unfold Str.length; cbn; lia).
      apply IH.
      cbn [append escapeRegexChars] in Hrun.
      rewrite append_assoc.
      replace (Str.length done + 1 + Str.length text)
        with (Str.length done + Str.length (String c text))
        by (rewrite length_cons_N; lia).
      exact Hrun.
Qed.

(** ** One turn per construct *)

Lemma escape_test_other (e : string) (pos : N) (current : ascii) :
  current <> "\"%char -> escape_test e pos current = Ok false.
Proof.
  intros H. unfold escape_test. apply Ascii.eqb_neq in H. now rewrite H.
Qed.

Lemma step_escaped (done : string) (c : ascii) (rest r : string) :
  is_escapable c = true ->
  parse_step (done ++ String "\" (String c rest)) (Str.length done) r
  = Ok (Str.length done + 2, r ++ render_segment (SegEscaped c)).
Proof.
  intros Hesc. unfold parse_step. rewrite at_app_head. cbn [bind].
  unfold escape_test. rewrite Ascii.eqb_refl.
  replace (Str.length done + 1
           <? Str.length (done ++ String "\" (String c rest))) with true
    by (symmetry; apply N.ltb_lt; rewrite length_app_N, !length_cons_N; lia).
  cbn [andb]. rewrite at_app_second. cbn [bind]. rewrite Hesc.
  unfold parseEscaping. rewrite at_app_second. cbn [bind render_segment].
  destruct ((c =? "{")%char || (c =? "}")%char || (c =? "(")%char
            || (c =? ")")%char); [|reflexivity].
  now rewrite append_assoc.
Qed.

Lemma step_parameter (done name rest r fragment : string) :
  free_of "}" name = true ->
  map_find name getParameterTypes = Some fragment ->
  parse_step (done ++ String "{" (name ++ String "}" rest)) (Str.length done) r
  = Ok (Str.length done + 1 + Str.length name + 1,
        r ++ "(" ++ fragment ++ ")").
Proof.
  intros Hfree Hfind. unfold parse_step. rewrite at_app_head. cbn [bind].
  rewrite escape_test_other by discriminate. cbn [bind].
  replace (("{" =? "{")%char) with true by reflexivity.
  unfold parseOpenBrace.
  rewrite find_closing by (discriminate || assumption).
  rewrite substr_body. cbn [bind]. now rewrite Hfind.
Qed.

Lemma step_unknown_parameter (done name rest r : string) :
  free_of "}" name = true ->
  map_find name getParameterTypes = None ->
  parse_step (done ++ String "{" (name ++ String "}" rest)) (Str.length done) r
  = Throw (UnknownParameterTypeException name).
Proof.
  intros Hfree Hfind. unfold parse_step. rewrite at_app_head. cbn [bind].
  rewrite escape_test_other by discriminate. cbn [bind].
  replace (("{" =? "{")%char) with true by reflexivity.
  unfold parseOpenBrace.
  rewrite find_closing by (discriminate || assumption).
  rewrite substr_body. cbn [bind]. now rewrite Hfind.
Qed.

Lemma step_optional (done text rest r : string) :
  free_of ")" text = true ->
  Str.empty text = false ->
  parse_step (done ++ String "(" (text ++ String ")" rest)) (Str.length done) r
  = Ok (Str.length done + 1 + Str.length text + 1,
        r ++ "(?:" ++ escapeRegexChars text ++ ")?").
Proof.
  intros Hfree Hne. unfold parse_step. rewrite at_app_head. cbn [bind].
  rewrite escape_test_other by discriminate. cbn [bind].
  replace (("(" =? "{")%char) with false by reflexivity.
  replace (("(" =? "(")%char) with true by reflexivity.
  unfold parseOpenParenthesis.
  rewrite find_closing by (discriminate || assumption).
  rewrite substr_body. cbn [bind]. now rewrite Hne.
Qed.

Lemma step_empty_optional (done rest r : string) :
  parse_step (done ++ String "(" (String ")" rest)) (Str.length done) r
  = Throw (CucumberExpressionpressionException
             ("Empty optional text is not allowed at position "
              ++ to_string (Str.length done))).
Proof.
  unfold parse_step. rewrite at_app_head. cbn [bind].
  rewrite escape_test_other by discriminate. cbn [bind].
  replace (("(" =? "{")%char) with false by reflexivity.
  replace (("(" =? "(")%char) with true by reflexivity.
  unfold parseOpenParenthesis.
  pose proof (find_closing ")" "(" done "" rest) as Hfind.
  cbn [append] in Hfind. rewrite Hfind by (discriminate || reflexivity).
  pose proof (substr_body "(" done "" (String ")" rest)) as Hsub.
  cbn [append] in Hsub. rewrite Hsub. reflexivity.
Qed.

Lemma registered_name_plain (name fragment : string) :
  map_find name getParameterTypes = Some fragment ->
  free_of "{}()/\" name = true.
Proof.
  unfold getParameterTypes. cbn [map_find].
  repeat match goal with
         | |- context [String.eqb ?k name] =>
             destruct (String.eqb_spec k name); [subst; reflexivity|]
         end.
  discriminate.
Qed.

Lemma contains_sub_1_6 (x : ascii) :
  Str.contains "}" x = true -> Str.contains "{}()/\" x = true.
Proof.
  cbn [Str.contains]. repeat rewrite orb_true_iff. tauto.
Qed.

Lemma contains_sub_paren_5 (x : ascii) :
  Str.contains ")" x = true -> Str.contains "{}()\" x = true.
Proof.
  cbn [Str.contains]. repeat rewrite orb_true_iff. tauto.
Qed.

Lemma print_segment_length (s : segment) :
  Str.length (print_segment s)
  = match s with
    | SegLiteral text => Str.length text
    | SegEscaped _ => 2
    | SegParameter name => 1 + Str.length name + 1
    | SegOptional text => 1 + Str.length text + 1
    end.
Proof.
  destruct s; cbn [print_segment]; try reflexivity;
    cbn [append]; rewrite length_cons_N, length_app_N; unfold Str.length;
    cbn [String.length]; lia.
Qed.

Lemma runs_segment (s : segment) (done rest r : string)
  (o : outcome string) :
  segment_ok s = true ->
  runs_to (done ++ print_segment s ++ rest)
    (Str.length done + Str.length (print_segment s))
    (r ++ render_segment s) o ->
  runs_to (done ++ print_segment s ++ rest) (Str.length done) r o.
Proof.
  intros Hok Hrun. rewrite print_segment_length in Hrun.
  destruct s as [text|c|name|text]; cbn [segment_ok] in Hok.
  - now apply runs_literal.
  - cbn [print_segment append] in *.
    eapply runs_to_step; [| apply step_escaped; exact Hok | lia | exact Hrun].
    rewrite length_app_N, !length_cons_N. lia.
  - destruct (map_find name getParameterTypes) as [fragment|] eqn:Hfind;
      [|discriminate].
    cbn [print_segment render_segment] in *. rewrite Hfind in Hrun.
    cbn [append] in *. rewrite append_assoc in *. cbn [append] in *.
    eapply runs_to_step; [| apply (step_parameter _ _ _ _ fragment)
                          | | replace (Str.length done + 1 + Str.length name + 1)
                                with (Str.length done
                                      + (1 + Str.length name + 1)) by lia;
                              exact Hrun].
    + rewrite length_app_N, length_cons_N. lia.
    + eapply free_of_weaken; [exact contains_sub_1_6|].
      eapply registered_name_plain; eauto.
    + exact Hfind.
    + lia.
  - apply andb_true_iff in Hok as [Hne Hfree].
    apply negb_true_iff in Hne.
    cbn [print_segment render_segment] in *.
    cbn [append] in *. rewrite append_assoc in *. cbn [append] in *.
    eapply runs_to_step; [| apply step_optional
                          | | replace (Str.length done + 1 + Str.length text + 1)
                                with (Str.length done
                                      + (1 + Str.length text + 1)) by lia;
                              exact Hrun].
    + rewrite length_app_N, length_cons_N. lia.
    + eapply free_of_weaken; [exact contains_sub_paren_5 | exact Hfree].
    + exact Hne.
    + lia.
Qed.

Lemma runs_segments (segments : list segment) :
  forall done rest r o,
    forallb segment_ok segments = true ->
    runs_to (done ++ print_segments segments ++ rest)
      (Str.length done + Str.length (print_segments segments))
      (r ++ render_segments segments) o ->
    runs_to (done ++ print_segments segments ++ rest) (Str.length done) r o.
Proof.
  induction segments as [|s segments IH]; intros done rest r o Hok Hrun.
  - cbn [print_segments render_segments append] in *.
    rewrite append_nil_r in Hrun.
    replace (Str.length done + Str.length "") with (Str.length done) in Hrun
      by (unfold Str.length; cbn; lia).
    exact Hrun.
  - cbn [forallb] in Hok. apply andb_true_iff in Hok as [Hs Hrest].
    cbn [print_segments render_segments] in *.
    rewrite (append_assoc (print_segment s)) in *.
    apply runs_segment; [exact Hs|].
    specialize (IH (done ++ print_segment s) rest (r ++ render_segment s) o
                  Hrest).
    rewrite (append_assoc done) in IH. rewrite length_app_N in IH.
    apply IH.
    rewrite append_assoc. rewrite length_app_N in Hrun.
    rewrite N.add_assoc in Hrun. exact Hrun.
Qed.

(** ** The validator on segments *)

Lemma last_or_plain (text : string) :
  forall prev,
    free_of "\" text = true -> is_backslash prev = false ->
    is_backslash (last_or prev text) = false.
Proof.
  induction text as [|c text IH]; intros prev Hfree Hprev; [exact Hprev|].
  rewrite last_or_cons. cbn [free_of] in Hfree.
  apply andb_true_iff in Hfree as [Hc Htext]. apply IH; [exact Htext|].
  apply negb_true_iff in Hc. apply contains_cons_false in Hc as [Hc _].
  cbn [is_backslash]. apply Ascii.eqb_neq. congruence.
Qed.

Lemma last_or_app (a b : string) (prev : option ascii) :
  last_or prev (a ++ b) = last_or (last_or prev a) b.
Proof.
  unfold last_or. rewrite last_char_app.
  now destruct (Str.last_char b), (Str.last_char a).
Qed.

Lemma contains_sub_bs_6 (x : ascii) :
  Str.contains "\" x = true -> Str.contains "{}()/\" x = true.
Proof.
  cbn [Str.contains]. repeat rewrite orb_true_iff. tauto.
Qed.

Lemma contains_sub_bs_5 (x : ascii) :
  Str.contains "\" x = true -> Str.contains "{}()\" x = true.
Proof.
  cbn [Str.contains]. repeat rewrite orb_true_iff. tauto.
Qed.

Lemma contains_sub_4_6 (x : ascii) :
  Str.contains "{}()" x = true -> Str.contains "{}()/\" x = true.
Proof.
  cbn [Str.contains]. repeat rewrite orb_true_iff. tauto.
Qed.

Lemma contains_sub_4_5b (x : ascii) :
  Str.contains "{}()" x = true -> Str.contains "{}()\" x = true.
Proof.
  cbn [Str.contains]. repeat rewrite orb_true_iff. tauto.
Qed.

(** The validator goes through a well-formed segment with both depths
    back at 0 and no backslash left in front of what follows. *)
Lemma scan_segment (s : segment) (prev : option ascii) :
  segment_ok s = true ->
  is_backslash prev = false ->
  validate_scan (print_segment s) prev 0%Z 0%Z = Ok (0%Z, 0%Z)
  /\ is_backslash (last_or prev (print_segment s)) = false.
Proof.
  intros Hok Hprev. destruct s as [text|c|name|text];
    cbn [segment_ok print_segment] in *.
  - split.
    + apply validate_scan_plain.
      eapply free_of_weaken; [exact contains_sub_4_6 | exact Hok].
    + apply last_or_plain; [|exact Hprev].
      eapply free_of_weaken; [exact contains_sub_bs_6 | exact Hok].
  - cbn [validate_scan]. rewrite Hprev.
    destruct (is_escapable_cases _ Hok) as [->|[->|[->|[->| ->]]]];
      split; reflexivity.
  - destruct (map_find name getParameterTypes) as [fragment|] eqn:Hfind;
      [|discriminate].
    pose proof (registered_name_plain _ _ Hfind) as Hplain.
    cbn [append validate_scan]. rewrite Hprev.
    replace (("{" =? "{")%char) with true by reflexivity.
    cbn [Z.add Z.ltb Z.compare Pos.compare Pos.compare_cont].
    rewrite validate_scan_app.
    rewrite validate_scan_plain
      by (eapply free_of_weaken; [exact contains_sub_4_6 | exact Hplain]).
    cbn [bind validate_scan].
    assert (Hlast : is_backslash (last_or (Some "{"%char) name) = false).
    { apply last_or_plain; [|reflexivity].
      eapply free_of_weaken; [exact contains_sub_bs_6 | exact Hplain]. }
    rewrite Hlast. split; [reflexivity|].
    change (String "{" (name ++ "}")) with ("{" ++ name ++ "}").
    rewrite !last_or_app. reflexivity.
  - apply andb_true_iff in Hok as [Hne Hfree].
    cbn [append validate_scan]. rewrite Hprev.
    replace (("(" =? "{")%char) with false by reflexivity.
    replace (("(" =? "}")%char) with false by reflexivity.
    replace (("(" =? "(")%char) with true by reflexivity.
    replace ((0 =? INT_MAX)%Z) with false by reflexivity.
    rewrite validate_scan_app.
    rewrite validate_scan_plain
      by (eapply free_of_weaken; [exact contains_sub_4_5b | exact Hfree]).
    cbn [bind validate_scan].
    assert (Hlast : is_backslash (last_or (Some "("%char) text) = false).
    { apply last_or_plain; [|reflexivity].
      eapply free_of_weaken; [exact contains_sub_bs_5 | exact Hfree]. }
    rewrite Hlast. split; [reflexivity|].
    change (String "(" (text ++ ")")) with ("(" ++ text ++ ")").
    rewrite !last_or_app. reflexivity.
Qed.

Lemma scan_segments (segments : list segment) :
  forall prev rest,
    forallb segment_ok segments = true ->
    is_backslash prev = false ->
    exists prev',
      is_backslash prev' = false
      /\ validate_scan (print_segments segments ++ rest) prev 0%Z 0%Z
         = validate_scan rest prev' 0%Z 0%Z.
Proof.
  induction segments as [|s segments IH]; intros prev rest Hok Hprev.
  - exists prev. now split.
  - cbn [forallb] in Hok. apply andb_true_iff in Hok as [Hs Hrest].
    destruct (scan_segment s prev Hs Hprev) as [Hscan Hlast].
    destruct (IH (last_or prev (print_segment s)) rest Hrest Hlast)
      as (prev' & Hprev' & Heq).
    exists prev'. split; [exact Hprev'|].
    cbn [print_segments]. rewrite append_assoc, validate_scan_app, Hscan.
    cbn [bind]. exact Heq.
Qed.

Lemma validate_segments (segments : list segment) :
  forallb segment_ok segments = true ->
  validate (print_segments segments) = Ok tt.
Proof.
  intros Hok. unfold validate.
  destruct (scan_segments segments None "" Hok eq_refl) as (prev' & _ & Heq).
  rewrite append_nil_r in Heq. now rewrite Heq.
Qed.

Lemma parse_segments (segments : list segment) :
  forallb segment_ok segments = true ->
  parse (print_segments segments) = Ok (render_segments segments).
Proof.
  intros Hok. apply runs_to_parse.
  pose proof (runs_segments segments "" "" "" (Ok (render_segments segments))
                Hok) as H.
  cbn [append] in H. rewrite append_nil_r in H. apply H.
  apply runs_to_end. unfold Str.length. cbn [String.length]. lia.
Qed.

(** ** Properties: expressions without alternation *)

(** X9. An expression put together from literal text without
    [{ } ( ) / \], escapes [\( \) \{ \} \/], registered parameters and
    non-empty optionals without [{ } ( ) \] passes the validator, and
    [transform] returns the anchored concatenation of what each piece
    stands for: the escaped text, the escaped character (a bare [/] for
    [\/]), the registry fragment in a capturing group, the escaped optional
    text in [(?: )?]. *)
Theorem segments_are_rendered (regex_error : string -> option string)
  (segments : list segment) :
  forallb segment_ok segments = true ->
  Str.empty (print_segments segments) = false ->
  regex_error (anchor (render_segments segments)) = None ->
  validate (print_segments segments) = Ok tt
  /\ parse (print_segments segments) = Ok (render_segments segments)
  /\ transform regex_error (print_segments segments)
     = Ok ("^" ++ render_segments segments ++ "$").
Proof.
  intros Hok Hne Hre.
  pose proof (validate_segments segments Hok) as Hval.
  pose proof (parse_segments segments Hok) as Hparse.
  repeat split; auto.
  unfold transform. rewrite Hne, Hval. cbn [bind]. rewrite Hparse.
  cbn [bind]. unfold validateRegex. now rewrite Hre.
Qed.

Lemma segments_are_rendered_witness :
  transform accept_all "I have {int} apple(s) \(or {string}\) in 1\/2 {}"
  = Ok ("^I have (-?\d+) apple(?:s)? \(or (" ++ STRING_REGEX
        ++ ")\) in 1/2 (.*)$").
Proof.
  pose proof (segments_are_rendered accept_all
    [SegLiteral "I have "; SegParameter "int"; SegLiteral " apple";
     SegOptional "s"; SegLiteral " "; SegEscaped "("; SegLiteral "or ";
     SegParameter "string"; SegEscaped ")"; SegLiteral " in 1";
     SegEscaped "/"; SegLiteral "2 "; SegParameter ""]
    eq_refl eq_refl eq_refl) as (_ & _ & H).
  exact H.
Defined.

(** X10. After any such pieces, a placeholder whose name holds no [}] and
    is not in the registry makes the parser throw
    [UnknownParameterTypeException] with exactly that name, whatever the
    name looks like and whatever follows. *)
Theorem unknown_parameter_after_segments (segments : list segment)
  (name rest : string) :
  forallb segment_ok segments = true ->
  free_of "}" name = true ->
  map_find name getParameterTypes = None ->
  parse (print_segments segments ++ "{" ++ name ++ "}" ++ rest)
  = Throw (UnknownParameterTypeException name).
Proof.
  intros Hok Hfree Hfind. apply runs_to_parse.
  pose proof (runs_segments segments "" ("{" ++ name ++ "}" ++ rest) ""
                (Throw (UnknownParameterTypeException name)) Hok) as H.
  cbn [append] in H. change (Str.length "") with 0 in H.
  rewrite N.add_0_l in H. apply H. clear H.
  apply runs_to_throw.
  - rewrite length_app_N, length_cons_N. lia.
  - now apply step_unknown_parameter.
Qed.

Lemma unknown_parameter_after_segments_witness :
  parse "I have {int-extra} cucumbers"
  = Throw (UnknownParameterTypeException "int-extra").
Proof.
  exact (unknown_parameter_after_segments [SegLiteral "I have "]
           "int-extra" " cucumbers" eq_refl eq_refl eq_refl).
Defined.

(** X11. After any such pieces, an opening parenthesis directly followed
    by a closing one makes the parser throw the generic exception whose
    message ends with the position of that opening parenthesis. *)
Theorem empty_optional_reports_position (segments : list segment)
  (rest : string) :
  forallb segment_ok segments = true ->
  parse (print_segments segments ++ "()" ++ rest)
  = Throw (CucumberExpressionpressionException
             ("Empty optional text is not allowed at position "
              ++ to_string (Str.length (print_segments segments)))).
Proof.
  intros Hok. apply runs_to_parse.
  pose proof (runs_segments segments "" ("()" ++ rest) ""
                (Throw (CucumberExpressionpressionException
                          ("Empty optional text is not allowed at position "
                           ++ to_string
                                (Str.length (print_segments segments)))))
                Hok) as H.
  cbn [append] in H. change (Str.length "") with 0 in H.
  rewrite N.add_0_l in H. apply H. clear H.
  apply runs_to_throw.
  - rewrite length_app_N, !length_cons_N. lia.
  - apply step_empty_optional.
Qed.

Lemma empty_optional_reports_position_witness :
  parse "three () mice"
  = Throw (CucumberExpressionpressionException
             "Empty optional text is not allowed at position 6").
Proof.
  exact (empty_optional_reports_position [SegLiteral "three "] " mice"
           eq_refl).
Defined.

(** ** The forward scan of alternatives, turn by turn *)

Lemma scans_to_step (e : string) (pos : N) (cur : string)
  (alts : list string) (pos' : N) (cur' : string) (alts' : list string)
  (o : outcome (N * list string)) :
  pos < Str.length e ->
  pos < pos' ->
  (forall fuel, collect_forward e (S fuel) pos cur alts
                = collect_forward e fuel pos' cur' alts') ->
  scans_to e pos' cur' alts' o -> scans_to e pos cur alts o.
Proof.
  intros Hlt Hadv Hstep Hrest fuel Hfuel.
  destruct fuel as [|fuel]; [lia|]. rewrite Hstep. apply Hrest. lia.
Qed.

Lemma word_char (c : ascii) :
  Str.contains " {}()/\" c = false ->
  c <> " "%char /\ c <> "{"%char /\ c <> "}"%char /\ c <> "("%char
  /\ c <> ")"%char /\ c <> "/"%char /\ c <> "\"%char.
Proof.
  intros H. repeat (apply contains_cons_false in H as [? H]).
  repeat split; congruence.
Qed.

Lemma collect_forward_char (e : string) (fuel : nat) (pos : N) (c : ascii)
  (cur : string) (alts : list string) :
  pos < Str.length e ->
  Str.at_ e pos = Ok c ->
  Str.contains " {}()/\" c = false ->
  collect_forward e (S fuel) pos cur alts
  = collect_forward e fuel (pos + 1) (cur ++ Str.singleton c) alts.
Proof.
  intros Hlt Hat Hc. apply word_char in Hc as (H1 & H2 & _ & H4 & _ & H6 & H7).
  cbn [collect_forward].
  replace (Str.length e <=? pos) with false
    by (symmetry; apply N.leb_gt; exact Hlt).
  rewrite Hat. cbn [bind].
  apply Ascii.eqb_neq in H1, H2, H4, H6, H7.
  rewrite H1, H2, H4, H6, H7. reflexivity.
Qed.

Lemma collect_forward_slash_turn (e : string) (fuel : nat) (pos : N)
  (cur : string) (alts : list string) :
  pos < Str.length e ->
  Str.at_ e pos = Ok "/"%char ->
  collect_forward e (S fuel) pos cur alts
  = collect_forward e fuel (pos + 1) "" (push_nonempty alts cur).
Proof.
  intros Hlt Hat. cbn [collect_forward].
  replace (Str.length e <=? pos) with false
    by (symmetry; apply N.leb_gt; exact Hlt).
  rewrite Hat. reflexivity.
Qed.

Lemma scans_word (w : string) :
  forall done rest cur alts o,
    word_ok w = true ->
    scans_to (done ++ w ++ rest) (Str.length done + Str.length w)
      (cur ++ w) alts o ->
    scans_to (done ++ w ++ rest) (Str.length done) cur alts o.
Proof.
  unfold word_ok.
  induction w as [|c w IH]; intros done rest cur alts o Hok Hrun.
  - rewrite append_nil_r in Hrun. change (Str.length "") with 0 in Hrun.
    now rewrite N.add_0_r in Hrun.
  - cbn [free_of] in Hok. apply andb_true_iff in Hok as [Hc Hw].
    apply negb_true_iff in Hc. cbn [append].
    apply (scans_to_step _ _ _ _ (Str.length done + 1)
             (cur ++ Str.singleton c) alts).
    + rewrite length_app_N, length_cons_N. lia.
    + lia.
    + intros fuel. apply collect_forward_char; auto using at_app_head.
      rewrite length_app_N, length_cons_N. lia.
    + specialize (IH (done ++ Str.singleton c) rest (cur ++ Str.singleton c)
                    alts o Hw).
      rewrite append_snoc in IH.
      replace (Str.length (done ++ Str.singleton c))
        with (Str.length done + 1) in IH
        by (rewrite length_app_N; unfold Str.length; cbn; lia).
      apply IH. rewrite append_snoc.
      replace (Str.length done + 1 + Str.length w)
        with (Str.length done + Str.length (String c w))
        by (rewrite length_cons_N; lia).
      exact Hrun.
Qed.

Lemma scans_stop (done tail cur : string) (alts : list string) :
  stops_scan tail = true ->
  scans_to (done ++ tail) (Str.length done) cur alts
    (Ok (Str.length done, push_nonempty alts cur)).
Proof.
  intros Hstop fuel Hfuel. destruct tail as [|c tail].
  - rewrite append_nil_r in *.
    destruct fuel; cbn [collect_forward]; now rewrite N.leb_refl.
  - destruct fuel as [|fuel].
    { rewrite length_app_N, length_cons_N in Hfuel. lia. }
    cbn [collect_forward].
    replace (Str.length (done ++ String c tail) <=? Str.length done)
      with false
      by (symmetry; apply N.leb_gt; rewrite length_app_N, length_cons_N; lia).
    rewrite at_app_head. cbn [bind]. cbn [stops_scan] in Hstop.
    now rewrite Hstop.
Qed.

Lemma push_nonempty_filter (alts : list string) (cur : string) :
  push_nonempty alts cur = (alts ++ filter nonempty [cur])%list.
Proof.
  unfold push_nonempty, nonempty. cbn [filter].
  destruct (Str.empty cur); cbn [negb]; [now rewrite app_nil_r | reflexivity].
Qed.

Lemma slashed_length (w : string) (ws : list string) :
  Str.length (slashed (w :: ws)) = 1 + Str.length w + Str.length (slashed ws).
Proof.
  cbn [slashed]. rewrite length_cons_N, length_app_N. lia.
Qed.

Lemma scans_slashed (ws : list string) :
  forall done cur alts tail,
    forallb word_ok ws = true ->
    stops_scan tail = true ->
    scans_to (done ++ slashed ws ++ tail) (Str.length done) cur alts
      (Ok (Str.length done + Str.length (slashed ws),
           (alts ++ filter nonempty (cur :: ws))%list)).
Proof.
  induction ws as [|w ws IH]; intros done cur alts tail Hok Hstop.
  - cbn [slashed append]. change (Str.length "") with 0.
    rewrite N.add_0_r, <- push_nonempty_filter. now apply scans_stop.
  - cbn [forallb] in Hok. apply andb_true_iff in Hok as [Hw Hws].
    cbn [slashed append].
    apply (scans_to_step _ _ _ _ (Str.length done + 1) ""
             (push_nonempty alts cur)).
    + rewrite length_app_N, length_cons_N. lia.
    + lia.
    + intros fuel. apply collect_forward_slash_turn; [|apply at_app_head].
      rewrite length_app_N, length_cons_N. lia.
    + rewrite (append_assoc w).
      pose proof (scans_word w (done ++ "/") (slashed ws ++ tail) ""
                    (push_nonempty alts cur) ) as Hword.
      rewrite (append_assoc done "/") in Hword. cbn [append] in Hword.
      replace (Str.length (done ++ "/")) with (Str.length done + 1) in Hword
        by (rewrite length_app_N; reflexivity).
      apply Hword; [exact Hw|].
      specialize (IH (done ++ String "/" w) w (push_nonempty alts cur) tail
                    Hws Hstop).
      rewrite (append_assoc done) in IH. cbn [append] in IH.
      replace (Str.length (done ++ String "/" w))
        with (Str.length done + 1 + Str.length w) in IH
        by (rewrite length_app_N, length_cons_N; lia).
      replace (Str.length done + Str.length (String "/" (w ++ slashed ws)))
        with (Str.length done + 1 + Str.length w + Str.length (slashed ws))
        by (rewrite length_cons_N, length_app_N; lia).
      replace (alts ++ filter nonempty (cur :: w :: ws))%list
        with (push_nonempty alts cur ++ filter nonempty (w :: ws))%list.
      * exact IH.
      * rewrite push_nonempty_filter, <- app_assoc.
        change (cur :: w :: ws) with ([cur] ++ w :: ws)%list.
        now rewrite filter_app.
Qed.

(** ** The backward walk over the word in front of a slash *)

Lemma get_last (done : string) (c : ascii) (rest : string) :
  Str.last_char done = Some c ->
  String.get (String.length done - 1) (done ++ rest) = Some c.
Proof.
  destruct done as [|c0 pre]; [discriminate|]. intros H.
  cbn [String.length append].
  replace (S (String.length pre) - 1)%nat with (String.length pre) by lia.
  now rewrite get_length_app.
Qed.

Lemma backtrack_word (done w rest : string) (inner : nat) :
  at_word_start done = true ->
  word_ok w = true ->
  forall j fuel,
    (j < String.length w)%nat -> (j + 2 <= fuel)%nat ->
    backtrack (done ++ w ++ rest) fuel inner
      (N.of_nat (String.length done + j)) (drop (S j) w)
    = Ok w.
Proof.
  intros Hstart Hok. unfold word_ok in Hok.
  assert (Hturn : forall j fuel,
             (j < String.length w)%nat ->
             backtrack (done ++ w ++ rest) (S fuel) inner
               (N.of_nat (String.length done + j)) (drop (S j) w)
             = if N.of_nat (String.length done + j) =? 0 then Ok (drop j w)
               else backtrack (done ++ w ++ rest) fuel inner
                      (N.of_nat (String.length done + j) - 1) (drop j w)).
  { intros j fuel Hj.
    destruct (get_lt_Some w j Hj) as [c Hc].
    assert (Hget : String.get (String.length done + j) (done ++ w ++ rest)
                   = Some c).
    { rewrite get_app_right, get_app_left by exact Hj. exact Hc. }
    pose proof (free_of_get _ _ _ _ Hok Hc) as Hclass.
    apply word_char in Hclass as (H1 & H2 & _ & H4 & H5 & _ & _).
    apply Ascii.eqb_neq in H1, H2, H4, H5.
    cbn [backtrack]. rewrite (at_get _ _ _ Hget). cbn [bind].
    rewrite H1, H2, H4, H5. cbn [orb].
    now rewrite <- (drop_get _ _ _ Hc). }
  induction j as [|j IH]; intros fuel Hj Hfuel.
  - destruct fuel as [|fuel]; [lia|]. rewrite (Hturn 0%nat fuel Hj).
    rewrite Nat.add_0_r. cbn [drop].
    unfold at_word_start in Hstart.
    destruct (Str.last_char done) as [c|] eqn:Hlast.
    + apply Ascii.eqb_eq in Hstart. subst c.
      assert (Hlen : (1 <= String.length done)%nat)
        by (destruct done; [discriminate | cbn; lia]).
      replace (N.of_nat (String.length done) =? 0) with false
        by (symmetry; apply N.eqb_neq; lia).
      destruct fuel as [|fuel]; [lia|]. cbn [backtrack].
      replace (N.of_nat (String.length done) - 1)
        with (N.of_nat (String.length done - 1)) by lia.
      rewrite (at_get _ _ _ (get_last done " " (w ++ rest) Hlast)).
      reflexivity.
    + apply last_char_None in Hlast. subst done. reflexivity.
  - destruct fuel as [|fuel]; [lia|]. rewrite (Hturn (S j) fuel Hj).
    replace (N.of_nat (String.length done + S j) =? 0) with false
      by (symmetry; apply N.eqb_neq; lia).
    replace (N.of_nat (String.length done + S j) - 1)
      with (N.of_nat (String.length done + j)) by lia.
    apply IH; lia.
Qed.

Lemma size_sub_one (pos : N) :
  1 <= pos -> pos < 2 ^ 64 -> size_sub pos 1 = pos - 1.
Proof.
  intros H1 H2. unfold size_sub.
  replace (pos + 2 ^ 64 - 1) with ((pos - 1) + 1 * 2 ^ 64) by lia.
  rewrite N.Div0.mod_add. apply N.mod_small. lia.
Qed.

Lemma nonempty_length (w : string) :
  Str.empty w = false -> (1 <= String.length w)%nat.
Proof. destruct w; [discriminate | cbn; lia]. Qed.

(** What [collectAlternativesFromHere] gathers around the first slash of a
    run of words. *)
Lemma collect_group (done w1 : string) (ws : list string) (tail : string) :
  Str.length (done ++ w1 ++ slashed ws ++ tail) < 2 ^ 64 ->
  at_word_start done = true ->
  Str.empty w1 = false ->
  word_ok w1 = true ->
  forallb word_ok ws = true ->
  stops_scan tail = true ->
  collectAlternativesFromHere (done ++ w1 ++ slashed ws ++ tail)
    (size_sub (Str.length done + Str.length w1) 1)
  = Ok (Str.length done + Str.length w1 + Str.length (slashed ws),
        effective (w1, ws)).
Proof.
  intros Hsize Hstart Hne Hok Hws Hstop.
  pose proof (nonempty_length w1 Hne) as Hlen.
  assert (Hpos : Str.length done + Str.length w1 < 2 ^ 64).
  { rewrite !length_app_N in Hsize. lia. }
  unfold collectAlternativesFromHere.
  rewrite size_sub_one by (unfold Str.length; lia || exact Hpos).
  replace (Str.length done + Str.length w1 - 1)
    with (N.of_nat (String.length done + (String.length w1 - 1)))
    by (unfold Str.length; lia).
  pose proof (backtrack_word done w1 (slashed ws ++ tail)
                (S (String.length (done ++ w1 ++ slashed ws ++ tail)))
                Hstart Hok (String.length w1 - 1)%nat
                (S (S (String.length (done ++ w1 ++ slashed ws ++ tail)))))
    as Hback.
  replace (S (String.length w1 - 1)) with (String.length w1) in Hback by lia.
  rewrite (drop_all w1 (String.length w1)) in Hback by lia.
  rewrite Hback.
  - cbn [bind]. unfold push_nonempty at 1. rewrite Hne.
    replace (size_add
               (N.of_nat (String.length done + (String.length w1 - 1))) 1)
      with (Str.length (done ++ w1)).
    + rewrite <- (append_assoc done w1).
      pose proof (scans_slashed ws (done ++ w1) "" [w1] tail Hws Hstop)
        as Hscan.
      rewrite Hscan.
      * rewrite length_app_N. reflexivity.
      * unfold Str.length. lia.
    + unfold size_add. rewrite N.mod_small.
      * rewrite length_app_N. unfold Str.length. lia.
      * unfold Str.length in Hpos. lia.
  - lia.
  - rewrite !length_append. lia.
Qed.

(** ** Joining and splicing *)

Lemma contains_sub_paren_word (x : ascii) :
  Str.contains "(" x = true -> Str.contains " {}()/\" x = true.
Proof.
  cbn [Str.contains]. repeat rewrite orb_true_iff. tauto.
Qed.

Lemma join_alternatives_cons (first : bool) (a : string)
  (rest : list string) (r : string) :
  join_alternatives first (a :: rest) r
  = (text <- parseAlternativeText a ;;
     join_alternatives false rest
       ((if first then r else r ++ "|") ++ text)).
Proof. reflexivity. Qed.

Lemma join_alternatives_plain (rest : list string) :
  forall a first r,
    forallb word_ok (a :: rest) = true ->
    join_alternatives first (a :: rest) r
    = Ok ((if first then r else r ++ "|")
          ++ joined "|" (map escapeRegexChars (a :: rest))).
Proof.
  induction rest as [|b rest IH]; intros a first r Hok;
    cbn [forallb] in Hok; apply andb_true_iff in Hok as [Ha Hrest];
    rewrite join_alternatives_cons;
    rewrite parseAlternativeText_plain
      by (eapply free_of_weaken; [exact contains_sub_paren_word | exact Ha]);
    cbn [bind].
  - reflexivity.
  - rewrite (IH b false _ Hrest).
    cbn [map joined]. f_equal. now rewrite !append_assoc.
Qed.

Lemma rfind_aux_app (c : ascii) (a b : string) :
  forall idx acc,
    Str.rfind_aux c (a ++ b) idx acc
    = Str.rfind_aux c b (idx + Str.length a) (Str.rfind_aux c a idx acc).
Proof.
  induction a as [|x a IH]; intros idx acc; cbn [append Str.rfind_aux].
  - change (Str.length "") with 0. now rewrite N.add_0_r.
  - rewrite IH, length_cons_N. f_equal. lia.
Qed.

Lemma rfind_aux_free (c : ascii) (b : string) :
  free_of (Str.singleton c) b = true ->
  forall idx acc, Str.rfind_aux c b idx acc = acc.
Proof.
  induction b as [|x b IH]; intros Hfree idx acc; [reflexivity|].
  cbn [free_of] in Hfree. apply andb_true_iff in Hfree as [Hx Hb].
  apply negb_true_iff in Hx. apply contains_cons_false in Hx as [Hx _].
  cbn [Str.rfind_aux]. apply Ascii.eqb_neq in Hx.
  rewrite Ascii.eqb_sym in Hx. rewrite Hx. now apply IH.
Qed.

Lemma free_of_app (chars a b : string) :
  free_of chars (a ++ b) = free_of chars a && free_of chars b.
Proof.
  induction a as [|x a IH]; [reflexivity|].
  cbn [append free_of]. now rewrite IH, andb_assoc.
Qed.

Lemma escapeRegexChars_no_space (w : string) :
  free_of " " w = true -> free_of " " (escapeRegexChars w) = true.
Proof.
  induction w as [|c w IH]; intros H; [reflexivity|].
  cbn [free_of] in H. apply andb_true_iff in H as [Hc Hw].
  cbn [escapeRegexChars]. rewrite free_of_app, (IH Hw), andb_true_r.
  unfold escape_char, Str.singleton.
  destruct (is_regex_special c); cbn [free_of]; rewrite Hc; reflexivity.
Qed.

Lemma last_char_Some_split (s : string) (c : ascii) :
  Str.last_char s = Some c -> exists front, s = front ++ Str.singleton c.
Proof.
  induction s as [|x s IH]; [discriminate|].
  rewrite last_char_cons. destruct (Str.last_char s) as [d|] eqn:E.
  - intros H. inversion H; subst. destruct (IH eq_refl) as [front ->].
    now exists (String x front).
  - intros H. inversion H; subst. apply last_char_None in E. subst s.
    now exists "".
Qed.

Lemma contains_sub_space_word (x : ascii) :
  Str.contains " " x = true -> Str.contains " {}()/\" x = true.
Proof.
  cbn [Str.contains]. repeat rewrite orb_true_iff. tauto.
Qed.

(** Cutting the output back to its last space, when the word emitted
    since a word start holds none. *)
Lemma truncate_to_word_start (r0 w : string) :
  at_word_start r0 = true ->
  word_ok w = true ->
  match Str.rfind " " (r0 ++ escapeRegexChars w) with
  | Some lastSpace => Str.substr (r0 ++ escapeRegexChars w) 0 (lastSpace + 1)
  | None => Ok ""
  end = Ok r0.
Proof.
  intros Hstart Hok.
  assert (Hfree : free_of " " (escapeRegexChars w) = true).
  { apply escapeRegexChars_no_space.
    eapply free_of_weaken; [exact contains_sub_space_word | exact Hok]. }
  unfold Str.rfind. rewrite rfind_aux_app, rfind_aux_free by exact Hfree.
  unfold at_word_start in Hstart.
  destruct (Str.last_char r0) as [c|] eqn:Hlast.
  - apply Ascii.eqb_eq in Hstart. subst c.
    destruct (last_char_Some_split _ _ Hlast) as [front ->].
    rewrite rfind_aux_app. cbn [Str.rfind_aux Str.singleton].
    rewrite Ascii.eqb_refl.
    rewrite substr_in_range by lia. f_equal.
    replace (N.to_nat (0 + Str.length front + 1))
      with (String.length (front ++ Str.singleton " "))
      by (rewrite length_append; unfold Str.length; cbn; lia).
    apply substring_prefix.
  - apply last_char_None in Hlast. subst r0. reflexivity.
Qed.

(** ** The turn of [parse] on the first slash of a run of words *)

Lemma scan_wordEnd_ok (pos : N) (r : string) (c : ascii) :
  Str.last_char r = Some c -> exists n, scan_wordEnd pos r = Ok n.
Proof.
  intros H. unfold scan_wordEnd, Str.back. rewrite H. cbn [bind].
  destruct (0 <? pos); [|eauto].
  match goal with |- context [if ?t then _ else _] => destruct t end; eauto.
Qed.

Lemma escapeRegexChars_last (w : string) :
  Str.empty w = false -> exists c, Str.last_char (escapeRegexChars w) = Some c.
Proof.
  destruct w as [|x w]; [discriminate|]. intros _.
  destruct (Str.last_char (escapeRegexChars (String x w))) as [c|] eqn:E;
    [eauto|].
  apply last_char_None in E. cbn [escapeRegexChars] in E.
  unfold escape_char, Str.singleton in E.
  destruct (is_regex_special x); discriminate.
Qed.

Lemma forallb_filter_ok (ws : list string) :
  forallb word_ok ws = true -> forallb word_ok (filter nonempty ws) = true.
Proof.
  induction ws as [|w ws IH]; [reflexivity|]. cbn [forallb filter].
  intros H. apply andb_true_iff in H as [Hw Hws].
  destruct (nonempty w); cbn [forallb]; [rewrite Hw|]; auto.
Qed.

Lemma step_group (done w1 : string) (ws : list string) (tail r0 : string) :
  Str.length (done ++ w1 ++ slashed ws ++ tail) < 2 ^ 64 ->
  at_word_start done = true ->
  at_word_start r0 = true ->
  Str.empty w1 = false ->
  word_ok w1 = true ->
  forallb word_ok ws = true ->
  ws <> [] ->
  stops_scan tail = true ->
  parse_step (done ++ w1 ++ slashed ws ++ tail)
    (Str.length done + Str.length w1) (r0 ++ escapeRegexChars w1)
  = Ok (Str.length done + Str.length w1 + Str.length (slashed ws),
        r0 ++ render_group (w1, ws)).
Proof.
  intros Hsize Hdone Hr0 Hne Hok Hws Hsome Hstop.
  assert (Hat : Str.at_ (done ++ w1 ++ slashed ws ++ tail)
                  (Str.length done + Str.length w1) = Ok "/"%char).
  { destruct ws as [|w ws]; [congruence|].
    rewrite <- (append_assoc done w1), <- length_app_N.
    cbn [slashed append]. apply at_app_head. }
  unfold parse_step. rewrite Hat. cbn [bind].
  rewrite escape_test_other by discriminate. cbn [bind].
  replace (("/" =? "{")%char) with false by reflexivity.
  replace (("/" =? "(")%char) with false by reflexivity.
  replace (("/" =? "/")%char) with true by reflexivity.
  unfold parseAlternatives.
  destruct (escapeRegexChars_last w1 Hne) as [c Hc].
  destruct (scan_wordEnd_ok (Str.length done + Str.length w1)
              (r0 ++ escapeRegexChars w1) c) as [n Hn].
  { now rewrite last_char_app, Hc. }
  rewrite Hn. cbn [bind].
  rewrite collect_group by assumption. cbn [bind].
  unfold render_group.
  destruct (1 <? List.length (effective (w1, ws)))%nat; [|reflexivity].
  rewrite truncate_to_word_start by assumption. cbn [bind].
  unfold effective. cbn [fst snd].
  rewrite join_alternatives_plain.
  - cbn [bind]. now rewrite !append_assoc.
  - cbn [forallb]. rewrite Hok. now apply forallb_filter_ok.
Qed.

Lemma contains_sub_word_lit (x : ascii) :
  Str.contains "{}()/\" x = true -> Str.contains " {}()/\" x = true.
Proof.
  cbn [Str.contains]. repeat rewrite orb_true_iff. tauto.
Qed.

(** A whole run of words: the literal turns over the first word, then the
    turn on the first slash when there is one. *)
Lemma runs_group (g : word_group) (done tail r0 : string)
  (o : outcome string) :
  Str.length (done ++ print_group g ++ tail) < 2 ^ 64 ->
  group_ok g = true ->
  at_word_start done = true ->
  at_word_start r0 = true ->
  stops_scan tail = true ->
  runs_to (done ++ print_group g ++ tail)
    (Str.length done + Str.length (print_group g)) (r0 ++ render_group g) o ->
  runs_to (done ++ print_group g ++ tail) (Str.length done) r0 o.
Proof.
  destruct g as [w1 ws]. unfold group_ok, print_group. cbn [fst snd].
  intros Hsize Hok Hdone Hr0 Hstop Hrun.
  apply andb_true_iff in Hok as [Hok Hws].
  apply andb_true_iff in Hok as [Hne Hw1]. apply negb_true_iff in Hne.
  rewrite (append_assoc w1) in *.
  apply runs_literal.
  { eapply free_of_weaken; [exact contains_sub_word_lit | exact Hw1]. }
  destruct ws as [|w ws].
  - unfold render_group, effective in Hrun. cbn [fst snd filter] in Hrun.
    cbn [List.length Nat.ltb Nat.leb] in Hrun.
    cbn [slashed] in *. rewrite append_nil_r in Hrun. exact Hrun.
  - eapply runs_to_step; [| apply step_group; try assumption; discriminate
                          | | ].
    + rewrite !length_app_N, slashed_length. lia.
    + rewrite slashed_length. lia.
    + rewrite length_app_N, N.add_assoc in Hrun. exact Hrun.
Qed.

Lemma at_word_start_space (s : string) : at_word_start (s ++ " ") = true.
Proof.
  unfold at_word_start.
  change (s ++ " ") with (s ++ Str.singleton " ").
  now rewrite last_char_snoc.
Qed.

Lemma runs_groups (gs : list word_group) :
  forall g done tail r0 o,
    Str.length (done ++ joined " " (map print_group (g :: gs)) ++ tail)
    < 2 ^ 64 ->
    forallb group_ok (g :: gs) = true ->
    at_word_start done = true ->
    at_word_start r0 = true ->
    stops_scan tail = true ->
    runs_to (done ++ joined " " (map print_group (g :: gs)) ++ tail)
      (Str.length done + Str.length (joined " " (map print_group (g :: gs))))
      (r0 ++ joined " " (map render_group (g :: gs))) o ->
    runs_to (done ++ joined " " (map print_group (g :: gs)) ++ tail)
      (Str.length done) r0 o.
Proof.
  induction gs as [|g' gs IH]; intros g done tail r0 o Hsize Hok Hdone Hr0
                                 Hstop Hrun;
    cbn [forallb] in Hok; apply andb_true_iff in Hok as [Hg Hrest].
  - cbn [map joined] in *. now apply runs_group.
  - change (joined " " (map print_group (g :: g' :: gs)))
      with (print_group g ++ " " ++ joined " " (map print_group (g' :: gs)))
      in *.
    change (joined " " (map render_group (g :: g' :: gs)))
      with (render_group g ++ " "
            ++ joined " " (map render_group (g' :: gs))) in *.
    rewrite !append_assoc in *.
    apply runs_group; try assumption; try reflexivity.
    specialize (IH g' ((done ++ print_group g) ++ " ") tail
                  ((r0 ++ render_group g) ++ " ") o).
    rewrite !append_assoc in IH.
    pose proof (runs_literal " " (done ++ print_group g)
                  (joined " " (map print_group (g' :: gs)) ++ tail)
                  (r0 ++ render_group g) o eq_refl) as Hspace.
    rewrite !append_assoc in Hspace. rewrite length_app_N in Hspace.
    apply Hspace. clear Hspace.
    cbn [escapeRegexChars]. change (escape_char " " ++ "") with " ".
    replace (Str.length done + Str.length (print_group g) + Str.length " ")
      with (Str.length (done ++ print_group g ++ " "))
      by (rewrite !length_app_N; lia).
    apply IH.
    + exact Hsize.
    + exact Hrest.
    + rewrite <- !append_assoc. apply at_word_start_space.
    + rewrite <- !append_assoc. apply at_word_start_space.
    + exact Hstop.
    + replace (Str.length (done ++ print_group g ++ " ")
               + Str.length (joined " " (map print_group (g' :: gs))))
        with (Str.length done
              + Str.length (print_group g ++ " "
                            ++ joined " " (map print_group (g' :: gs))))
        by (rewrite !length_app_N; lia).
      exact Hrun.
Qed.

Lemma free_of_slashed (ws : list string) :
  forallb word_ok ws = true -> free_of "{}()\" (slashed ws) = true.
Proof.
  induction ws as [|w ws IH]; [reflexivity|]. cbn [forallb slashed].
  intros H. apply andb_true_iff in H as [Hw Hws].
  change (String "/" (w ++ slashed ws)) with ("/" ++ w ++ slashed ws).
  rewrite !free_of_app, (IH Hws), andb_true_r.
  replace (free_of "{}()\" "/") with true by reflexivity. cbn [andb].
  eapply free_of_weaken; [|exact Hw].
  intros x. cbn [Str.contains]. repeat rewrite orb_true_iff. tauto.
Qed.

Lemma free_of_group (g : word_group) :
  group_ok g = true -> free_of "{}()\" (print_group g) = true.
Proof.
  destruct g as [w1 ws]. unfold group_ok, print_group. cbn [fst snd].
  intros H. apply andb_true_iff in H as [H Hws].
  apply andb_true_iff in H as [_ Hw1].
  rewrite free_of_app, (free_of_slashed ws Hws), andb_true_r.
  eapply free_of_weaken; [|exact Hw1].
  intros x. cbn [Str.contains]. repeat rewrite orb_true_iff. tauto.
Qed.

Lemma free_of_groups (gs : list word_group) :
  forallb group_ok gs = true ->
  free_of "{}()\" (joined " " (map print_group gs)) = true.
Proof.
  induction gs as [|g gs IH]; [reflexivity|]. cbn [forallb].
  intros H. apply andb_true_iff in H as [Hg Hgs].
  destruct gs as [|g' gs]; [now apply free_of_group|].
  change (joined " " (map print_group (g :: g' :: gs)))
    with (print_group g ++ " " ++ joined " " (map print_group (g' :: gs))).
  rewrite !free_of_app, (free_of_group g Hg), (IH Hgs). reflexivity.
Qed.

Lemma groups_not_empty (g : word_group) (gs : list word_group) :
  group_ok g = true ->
  Str.empty (joined " " (map print_group (g :: gs))) = false.
Proof.
  destruct g as [w1 ws]. unfold group_ok. cbn [fst snd]. intros H.
  apply andb_true_iff in H as [H _]. apply andb_true_iff in H as [Hne _].
  apply negb_true_iff in Hne.
  destruct w1 as [|c w1]; [discriminate|].
  destruct gs; reflexivity.
Qed.

(** ** Properties: runs of words joined by slashes *)

(** X12. Take words without [space { } ( ) / \], gathered in runs joined
    by [/] (the first word of a run not empty), the runs separated by
    single spaces. [transform] turns every run with at least two non-empty
    words into one group [(?:w1|w2|...)] of the escaped words, in place of
    the first word it had already emitted, and leaves a run with one
    non-empty word as that escaped word: an empty word, as in [a//b] or
    [a/], is dropped without any error. *)
Theorem word_runs_are_rendered (regex_error : string -> option string)
  (g : word_group) (gs : list word_group) :
  Str.length (joined " " (map print_group (g :: gs))) < 2 ^ 64 ->
  forallb group_ok (g :: gs) = true ->
  regex_error (anchor (joined " " (map render_group (g :: gs)))) = None ->
  parse (joined " " (map print_group (g :: gs)))
  = Ok (joined " " (map render_group (g :: gs)))
  /\ transform regex_error (joined " " (map print_group (g :: gs)))
     = Ok ("^" ++ joined " " (map render_group (g :: gs)) ++ "$").
Proof.
  intros Hsize Hok Hre.
  assert (Hparse : parse (joined " " (map print_group (g :: gs)))
                   = Ok (joined " " (map render_group (g :: gs)))).
  { apply runs_to_parse.
    pose proof (runs_groups gs g "" "" ""
                  (Ok (joined " " (map render_group (g :: gs))))) as H.
    cbn [append] in H. rewrite append_nil_r in H.
    apply H; try assumption; try reflexivity.
    apply runs_to_end. change (Str.length "") with 0. lia. }
  split; [exact Hparse|].
  unfold transform.
  rewrite groups_not_empty
    by (cbn [forallb] in Hok; now apply andb_true_iff in Hok as [Hg _]).
  rewrite validate_plain
    by (eapply free_of_weaken;
        [exact contains_sub_4_5b | now apply free_of_groups]).
  cbn [bind]. rewrite Hparse. cbn [bind]. unfold validateRegex.
  now rewrite Hre.
Qed.

Lemma word_runs_are_rendered_witness :
  parse "kitchen/bedroom//hall for cat/ and a.b/c|d"
  = Ok "(?:kitchen|bedroom|hall) for cat and (?:a\.b|c\|d)"
  /\ transform accept_all "kitchen/bedroom//hall for cat/ and a.b/c|d"
     = Ok "^(?:kitchen|bedroom|hall) for cat and (?:a\.b|c\|d)$".
Proof.
  exact (word_runs_are_rendered accept_all
           ("kitchen", ["bedroom"; ""; "hall"])
           [("for", []); ("cat", [""]); ("and", []); ("a.b", ["c|d"])]
           eq_refl eq_refl eq_refl).
Defined.

(** ** The loop of [parseAlternativeText], turn by turn *)

Lemma renders_to_end (text : string) (i : N) (r : string) :
  Str.length text <= i -> renders_to text i r (Ok r).
Proof.
  intros H fuel _. apply N.leb_le in H.
  destruct fuel; cbn [parseAlternativeText_loop]; now rewrite H.
Qed.

Lemma renders_to_step (text : string) (i : N) (r : string) (i' : N)
  (r' : string) (o : outcome string) :
  i < Str.length text ->
  i < i' ->
  (forall fuel, parseAlternativeText_loop (S fuel) text i r
                = parseAlternativeText_loop fuel text i' r') ->
  renders_to text i' r' o -> renders_to text i r o.
Proof.
  intros Hlt Hadv Hstep Hrest fuel Hfuel.
  destruct fuel as [|fuel]; [lia|]. rewrite Hstep. apply Hrest. lia.
Qed.

Lemma renders_literal (t : string) :
  forall done rest r o,
    free_of "(" t = true ->
    renders_to (done ++ t ++ rest) (Str.length done + Str.length t)
      (r ++ escapeRegexChars t) o ->
    renders_to (done ++ t ++ rest) (Str.length done) r o.
Proof.
  induction t as [|c t IH]; intros done rest r o Hfree Hrun.
  - rewrite append_nil_r in Hrun. change (Str.length "") with 0 in Hrun.
    now rewrite N.add_0_r in Hrun.
  - cbn [free_of] in Hfree. apply andb_true_iff in Hfree as [Hc Ht].
    apply negb_true_iff in Hc. apply contains_cons_false in Hc as [Hc _].
    cbn [append].
    assert (Hlt : Str.length done
                  < Str.length (done ++ String c (t ++ rest)))
      by (rewrite length_app_N, length_cons_N; lia).
    apply (renders_to_step _ _ _ (Str.length done + 1) (r ++ escape_char c)).
    + exact Hlt.
    + lia.
    + intros fuel. cbn [parseAlternativeText_loop].
      replace (Str.length (done ++ String c (t ++ rest)) <=? Str.length done)
        with false by (symmetry; apply N.leb_gt; exact Hlt).
      rewrite at_app_head. cbn [bind].
      apply not_eq_sym in Hc. apply Ascii.eqb_neq in Hc. now rewrite Hc.
    + specialize (IH (done ++ Str.singleton c) rest (r ++ escape_char c) o
                    Ht).
      rewrite append_snoc in IH.
      replace (Str.length (done ++ Str.singleton c))
        with (Str.length done + 1) in IH
        by (rewrite length_app_N; unfold Str.length; cbn; lia).
      apply IH. rewrite append_assoc.
      replace (Str.length done + 1 + Str.length t)
        with (Str.length done + Str.length (String c t))
        by (rewrite length_cons_N; lia).
      exact Hrun.
Qed.

Lemma renders_optional (done t rest r : string) (o : outcome string) :
  free_of ")" t = true ->
  Str.empty t = false ->
  renders_to (done ++ String "(" (t ++ String ")" rest))
    (Str.length done + 1 + Str.length t + 1)
    (r ++ "(?:" ++ escapeRegexChars t ++ ")?") o ->
  renders_to (done ++ String "(" (t ++ String ")" rest)) (Str.length done)
    r o.
Proof.
  intros Hfree Hne Hrun.
  assert (Hlt : Str.length done
                < Str.length (done ++ String "(" (t ++ String ")" rest)))
    by (rewrite length_app_N, length_cons_N; lia).
  eapply renders_to_step; [exact Hlt | | | exact Hrun]; [lia|].
  intros fuel. cbn [parseAlternativeText_loop].
  replace (Str.length (done ++ String "(" (t ++ String ")" rest))
           <=? Str.length done)
    with false by (symmetry; apply N.leb_gt; exact Hlt).
  rewrite at_app_head. cbn [bind].
  replace (("(" =? "(")%char) with true by reflexivity.
  rewrite find_closing by (discriminate || assumption).
  rewrite substr_body. cbn [bind]. now rewrite Hne.
Qed.

Lemma renders_piece (s : segment) (done rest r : string)
  (o : outcome string) :
  alternative_piece_ok s = true ->
  renders_to (done ++ print_segment s ++ rest)
    (Str.length done + Str.length (print_segment s))
    (r ++ render_segment s) o ->
  renders_to (done ++ print_segment s ++ rest) (Str.length done) r o.
Proof.
  intros Hok Hrun. rewrite print_segment_length in Hrun.
  destruct s as [t|c|name|t]; cbn [alternative_piece_ok] in Hok;
    try discriminate.
  - now apply renders_literal.
  - apply andb_true_iff in Hok as [Hne Hfree]. apply negb_true_iff in Hne.
    cbn [print_segment render_segment] in *.
    cbn [append] in *. rewrite append_assoc in *. cbn [append] in *.
    apply renders_optional; try assumption.
    replace (Str.length done + 1 + Str.length t + 1)
      with (Str.length done + (1 + Str.length t + 1)) by lia.
    exact Hrun.
Qed.

Lemma renders_pieces (pieces : list segment) :
  forall done rest r o,
    forallb alternative_piece_ok pieces = true ->
    renders_to (done ++ print_segments pieces ++ rest)
      (Str.length done + Str.length (print_segments pieces))
      (r ++ render_segments pieces) o ->
    renders_to (done ++ print_segments pieces ++ rest) (Str.length done) r o.
Proof.
  induction pieces as [|s pieces IH]; intros done rest r o Hok Hrun.
  - cbn [print_segments render_segments append] in *.
    rewrite append_nil_r in Hrun. change (Str.length "") with 0 in Hrun.
    now rewrite N.add_0_r in Hrun.
  - cbn [forallb] in Hok. apply andb_true_iff in Hok as [Hs Hrest].
    cbn [print_segments render_segments] in *.
    rewrite (append_assoc (print_segment s)) in *.
    apply renders_piece; [exact Hs|].
    specialize (IH (done ++ print_segment s) rest (r ++ render_segment s) o
                  Hrest).
    rewrite (append_assoc done) in IH. rewrite length_app_N in IH.
    apply IH.
    rewrite append_assoc. rewrite length_app_N in Hrun.
    rewrite N.add_assoc in Hrun. exact Hrun.
Qed.

Lemma renders_to_whole (text : string) (o : outcome string) :
  renders_to text 0 "" o -> parseAlternativeText text = o.
Proof. intros H. apply H. unfold Str.length. lia. Qed.

Lemma find_aux_none (c : ascii) (s : string) :
  free_of (Str.singleton c) s = true ->
  forall idx pos, Str.find_aux c s idx pos = None.
Proof.
  induction s as [|x s IH]; intros Hfree idx pos; [reflexivity|].
  cbn [free_of] in Hfree. apply andb_true_iff in Hfree as [Hx Hs].
  apply negb_true_iff in Hx. apply contains_cons_false in Hx as [Hx _].
  cbn [Str.find_aux]. apply Ascii.eqb_neq in Hx.
  rewrite Ascii.eqb_sym in Hx. rewrite Hx, andb_false_r. now apply IH.
Qed.

Lemma find_no_closing (c o : ascii) (done rest : string) :
  o <> c ->
  free_of (Str.singleton c) rest = true ->
  Str.find c (done ++ String o rest) (Str.length done) = None.
Proof.
  intros Hoc Hfree. unfold Str.find. rewrite find_aux_skip by lia.
  apply find_aux_none. cbn [free_of Str.contains Str.singleton].
  rewrite Hfree. apply Ascii.eqb_neq in Hoc. rewrite Ascii.eqb_sym in Hoc.
  now rewrite Hoc.
Qed.

(** ** Properties: the text of one alternative *)

(** X13. [parseAlternativeText] renders an alternative made of text
    without [(] and of non-empty optionals [(...)] without [)] inside as
    the escaped text with each optional turned into [(?:...)?]; behind
    such pieces, [()] makes it throw the generic exception "Empty optional
    text is not allowed" (no position), and a [(] that no [)] follows is
    kept as the literal [\(]. *)
Theorem alternative_text_is_rendered (pieces : list segment)
  (rest : string) :
  forallb alternative_piece_ok pieces = true ->
  parseAlternativeText (print_segments pieces) = Ok (render_segments pieces)
  /\ parseAlternativeText (print_segments pieces ++ "()" ++ rest)
     = Throw (CucumberExpressionpressionException
                "Empty optional text is not allowed")
  /\ (free_of "()" rest = true ->
      parseAlternativeText (print_segments pieces ++ "(" ++ rest)
      = Ok (render_segments pieces ++ "\(" ++ escapeRegexChars rest)).
Proof.
  intros Hok. split; [|split].
  - apply renders_to_whole.
    pose proof (renders_pieces pieces "" "" ""
                  (Ok (render_segments pieces)) Hok) as H.
    cbn [append] in H. rewrite append_nil_r in H. apply H.
    apply renders_to_end. change (Str.length "") with 0. lia.
  - apply renders_to_whole.
    pose proof (renders_pieces pieces "" ("()" ++ rest) ""
                  (Throw (CucumberExpressionpressionException
                            "Empty optional text is not allowed")) Hok) as H.
    cbn [append] in H. change (Str.length "") with 0 in H.
    rewrite N.add_0_l in H. apply H. clear H.
    intros fuel Hfuel.
    assert (Hlt : Str.length (print_segments pieces)
                  < Str.length (print_segments pieces
                                ++ String "(" (String ")" rest)))
      by (rewrite length_app_N, !length_cons_N; lia).
    destruct fuel as [|fuel]; [lia|]. cbn [parseAlternativeText_loop].
    replace (Str.length (print_segments pieces
                         ++ String "(" (String ")" rest))
             <=? Str.length (print_segments pieces))
      with false by (symmetry; apply N.leb_gt; exact Hlt).
    rewrite at_app_head. cbn [bind].
    replace (("(" =? "(")%char) with true by reflexivity.
    pose proof (find_closing ")" "(" (print_segments pieces) "" rest)
      as Hfind.
    cbn [append] in Hfind. rewrite Hfind by (discriminate || reflexivity).
    pose proof (substr_body "(" (print_segments pieces) "" (String ")" rest))
      as Hsub.
    cbn [append] in Hsub. rewrite Hsub. reflexivity.
  - intros Hfree. apply renders_to_whole.
    pose proof (renders_pieces pieces "" ("(" ++ rest) ""
                  (Ok (render_segments pieces ++ "\("
                       ++ escapeRegexChars rest)) Hok) as H.
    cbn [append] in H. change (Str.length "") with 0 in H.
    rewrite N.add_0_l in H. apply H. clear H.
    assert (Hlt : Str.length (print_segments pieces)
                  < Str.length (print_segments pieces ++ String "(" rest))
      by (rewrite length_app_N, length_cons_N; lia).
    assert (Hparen : free_of ")" rest = true).
    { eapply free_of_weaken; [|exact Hfree].
      intros x. cbn [Str.contains]. repeat rewrite orb_true_iff. tauto. }
    assert (Hopen : free_of "(" rest = true).
    { eapply free_of_weaken; [|exact Hfree].
      intros x. cbn [Str.contains]. repeat rewrite orb_true_iff. tauto. }
    apply (renders_to_step _ _ _ (Str.length (print_segments pieces) + 1)
             (render_segments pieces ++ "\(")).
    + exact Hlt.
    + lia.
    + intros fuel. cbn [parseAlternativeText_loop].
      replace (Str.length (print_segments pieces ++ String "(" rest)
               <=? Str.length (print_segments pieces))
        with false by (symmetry; apply N.leb_gt; exact Hlt).
      rewrite at_app_head. cbn [bind].
      replace (("(" =? "(")%char) with true by reflexivity.
      rewrite find_no_closing by (discriminate || assumption).
      reflexivity.
    + pose proof (renders_literal rest (print_segments pieces ++ "(") ""
                    (render_segments pieces ++ "\(")
                    (Ok (render_segments pieces ++ "\("
                         ++ escapeRegexChars rest)) Hopen) as Hlit.
      rewrite append_nil_r in Hlit.
      rewrite (append_assoc (print_segments pieces)) in Hlit.
      cbn [append] in Hlit.
      replace (Str.length (print_segments pieces ++ "("))
        with (Str.length (print_segments pieces) + 1) in Hlit
        by (rewrite length_app_N; reflexivity).
      apply Hlit. rewrite append_assoc. cbn [append].
      apply renders_to_end. rewrite length_app_N, length_cons_N. lia.
Qed.

Lemma alternative_text_is_rendered_witness :
  parseAlternativeText "rat(s).x(es)" = Ok "rat(?:s)?\.x(?:es)?"
  /\ parseAlternativeText "rat(s)()" =
       Throw (CucumberExpressionpressionException
                "Empty optional text is not allowed")
  /\ parseAlternativeText "rat(s" = Ok "rat\(s".
Proof.
  pose proof (alternative_text_is_rendered
                [SegLiteral "rat"; SegOptional "s"; SegLiteral ".x";
                 SegOptional "es"] "" eq_refl) as (H1 & _ & _).
  pose proof (alternative_text_is_rendered
                [SegLiteral "rat"; SegOptional "s"] "" eq_refl)
    as (_ & H2 & _).
  pose proof (alternative_text_is_rendered
                [SegLiteral "rat"] "s" eq_refl) as (_ & _ & H3).
  exact (conj H1 (conj H2 (H3 eq_refl))).
Defined.

(** ** Properties: constructs left open *)

(** X14. When [parse] itself meets, after pieces without alternation, a
    [{] that no [}] follows, it throws [UnclosedParameterException] whose
    message ends with the position of that [{]; a [(] that no [)] follows
    gives [UnclosedOptionalException] with its position. *)
Theorem unclosed_constructs_report_position (segments : list segment)
  (rest : string) :
  forallb segment_ok segments = true ->
  (free_of "}" rest = true ->
   parse (print_segments segments ++ "{" ++ rest)
   = Throw (UnclosedParameterException
              ("Unclosed parameter type: missing '}' at position "
               ++ to_string (Str.length (print_segments segments)))))
  /\ (free_of ")" rest = true ->
      parse (print_segments segments ++ "(" ++ rest)
      = Throw (UnclosedOptionalException
                 ("Unclosed optional text: missing ')' at position "
                  ++ to_string (Str.length (print_segments segments))))).
Proof.
  intros Hok. split; intros Hfree; apply runs_to_parse.
  - pose proof (runs_segments segments "" ("{" ++ rest) ""
                  (Throw (UnclosedParameterException
                            ("Unclosed parameter type: missing '}' at position "
                             ++ to_string
                                  (Str.length (print_segments segments)))))
                  Hok) as H.
    cbn [append] in H. change (Str.length "") with 0 in H.
    rewrite N.add_0_l in H. apply H. clear H.
    apply runs_to_throw.
    + rewrite length_app_N, length_cons_N. lia.
    + unfold parse_step. rewrite at_app_head. cbn [bind].
      rewrite escape_test_other by discriminate. cbn [bind].
      replace (("{" =? "{")%char) with true by reflexivity.
      unfold parseOpenBrace.
      rewrite find_no_closing by (discriminate || assumption).
      reflexivity.
  - pose proof (runs_segments segments "" ("(" ++ rest) ""
                  (Throw (UnclosedOptionalException
                            ("Unclosed optional text: missing ')' at position "
                             ++ to_string
                                  (Str.length (print_segments segments)))))
                  Hok) as H.
    cbn [append] in H. change (Str.length "") with 0 in H.
    rewrite N.add_0_l in H. apply H. clear H.
    apply runs_to_throw.
    + rewrite length_app_N, length_cons_N. lia.
    + unfold parse_step. rewrite at_app_head. cbn [bind].
      rewrite escape_test_other by discriminate. cbn [bind].
      replace (("(" =? "{")%char) with false by reflexivity.
      replace (("(" =? "(")%char) with true by reflexivity.
      unfold parseOpenParenthesis.
      rewrite find_no_closing by (discriminate || assumption).
      reflexivity.
Qed.

Lemma unclosed_constructs_report_position_witness :
  parse "I have {int cucumbers"
  = Throw (UnclosedParameterException
             "Unclosed parameter type: missing '}' at position 7")
  /\ parse "test (a"
     = Throw (UnclosedOptionalException
                "Unclosed optional text: missing ')' at position 5").
Proof.
  split.
  - exact (proj1 (unclosed_constructs_report_position
                    [SegLiteral "I have "] "int cucumbers" eq_refl) eq_refl).
  - exact (proj2 (unclosed_constructs_report_position
                    [SegLiteral "test "] "a" eq_refl) eq_refl).
Defined.

(** ** Pieces and runs of words, one after the other *)

Lemma starts_word_app (start : bool) (done s : string) :
  (start = true -> at_word_start done = true) ->
  starts_word start s = true ->
  at_word_start (done ++ s) = true.
Proof.
  unfold starts_word, at_word_start. rewrite !last_char_app.
  destruct (Str.last_char s) as [c|]; [auto|].
  destruct start; cbn; [auto | discriminate].
Qed.

Lemma free_of_words (gs : list word_group) :
  forallb group_ok gs = true -> free_of "{}()\" (print_words gs) = true.
Proof. apply free_of_groups. Qed.

Lemma scan_chunks (cs : list chunk) :
  forall start prev rest,
    chunks_ok start cs = true ->
    is_backslash prev = false ->
    exists prev',
      is_backslash prev' = false
      /\ validate_scan (print_chunks cs ++ rest) prev 0%Z 0%Z
         = validate_scan rest prev' 0%Z 0%Z.
Proof.
  induction cs as [|[segments gs] cs IH]; intros start prev rest Hok Hprev.
  - exists prev. now split.
  - cbn [chunks_ok] in Hok. apply andb_true_iff in Hok as [Hok Hnext].
    apply andb_true_iff in Hok as [Hsegs Hgs].
    assert (Hrest : exists start', chunks_ok start' cs = true).
    { destruct gs; [eauto|].
      apply andb_true_iff in Hnext as [_ Hnext]. eauto. }
    destruct Hrest as [start' Hcs].
    cbn [print_chunks]. unfold print_chunk. cbn [fst snd].
    rewrite !append_assoc.
    destruct (scan_segments segments prev
                (print_words gs ++ print_chunks cs ++ rest) Hsegs Hprev)
      as (prev1 & Hprev1 & Heq1).
    rewrite Heq1. rewrite validate_scan_app.
    pose proof (free_of_words gs Hgs) as Hfree.
    rewrite validate_scan_plain
      by (eapply free_of_weaken; [exact contains_sub_4_5b | exact Hfree]).
    cbn [bind].
    apply (IH start'); [exact Hcs|].
    apply last_or_plain; [|exact Hprev1].
    eapply free_of_weaken; [exact contains_sub_bs_5 | exact Hfree].
Qed.

Lemma validate_chunks (cs : list chunk) :
  chunks_ok true cs = true -> validate (print_chunks cs) = Ok tt.
Proof.
  intros Hok. unfold validate.
  destruct (scan_chunks cs true None "" Hok eq_refl) as (prev' & _ & Heq).
  rewrite append_nil_r in Heq. now rewrite Heq.
Qed.

Lemma runs_chunks (cs : list chunk) :
  forall start done r,
    Str.length (done ++ print_chunks cs) < 2 ^ 64 ->
    chunks_ok start cs = true ->
    (start = true -> at_word_start done = true /\ at_word_start r = true) ->
    runs_to (done ++ print_chunks cs) (Str.length done) r
      (Ok (r ++ render_chunks cs)).
Proof.
  induction cs as [|[segments gs] cs IH]; intros start done r Hsize Hok Hinv.
  - cbn [print_chunks render_chunks]. rewrite !append_nil_r.
    apply runs_to_end. lia.
  - cbn [chunks_ok] in Hok. apply andb_true_iff in Hok as [Hok Hnext].
    apply andb_true_iff in Hok as [Hsegs Hgs].
    cbn [print_chunks render_chunks] in *.
    unfold print_chunk, render_chunk in *. cbn [fst snd] in *.
    rewrite !append_assoc in *.
    apply runs_segments; [exact Hsegs|].
    destruct gs as [|g gs].
    + unfold print_words, render_words in *. cbn [map joined append] in *.
      specialize (IH (starts_word start (print_segments segments)
                      && starts_word start (render_segments segments))
                    (done ++ print_segments segments)
                    (r ++ render_segments segments)).
      rewrite !append_assoc in IH. rewrite <- length_app_N.
      apply IH; [exact Hsize | exact Hnext |].
      intros Hstart. apply andb_true_iff in Hstart as [Hp Hr].
      split.
      * apply (starts_word_app start);
          [intros Hs; now destruct (Hinv Hs) | exact Hp].
      * apply (starts_word_app start);
          [intros Hs; now destruct (Hinv Hs) | exact Hr].
    + apply andb_true_iff in Hnext as [Hnext Hcs].
      apply andb_true_iff in Hnext as [Hnext Hstop].
      apply andb_true_iff in Hnext as [Hp Hr].
      unfold print_words, render_words in *.
      rewrite <- length_app_N.
      rewrite <- (append_assoc done (print_segments segments)).
      rewrite <- (append_assoc r (render_segments segments)).
      apply runs_groups; try assumption.
      * rewrite append_assoc. exact Hsize.
      * apply (starts_word_app start);
          [intros Hs; now destruct (Hinv Hs) | exact Hp].
      * apply (starts_word_app start);
          [intros Hs; now destruct (Hinv Hs) | exact Hr].
      * specialize (IH false
                      ((done ++ print_segments segments)
                       ++ joined " " (map print_group (g :: gs)))
                      ((r ++ render_segments segments)
                       ++ joined " " (map render_group (g :: gs)))).
        rewrite !append_assoc in IH. rewrite !append_assoc.
        replace (Str.length (done ++ print_segments segments)
                 + Str.length (joined " " (map print_group (g :: gs))))
          with (Str.length (done ++ print_segments segments
                            ++ joined " " (map print_group (g :: gs))))
          by (rewrite !length_app_N; lia).
        apply IH; [exact Hsize | exact Hcs | discriminate].
Qed.

Lemma parse_chunks (cs : list chunk) :
  Str.length (print_chunks cs) < 2 ^ 64 ->
  chunks_ok true cs = true ->
  parse (print_chunks cs) = Ok (render_chunks cs).
Proof.
  intros Hsize Hok. apply runs_to_parse.
  exact (runs_chunks cs true "" "" Hsize Hok (fun _ => conj eq_refl eq_refl)).
Qed.

(** ** Properties: whole expressions *)

(** X15. Take an expression that is a sequence of stretches, each made of
    pieces without alternation (literal text, escapes, registered
    parameters, non-empty optionals) followed by runs of words joined by
    [/]; the runs begin where the expression and the output stand at a
    word start, and the end, a space or [{] follows them. [transform]
    returns the anchored concatenation of the renderings: each piece as it
    stands alone, each run of at least two non-empty words as one group
    [(?:...|...)]. *)
Theorem stretches_are_rendered (regex_error : string -> option string)
  (cs : list chunk) :
  Str.length (print_chunks cs) < 2 ^ 64 ->
  chunks_ok true cs = true ->
  Str.empty (print_chunks cs) = false ->
  regex_error (anchor (render_chunks cs)) = None ->
  validate (print_chunks cs) = Ok tt
  /\ parse (print_chunks cs) = Ok (render_chunks cs)
  /\ transform regex_error (print_chunks cs)
     = Ok ("^" ++ render_chunks cs ++ "$").
Proof.
  intros Hsize Hok Hne Hre.
  pose proof (validate_chunks cs Hok) as Hval.
  pose proof (parse_chunks cs Hsize Hok) as Hparse.
  repeat split; auto.
  unfold transform. rewrite Hne, Hval. cbn [bind]. rewrite Hparse.
  cbn [bind]. unfold validateRegex. now rewrite Hre.
Qed.

Lemma stretches_are_rendered_witness :
  transform accept_all "I have {int} cucumber(s) in my belly/stomach"
  = Ok "^I have (-?\d+) cucumber(?:s)? in my (?:belly|stomach)$"
  /\ transform accept_all "there is/are {int} flight(s)"
     = Ok "^there (?:is|are) (-?\d+) flight(?:s)?$"
  /\ transform accept_all "cat/dog eat(s) fish/meat"
     = Ok "^(?:cat|dog) eat(?:s)? (?:fish|meat)$".
Proof.
  pose proof (stretches_are_rendered accept_all
    [([SegLiteral "I have "; SegParameter "int"; SegLiteral " cucumber";
       SegOptional "s"; SegLiteral " in my "],
      [("belly", ["stomach"])])]
    eq_refl eq_refl eq_refl eq_refl) as (_ & _ & H1).
  pose proof (stretches_are_rendered accept_all
    [([], [("there", []); ("is", ["are"])]);
     ([SegLiteral " "; SegParameter "int"; SegLiteral " flight";
       SegOptional "s"], [])]
    eq_refl eq_refl eq_refl eq_refl) as (_ & _ & H2).
  pose proof (stretches_are_rendered accept_all
    [([], [("cat", ["dog"])]);
     ([SegLiteral " eat"; SegOptional "s"; SegLiteral " "],
      [("fish", ["meat"])])]
    eq_refl eq_refl eq_refl eq_refl) as (_ & _ & H3).
  exact (conj H1 (conj H2 H3)).
Defined.

(** ** An escaped slash inside a later alternative *)

Lemma collect_forward_escaped_slash (e : string) (fuel : nat) (pos : N)
  (cur : string) (alts : list string) :
  pos + 1 < Str.length e ->
  Str.at_ e pos = Ok "\"%char ->
  Str.at_ e (pos + 1) = Ok "/"%char ->
  collect_forward e (S fuel) pos cur alts
  = collect_forward e fuel (pos + 2) cur alts.
Proof.
  intros Hlt Hat Hnext. cbn [collect_forward].
  replace (Str.length e <=? pos) with false
    by (symmetry; apply N.leb_gt; lia).
  rewrite Hat. cbn [bind].
  replace (("\" =? " ")%char || ("\" =? "{")%char) with false by reflexivity.
  replace (("\" =? "(")%char) with false by reflexivity.
  replace (("\" =? "\")%char) with true by reflexivity.
  replace (pos + 1 <? Str.length e) with true
    by (symmetry; apply N.ltb_lt; exact Hlt).
  cbn [andb]. rewrite Hnext. reflexivity.
Qed.

Lemma step_alternation (e : string) (pos : N) (r0 w1 : string)
  (others : list string) (pos' : N) :
  Str.at_ e pos = Ok "/"%char ->
  Str.empty w1 = false ->
  at_word_start r0 = true ->
  forallb word_ok (w1 :: others) = true ->
  collectAlternativesFromHere e (size_sub pos 1) = Ok (pos', w1 :: others) ->
  parse_step e pos (r0 ++ escapeRegexChars w1)
  = Ok (pos',
        r0 ++ (if (1 <? List.length (w1 :: others))%nat
               then "(?:" ++ joined "|" (map escapeRegexChars (w1 :: others))
                    ++ ")"
               else escapeRegexChars w1)).
Proof.
  intros Hat Hne Hr0 Hok Hcollect.
  unfold parse_step. rewrite Hat. cbn [bind].
  rewrite escape_test_other by discriminate. cbn [bind].
  replace (("/" =? "{")%char) with false by reflexivity.
  replace (("/" =? "(")%char) with false by reflexivity.
  replace (("/" =? "/")%char) with true by reflexivity.
  unfold parseAlternatives.
  destruct (escapeRegexChars_last w1 Hne) as [c Hc].
  destruct (scan_wordEnd_ok pos (r0 ++ escapeRegexChars w1) c) as [n Hn].
  { now rewrite last_char_app, Hc. }
  rewrite Hn. cbn [bind]. rewrite Hcollect. cbn [bind].
  destruct (1 <? List.length (w1 :: others))%nat; [|reflexivity].
  rewrite truncate_to_word_start.
  - cbn [bind]. rewrite join_alternatives_plain by exact Hok.
    cbn [bind]. now rewrite !append_assoc.
  - exact Hr0.
  - cbn [forallb] in Hok. now apply andb_true_iff in Hok as [Hw _].
Qed.

Lemma collect_with_escaped_slash (a b c : string) :
  Str.length (a ++ "/" ++ b ++ "\/" ++ c) < 2 ^ 64 ->
  Str.empty a = false ->
  word_ok a = true -> word_ok b = true -> word_ok c = true ->
  collectAlternativesFromHere (a ++ "/" ++ b ++ "\/" ++ c)
    (size_sub (Str.length a) 1)
  = Ok (Str.length (a ++ "/" ++ b ++ "\/" ++ c), effective (a, [b ++ c])).
Proof.
  intros Hsize Hne Ha Hb Hc.
  pose proof (nonempty_length a Hne) as Hlen.
  assert (Hpos : Str.length a < 2 ^ 64)
    by (rewrite length_app_N in Hsize; lia).
  unfold collectAlternativesFromHere.
  rewrite size_sub_one by (unfold Str.length; lia || exact Hpos).
  replace (Str.length a - 1)
    with (N.of_nat (String.length "" + (String.length a - 1)))
    by (unfold Str.length; cbn [String.length]; lia).
  pose proof (backtrack_word "" a ("/" ++ b ++ "\/" ++ c)
                (S (String.length (a ++ "/" ++ b ++ "\/" ++ c)))
                eq_refl Ha (String.length a - 1)%nat
                (S (S (String.length (a ++ "/" ++ b ++ "\/" ++ c)))))
    as Hback.
  replace (S (String.length a - 1)) with (String.length a) in Hback by lia.
  rewrite (drop_all a (String.length a)) in Hback by lia.
  cbn [append] in Hback. cbn [append]. rewrite Hback.
  - cbn [bind]. unfold push_nonempty at 1. rewrite Hne.
    replace (size_add
               (N.of_nat (String.length "" + (String.length a - 1))) 1)
      with (Str.length a)
      by (unfold size_add; rewrite N.mod_small;
          unfold Str.length in *; cbn [String.length]; lia).
    assert (Hscan : scans_to (a ++ String "/" (b ++ String "\" (String "/" c)))
                      (Str.length a) "" [a]
                      (Ok (Str.length
                             (a ++ String "/" (b ++ String "\" (String "/" c))),
                           effective (a, [b ++ c])))).
    { apply (scans_to_step _ _ _ _ (Str.length a + 1) "" [a]).
      - rewrite length_app_N, length_cons_N. lia.
      - lia.
      - intros fuel. rewrite collect_forward_slash_turn;
          [reflexivity | | apply at_app_head].
        rewrite length_app_N, length_cons_N. lia.
      - pose proof (scans_word b (a ++ "/") (String "\" (String "/" c)) ""
                      [a]) as Hword.
        rewrite (append_assoc a "/") in Hword. cbn [append] in Hword.
        replace (Str.length (a ++ "/")) with (Str.length a + 1) in Hword
          by (rewrite length_app_N; reflexivity).
        apply Hword; [exact Hb|]. clear Hword.
        apply (scans_to_step _ _ _ _ (Str.length a + 1 + Str.length b + 2)
                 b [a]).
        + rewrite length_app_N, length_cons_N, length_app_N, !length_cons_N.
          lia.
        + lia.
        + intros fuel.
          replace (Str.length a + 1 + Str.length b)
            with (Str.length (a ++ String "/" b))
            by (rewrite length_app_N, length_cons_N; lia).
          replace (a ++ String "/" (b ++ String "\" (String "/" c)))
            with ((a ++ String "/" b) ++ String "\" (String "/" c))
            by (rewrite append_assoc; reflexivity).
          apply collect_forward_escaped_slash.
          * rewrite !length_app_N, !length_cons_N. lia.
          * apply at_app_head.
          * apply at_app_second.
        + pose proof (scans_word c (a ++ String "/" (b ++ "\/")) "" b [a])
            as Hword.
          rewrite append_nil_r in Hword.
          rewrite (append_assoc a) in Hword. cbn [append] in Hword.
          rewrite (append_assoc b) in Hword. cbn [append] in Hword.
          replace (Str.length (a ++ String "/" (b ++ "\/")))
            with (Str.length a + 1 + Str.length b + 2) in Hword
            by (rewrite length_app_N, length_cons_N, length_app_N;
                change (Str.length "\/") with 2; lia).
          apply Hword; [exact Hc|]. clear Hword.
          pose proof (scans_stop
                        (a ++ String "/" (b ++ String "\" (String "/" c)))
                        "" (b ++ c) [a] eq_refl) as Hstop.
          rewrite append_nil_r in Hstop.
          replace (Str.length a + 1 + Str.length b + 2 + Str.length c)
            with (Str.length
                    (a ++ String "/" (b ++ String "\" (String "/" c))))
            by (rewrite length_app_N, length_cons_N, length_app_N,
                  !length_cons_N; lia).
          replace (effective (a, [b ++ c]))
            with (push_nonempty [a] (b ++ c)); [exact Hstop|].
          rewrite push_nonempty_filter. reflexivity. }
    apply Hscan. unfold Str.length. lia.
  - lia.
  - rewrite !length_append. cbn [String.length]. lia.
Qed.

(** X16. In a run [a/b\/c] of words without [space { } ( ) / \], the
    escaped slash inside the second alternative is neither a separator nor
    a character of the alternative: [transform] returns [^(?:a|bc)$], the
    words [b] and [c] glued together with no slash; when [b] and [c] are
    both empty no alternative is left and it returns [^a$]. *)
Theorem escaped_slash_in_alternative_is_dropped
  (regex_error : string -> option string) (a b c : string) :
  Str.length (a ++ "/" ++ b ++ "\/" ++ c) < 2 ^ 64 ->
  Str.empty a = false ->
  word_ok a = true -> word_ok b = true -> word_ok c = true ->
  regex_error (anchor (render_group (a, [b ++ c]))) = None ->
  parse (a ++ "/" ++ b ++ "\/" ++ c) = Ok (render_group (a, [b ++ c]))
  /\ transform regex_error (a ++ "/" ++ b ++ "\/" ++ c)
     = Ok ("^" ++ render_group (a, [b ++ c]) ++ "$").
Proof.
  intros Hsize Hne Ha Hb Hc Hre.
  assert (Hbc : word_ok (b ++ c) = true).
  { unfold word_ok in *. now rewrite free_of_app, Hb, Hc. }
  assert (Hparse : parse (a ++ "/" ++ b ++ "\/" ++ c)
                   = Ok (render_group (a, [b ++ c]))).
  { apply runs_to_parse.
    pose proof (runs_literal a "" ("/" ++ b ++ "\/" ++ c) ""
                  (Ok (render_group (a, [b ++ c])))) as Hlit.
    cbn [append] in Hlit. change (Str.length "") with 0 in Hlit.
    rewrite N.add_0_l in Hlit. cbn [append]. apply Hlit; clear Hlit.
    { eapply free_of_weaken; [exact contains_sub_word_lit | exact Ha]. }
    pose proof (step_alternation
                  (a ++ String "/" (b ++ String "\" (String "/" c)))
                  (Str.length a) "" a (filter nonempty [b ++ c])
                  (Str.length
                     (a ++ String "/" (b ++ String "\" (String "/" c))))
                  (at_app_head a "/" _) Hne eq_refl) as Hstep.
    cbn [append] in Hstep.
    eapply runs_to_step; [| apply Hstep | | ].
    - rewrite length_app_N, length_cons_N. lia.
    - cbn [forallb]. rewrite Ha. apply forallb_filter_ok.
      cbn [forallb]. now rewrite Hbc.
    - exact (collect_with_escaped_slash a b c Hsize Hne Ha Hb Hc).
    - rewrite length_app_N, length_cons_N. lia.
    - apply runs_to_end. lia. }
  split; [exact Hparse|].
  unfold transform.
  replace (Str.empty (a ++ "/" ++ b ++ "\/" ++ c)) with false
    by (destruct a; [discriminate | reflexivity]).
  rewrite validate_plain.
  - cbn [bind]. rewrite Hparse. cbn [bind]. unfold validateRegex.
    now rewrite Hre.
  - unfold word_ok in *. rewrite !free_of_app.
    assert (Hw : forall w, free_of " {}()/\" w = true ->
                           free_of "{}()" w = true).
    { intros w. apply free_of_weaken. intros x. cbn [Str.contains].
      repeat rewrite orb_true_iff. tauto. }
    rewrite (Hw a Ha), (Hw b Hb), (Hw c Hc). reflexivity.
Qed.

Lemma escaped_slash_in_alternative_is_dropped_witness :
  parse "a/b\/c" = Ok "(?:a|bc)"
  /\ transform accept_all "a/b\/c" = Ok "^(?:a|bc)$".
Proof.
  exact (escaped_slash_in_alternative_is_dropped accept_all "a" "b" "c"
           eq_refl eq_refl eq_refl eq_refl eq_refl eq_refl).
Defined.
